(** * MerkleManager: the whitelist / Merkle-commitment manager of the backend

    A shallow embedding of [class MerkleManager] (backend/merkleManager.js)
    together with the parts of its three dependencies that the class calls:
    [merkletreejs] (the [MerkleTree] class), [keccak256] and [ethers.utils].

    - JavaScript values, strings, [Buffer]s, [Map] and plain objects are
      modelled in [Module JS];
    - [MerkleTree] is modelled in [Module MerkleTree], parametrised by the hash
      function exactly as the library's constructor is;
    - the manager's methods are written in a state-and-exception monad over
      the record [MerkleManager]: a JavaScript exception leaves every
      assignment made before it in place. *)

From Stdlib Require Import ZArith NArith List String Ascii Bool Lia Permutation.
From Stdlib Require Import Strings.Byte DecimalString.
Import ListNotations.
Local Open Scope string_scope.
Local Open Scope list_scope.

(* ================================================================== *)
(** ** JavaScript data *)

Module JS.

(** A [Buffer] / [Uint8Array]. *)
Definition bytes := list byte.

(** The values an [amount] can be: the JSDoc type is [string]; a missing
  field or argument is [undefined]. *)
Inductive jsval :=
| JUndefined
| JString (s : string).

(** [!v] is [negb (truthy v)]: [undefined] and the empty string are falsy. *)
Definition truthy (v : jsval) : bool :=
match v with
| JUndefined => false
| JString s => negb (s =? "")
end.

(** [v === s] for a string literal [s]. *)
Definition strictEqStr (v : jsval) (s : string) : bool :=
match v with
| JUndefined => false
| JString t => t =? s
end.

(** *** Strings *)

Definition isUpper (c : ascii) : bool :=
let n := nat_of_ascii c in (65 <=? n)%nat && (n <=? 90)%nat.

Definition isLower (c : ascii) : bool :=
let n := nat_of_ascii c in (97 <=? n)%nat && (n <=? 122)%nat.

Definition isDigit (c : ascii) : bool :=
let n := nat_of_ascii c in (48 <=? n)%nat && (n <=? 57)%nat.

Definition lowerChar (c : ascii) : ascii :=
if isUpper c then ascii_of_nat (nat_of_ascii c + 32) else c.

Definition upperChar (c : ascii) : ascii :=
if isLower c then ascii_of_nat (nat_of_ascii c - 32) else c.

(** [String.prototype.toLowerCase] on the ASCII range; other code units are
  left as they are (none occurs in a string [isAddress] accepts). *)
Fixpoint toLowerCase (s : string) : string :=
match s with
| EmptyString => EmptyString
| String c s' => String (lowerChar c) (toLowerCase s')
end.

Fixpoint toUpperCase (s : string) : string :=
match s with
| EmptyString => EmptyString
| String c s' => String (upperChar c) (toUpperCase s')
end.

Fixpoint forallb_string (p : ascii -> bool) (s : string) : bool :=
match s with
| EmptyString => true
| String c s' => p c && forallb_string p s'
end.

Fixpoint existsb_string (p : ascii -> bool) (s : string) : bool :=
match s with
| EmptyString => false
| String c s' => p c || existsb_string p s'
end.

(** *** Hexadecimal text *)

Definition hexChar (n : N) : ascii :=
if (n <? 10)%N then ascii_of_N (48 + n) else ascii_of_N (87 + n).

(** Value of a hexadecimal digit, either case. *)
Definition hexValue (c : ascii) : option N :=
let n := N_of_ascii c in
if ((48 <=? n) && (n <=? 57))%N then Some (n - 48)%N
else if ((97 <=? n) && (n <=? 102))%N then Some (n - 87)%N
else if ((65 <=? n) && (n <=? 70))%N then Some (n - 55)%N
else None.

Definition isHexDigit (c : ascii) : bool :=
match hexValue c with Some _ => true | None => false end.

(** [[0-9a-f]] *)
Definition isLowerHexDigit (c : ascii) : bool :=
isHexDigit c && negb (isUpper c).

Definition byteOfN (n : N) : byte :=
match Byte.of_N (n mod 256) with Some b => b | None => x00 end.

Fixpoint hexOfBytes (b : bytes) : string :=
match b with
| [] => EmptyString
| x :: b' =>
    let n := Byte.to_N x in
    String (hexChar (n / 16)) (String (hexChar (n mod 16)) (hexOfBytes b'))
end.

(** [Buffer.from(s, 'hex')]: decodes pairs of digits and stops at the first
  pair that is not two hexadecimal digits. *)
Fixpoint bytesOfHex (s : string) : bytes :=
match s with
| String c1 (String c2 s') =>
    match hexValue c1, hexValue c2 with
    | Some h, Some l => byteOfN (16 * h + l) :: bytesOfHex s'
    | _, _ => []
    end
| _ => []
end.

(** UTF-8 bytes of a string literal ([Buffer.from(s)]); a Rocq string is
  already a sequence of bytes. *)
Definition bytesOfString (s : string) : bytes :=
map (fun c => byteOfN (N_of_ascii c)) (list_ascii_of_string s).

Definition strip0x (s : string) : string :=
match s with
| String "0" (String "x" s') => s'
| _ => s
end.

(** *** Buffers *)

(** [Buffer.compare(a, b)]: lexicographic on unsigned bytes. *)
Fixpoint Buffer_compare (a b : bytes) : comparison :=
match a, b with
| [], [] => Eq
| [], _ :: _ => Lt
| _ :: _, [] => Gt
| x :: a', y :: b' =>
    match N.compare (Byte.to_N x) (Byte.to_N y) with
    | Eq => Buffer_compare a' b'
    | c => c
    end
end.

(** *** Map: insertion-ordered, keys unique *)

Definition Map := list (string * jsval).

(** [m.set(k, v)]: an existing key keeps its position, a new key goes last. *)
Fixpoint Map_set (k : string) (v : jsval) (m : Map) : Map :=
match m with
| [] => [(k, v)]
| (k', v') :: m' =>
    if k' =? k then (k, v) :: m' else (k', v') :: Map_set k v m'
end.

Fixpoint Map_has (k : string) (m : Map) : bool :=
match m with
| [] => false
| (k', _) :: m' => (k' =? k) || Map_has k m'
end.

(** [m.get(k)], [undefined] when the key is absent. *)
Fixpoint Map_get (k : string) (m : Map) : jsval :=
match m with
| [] => JUndefined
| (k', v') :: m' => if k' =? k then v' else Map_get k m'
end.

Fixpoint Map_remove (k : string) (m : Map) : Map :=
match m with
| [] => []
| (k', v') :: m' => if k' =? k then m' else (k', v') :: Map_remove k m'
end.

(** [m.delete(k)]: the map without [k], and whether [k] was there. *)
Definition Map_delete (k : string) (m : Map) : bool * Map :=
(Map_has k m, Map_remove k m).

Definition Map_size (m : Map) : nat := List.length m.

Definition Map_entries (m : Map) : list (string * jsval) := m.

Definition Map_keys (m : Map) : list string := map fst m.

(** *** Plain objects, as their own enumerable string-keyed properties in
  property order: array-index keys in ascending order first, then the
  other keys in creation order. *)

Definition Object := list (string * jsval).

Fixpoint decimalValue (s : string) (acc : N) : N :=
match s with
| EmptyString => acc
| String c s' => decimalValue s' (10 * acc + (N_of_ascii c - 48))%N
end.

(** A canonical numeric string below [2^32 - 1]. *)
Definition arrayIndex (k : string) : option N :=
match k with
| EmptyString => None
| String c rest =>
    if forallb_string isDigit k
       && (String.length k <=? 10)%nat
       && ((k =? "0") || negb (Ascii.eqb c "0"))
       && (decimalValue k 0 <? 4294967295)%N
    then Some (decimalValue k 0)
    else None
end.

(** Does a new key [k] come before the existing key [k'] in property order? *)
Definition keyBefore (k k' : string) : bool :=
match arrayIndex k, arrayIndex k' with
| Some i, Some j => (i <? j)%N
| Some _, None => true
| None, _ => false
end.

Fixpoint Object_define (k : string) (v : jsval) (o : Object) : Object :=
match o with
| [] => [(k, v)]
| (k', v') :: o' =>
    if k' =? k then (k, v) :: o'
    else if keyBefore k k' then (k, v) :: (k', v') :: o'
    else (k', v') :: Object_define k v o'
end.

Definition Object_fromEntries (es : list (string * jsval)) : Object :=
fold_left (fun o kv => Object_define (fst kv) (snd kv) o) es [].

Definition Object_entries (o : Object) : list (string * jsval) := o.

End JS.
Export JS.

(* ================================================================== *)
(** ** merkletreejs *)

(** Modelled from the spec: the [MerkleTree] class of the [merkletreejs]
    package is a dependency whose source is not part of the repository.  The
    tree is built bottom-up by hashing sorted pairs of nodes until one root
    remains, an odd node at the end of a level being promoted unchanged; this
    is the class's behaviour for the options the manager passes,
    [{ sortPairs: true }] (no [sortLeaves], no [hashLeaves], no
    [duplicateOdd]).  The hash function is a constructor argument. *)
Module MerkleTree.
Section WithHash.

Variable hashFn : bytes -> bytes.

(** The object's fields that the methods below read. *)
Record t := mk { leaves : list bytes; layers : list (list bytes) }.

(** [combined = [left, right]; combined.sort(Buffer.compare)] *)
Definition sortPair (l r : bytes) : list bytes :=
  match Buffer_compare l r with
  | Gt => [r; l]
  | _ => [l; r]
  end.

(** [hashFn(Buffer.concat(combined))] *)
Definition hashPair (l r : bytes) : bytes :=
  hashFn (List.concat (sortPair l r)).

(** One pass of the [for (i = 0; i < nodes.length; i += 2)] loop. *)
Fixpoint nextLayer (nodes : list bytes) : list bytes :=
  match nodes with
  | l :: r :: rest => hashPair l r :: nextLayer rest
  | [odd] => [odd]
  | [] => []
  end.

(** [_createHashes]: [while (nodes.length > 1)], one new layer per turn.
    The loop runs at most [length nodes] times; [fuel] bounds it. *)
Fixpoint createHashes (fuel : nat) (nodes : list bytes) : list (list bytes) :=
  match fuel with
  | O => []
  | S fuel' =>
      if (List.length nodes <=? 1)%nat then []
      else let layer := nextLayer nodes in layer :: createHashes fuel' layer
  end.

(** [new MerkleTree(leaves, hashFn, { sortPairs: true })] *)
Definition new (lvs : list bytes) : t :=
  mk lvs (lvs :: createHashes (List.length lvs) lvs).

(** [getRoot]: [layers[layers.length - 1][0] || Buffer.from([])] *)
Definition getRoot (tr : t) : bytes :=
  match last (layers tr) [] with
  | r :: _ => r
  | [] => []
  end.

Definition bufferToHex (b : bytes) : string := ("0x" ++ hexOfBytes b)%string.

Definition isHexString (s : string) : bool :=
  forallb_string isHexDigit (strip0x s).

(** [bufferify] of a string. *)
Definition bufferify (s : string) : bytes :=
  if isHexString s then bytesOfHex (strip0x s) else bytesOfString s.

Definition getHexRoot (tr : t) : string := bufferToHex (getRoot tr).

(** The search loop of [getProof] has no [break]: the last equal leaf
    wins.  [None] is the library's [-1]. *)
Fixpoint findIndex (leaf : bytes) (lvs : list bytes) (i : nat) (found : option nat)
  : option nat :=
  match lvs with
  | [] => found
  | l :: lvs' =>
      findIndex leaf lvs' (S i)
        (match Buffer_compare leaf l with Eq => Some i | _ => found end)
  end.

(** The walk over [this.layers]: the sibling of [index] when the layer has
    one, then [index = (index / 2) | 0]. *)
Fixpoint collect (lys : list (list bytes)) (index : nat) : list bytes :=
  match lys with
  | [] => []
  | layer :: lys' =>
      let isRightNode := Nat.odd index in
      let pairIndex := if isRightNode then (index - 1)%nat else (index + 1)%nat in
      let up := collect lys' (Nat.div2 index) in
      match nth_error layer pairIndex with
      | Some sibling => sibling :: up
      | None => up
      end
  end.

Definition getProof (tr : t) (leaf : bytes) : list bytes :=
  match findIndex leaf (leaves tr) 0 None with
  | None => []
  | Some index => collect (layers tr) index
  end.

Definition getHexProof (tr : t) (leaf : bytes) : list string :=
  map bufferToHex (getProof tr leaf).

(** The loop of [verify] for a proof of hex strings under [sortPairs]. *)
Fixpoint foldProof (proof : list string) (hash : bytes) : bytes :=
  match proof with
  | [] => hash
  | node :: proof' =>
      let data := bufferify node in
      foldProof proof'
        (match Buffer_compare hash data with
         | Lt => hashFn (List.concat [hash; data])
         | _ => hashFn (List.concat [data; hash])
         end)
  end.

(** [verify(proof, targetNode, root)] for a [Buffer] target and a string
    root. *)
Definition verify (proof : list string) (targetNode : bytes) (root : string) : bool :=
  match Buffer_compare (foldProof proof targetNode) (bufferify root) with
  | Eq => true
  | _ => false
  end.

End WithHash.
End MerkleTree.

(* ================================================================== *)
(** ** The dependencies as an interface *)

(** What a JavaScript call ends in. *)
Inductive Exception :=
| Error (message : string)        (** [throw new Error(message)] of the manager *)
| LibraryError (message : string) (** thrown inside a dependency *).

Inductive completion (A : Type) :=
| Return (a : A)
| Throw (e : Exception).
Arguments Return {A} a.
Arguments Throw {A} e.

(** The functions of [ethers.utils] and [keccak256] that the manager calls.
    [formatEther] and [solidityPack] throw on values they cannot read as
    numbers or as hex data. *)
Class Libraries := {
  isAddress : string -> bool;
  formatEther : jsval -> completion string;
  (** [solidityPack(['address', 'uint256'], [address, amount])] *)
  solidityPack : string -> jsval -> completion bytes;
  keccak256 : bytes -> bytes
}.

(* ================================================================== *)
(** ** The manager *)

Record MerkleManager := mkManager {
  whitelistedUsers : Map;
  merkleTree : option MerkleTree.t;
  merkleRoot : option string;
  (** ghost: how many times [generateMerkleTree] has been entered *)
  rebuilds : nat
}.

(** A method body: it reads and assigns the fields of [this], and either
    returns or throws; assignments made before a throw stay. *)
Definition M (A : Type) := MerkleManager -> completion A * MerkleManager.

Definition ret {A} (a : A) : M A := fun this => (Return a, this).

Definition throw {A} (e : Exception) : M A := fun this => (Throw e, this).

Definition bind {A B} (m : M A) (k : A -> M B) : M B :=
  fun this =>
    match m this with
    | (Return a, this') => k a this'
    | (Throw e, this') => (Throw e, this')
    end.

Definition lift {A} (c : completion A) : M A := fun this => (c, this).

Definition get : M MerkleManager := fun this => (Return this, this).

Declare Scope js_scope.
Delimit Scope js_scope with js.
Notation "x <- m ;; k" := (bind m (fun x => k))
  (at level 61, m at next level, right associativity) : js_scope.
Notation "m ;; k" := (bind m (fun _ => k))
  (at level 61, right associativity) : js_scope.
Local Open Scope js_scope.

Definition set_whitelistedUsers (w : Map) : M unit :=
  fun this => (Return tt, mkManager w (merkleTree this) (merkleRoot this) (rebuilds this)).

Definition set_merkleTree (t : option MerkleTree.t) : M unit :=
  fun this => (Return tt, mkManager (whitelistedUsers this) t (merkleRoot this) (rebuilds this)).

Definition set_merkleRoot (r : option string) : M unit :=
  fun this => (Return tt, mkManager (whitelistedUsers this) (merkleTree this) r (rebuilds this)).

Definition count_rebuild : M unit :=
  fun this => (Return tt, mkManager (whitelistedUsers this) (merkleTree this) (merkleRoot this)
                                    (S (rebuilds this))).

(** [xs.map(f)] where [f] may throw: left to right, stops at the first throw. *)
Fixpoint mapC {A B} (f : A -> completion B) (xs : list A) : completion (list B) :=
  match xs with
  | [] => Return []
  | x :: xs' =>
      match f x with
      | Throw e => Throw e
      | Return y =>
          match mapC f xs' with
          | Throw e => Throw e
          | Return ys => Return (y :: ys)
          end
      end
  end.

(** [xs.forEach(f)] *)
Fixpoint forEach {A} (f : A -> M unit) (xs : list A) : M unit :=
  match xs with
  | [] => ret tt
  | x :: xs' => f x ;; forEach f xs'
  end.

Definition ZERO_ROOT : string :=
  "0x0000000000000000000000000000000000000000000000000000000000000000".

(** The results of the methods, field for field. *)
Record AddResult := mkAdd {
  add_user : string; add_amount : jsval; add_merkleRoot : option string }.

(** [removeFromWhitelist] returns [{ user, removed: true, merkleRoot }] or
    [{ user, removed: false }]: the second object has no [merkleRoot]. *)
Inductive RemoveResult :=
| Removed (user : string) (merkleRoot : option string)
| NotRemoved (user : string).

(** [r.merkleRoot] of a result [r] of [removeFromWhitelist]: [None] when the
    object has no such property. *)
Definition remove_merkleRoot (r : RemoveResult) : option (option string) :=
  match r with
  | Removed _ root => Some root
  | NotRemoved _ => None
  end.

Definition removed (r : RemoveResult) : bool :=
  match r with Removed _ _ => true | NotRemoved _ => false end.

Record ProofResult := mkProof {
  proof_user : string; proof_amount : jsval; proof : list string;
  proof_merkleRoot : option string; leaf : string; isValid : bool }.

Record Stats := mkStats {
  totalUsers : nat; stats_merkleRoot : option string; hasTree : bool }.

Record BatchResult := mkBatch {
  added : nat; total : nat; batch_merkleRoot : option string }.

Record User := mkUser { address : string; amount : jsval }.

(** The object [exportWhitelist] returns and [importWhitelist] reads; [users]
    is [None] when the property is missing. *)
Record WhitelistData := mkData {
  users : option Object; data_merkleRoot : option string; timestamp : string }.

Section Manager.

Context {lib : Libraries}.

(** [constructor()] *)
Definition constructor : MerkleManager := mkManager [] None None 0.

(** [keccak256(ethers.utils.solidityPack(['address', 'uint256'], [address, amount]))] *)
Definition leafOf (entry : string * jsval) : completion bytes :=
  match solidityPack (fst entry) (snd entry) with
  | Return packed => Return (keccak256 packed)
  | Throw e => Throw e
  end.

Definition generateMerkleTree : M unit :=
  count_rebuild ;;
  this <- get ;;
  if (Map_size (whitelistedUsers this) =? 0)%nat then
    set_merkleTree None ;;
    set_merkleRoot (Some ZERO_ROOT)
  else
    leaves <- lift (mapC leafOf (Map_entries (whitelistedUsers this))) ;;
    let tree := MerkleTree.new keccak256 leaves in
    set_merkleTree (Some tree) ;;
    set_merkleRoot (Some (MerkleTree.getHexRoot tree)).

Definition addToWhitelist (userAddress : string) (amount : jsval) : M AddResult :=
  if negb (isAddress userAddress) then throw (Error "Invalid address format")
  else if negb (truthy amount) || strictEqStr amount "0" then throw (Error "Invalid amount")
  else
    this <- get ;;
    set_whitelistedUsers (Map_set (toLowerCase userAddress) amount (whitelistedUsers this)) ;;
    _ <- lift (formatEther amount) ;;   (* the argument of console.log *)
    generateMerkleTree ;;
    this <- get ;;
    ret (mkAdd userAddress amount (merkleRoot this)).

Definition removeFromWhitelist (userAddress : string) : M RemoveResult :=
  if negb (isAddress userAddress) then throw (Error "Invalid address format")
  else
    this <- get ;;
    let (wasRemoved, users') := Map_delete (toLowerCase userAddress) (whitelistedUsers this) in
    set_whitelistedUsers users' ;;
    if wasRemoved then
      generateMerkleTree ;;
      this <- get ;;
      ret (Removed userAddress (merkleRoot this))
    else ret (NotRemoved userAddress).

Definition getMerkleProof (userAddress : string) : M ProofResult :=
  if negb (isAddress userAddress) then throw (Error "Invalid address format")
  else
    this <- get ;;
    let normalizedAddress := toLowerCase userAddress in
    let amount := Map_get normalizedAddress (whitelistedUsers this) in
    if negb (truthy amount) then throw (Error "User not whitelisted")
    else
      match merkleTree this with
      | None => throw (Error "Merkle tree not generated")
      | Some tree =>
          leaf <- lift (leafOf (normalizedAddress, amount)) ;;
          let proof := MerkleTree.getHexProof tree leaf in
          match merkleRoot this with
          | None => throw (LibraryError "TypeError")  (* bufferify(null) *)
          | Some root =>
              let isValid := MerkleTree.verify keccak256 proof leaf root in
              ret (mkProof userAddress amount proof (merkleRoot this)
                           ("0x" ++ hexOfBytes leaf)%string isValid)
          end
      end.

Definition isWhitelisted (userAddress : string) : M bool :=
  if negb (isAddress userAddress) then ret false
  else
    this <- get ;;
    ret (Map_has (toLowerCase userAddress) (whitelistedUsers this)).

(** [null] is [None]; a falsy stored amount also gives [null]. *)
Definition getUserAmount (userAddress : string) : M (option jsval) :=
  if negb (isAddress userAddress) then ret None
  else
    this <- get ;;
    let amount := Map_get (toLowerCase userAddress) (whitelistedUsers this) in
    ret (if truthy amount then Some amount else None).

(** One object of the array [getAllWhitelistedUsers] returns. *)
Record UserInfo := mkUserInfo {
  info_address : string; info_amount : jsval; amountETH : string }.

(** The callback of [map] in [getAllWhitelistedUsers]; [formatEther] throws
    on an amount it cannot read. *)
Definition userInfoOf (entry : string * jsval) : completion UserInfo :=
  match formatEther (snd entry) with
  | Return eth => Return (mkUserInfo (fst entry) (snd entry) eth)
  | Throw e => Throw e
  end.

Definition getAllWhitelistedUsers : M (list UserInfo) :=
  this <- get ;;
  lift (mapC userInfoOf (Map_entries (whitelistedUsers this))).

Definition getCurrentMerkleRoot : M (option string) :=
  this <- get ;; ret (merkleRoot this).

Definition getStats : M Stats :=
  this <- get ;;
  ret (mkStats (Map_size (whitelistedUsers this)) (merkleRoot this)
               (match merkleTree this with Some _ => true | None => false end)).

(** The callback of [users.forEach] in [batchAddToWhitelist]; it returns
    whether the record was written.  Nothing inside its [try] throws. *)
Definition batchStep (u : User) : M bool :=
  if isAddress (address u) && truthy (amount u) && negb (strictEqStr (amount u) "0") then
    this <- get ;;
    set_whitelistedUsers (Map_set (toLowerCase (address u)) (amount u) (whitelistedUsers this)) ;;
    ret true
  else ret false.

Fixpoint batchLoop (users : list User) (addedCount : nat) : M nat :=
  match users with
  | [] => ret addedCount
  | u :: users' =>
      written <- batchStep u ;;
      batchLoop users' (if written then S addedCount else addedCount)
  end.

Definition batchAddToWhitelist (users : list User) : M BatchResult :=
  addedCount <- batchLoop users 0 ;;
  (if (0 <? addedCount)%nat then generateMerkleTree else ret tt) ;;
  this <- get ;;
  ret (mkBatch addedCount (Map_size (whitelistedUsers this)) (merkleRoot this)).

(** [now] is [new Date().toISOString()]. *)
Definition exportWhitelist (now : string) : M WhitelistData :=
  this <- get ;;
  ret (mkData (Some (Object_fromEntries (Map_entries (whitelistedUsers this))))
              (merkleRoot this) now).

Definition importStep (entry : string * jsval) : M unit :=
  if isAddress (fst entry) then
    this <- get ;;
    set_whitelistedUsers (Map_set (toLowerCase (fst entry)) (snd entry) (whitelistedUsers this))
  else ret tt.

Definition importWhitelist (data : WhitelistData) : M Stats :=
  match users data with
  | None => throw (Error "Invalid whitelist data")
  | Some us =>
      set_whitelistedUsers [] ;;
      forEach importStep (Object_entries us) ;;
      generateMerkleTree ;;
      getStats
  end.

End Manager.

(* ================================================================== *)
(** ** keccak256 *)

(** Modelled from the spec: the [keccak256] package is a dependency whose
    source is not part of the repository; the spec names the function
    (Keccak-256).  This is Keccak-f[1600] with rate 1088, capacity 512 and
    the original Keccak padding (first pad byte 0x01), on 64-bit lanes held
    in [N]. *)
Module Keccak.

Local Open Scope N_scope.

Definition mask64 : N := 0xFFFFFFFFFFFFFFFF.

Definition rotl (x r : N) : N :=
  N.land (N.lor (N.shiftl x r) (N.shiftr x (64 - r))) mask64.

(** The 5x5 lanes, lane [(x, y)] at position [x + 5 * y]. *)
Definition lanes := list N.

Definition lane (a : lanes) (x y : nat) : N :=
  nth ((x mod 5) + 5 * (y mod 5))%nat a 0.

Definition positions : list nat := seq 0 25.

Definition rotationOffsets : list N :=
  [ 0;  1; 62; 28; 27;
   36; 44;  6; 55; 20;
    3; 10; 43; 25; 39;
   41; 45; 15; 21;  8;
   18;  2; 61; 56; 14].

Definition roundConstants : list N :=
  [0x0000000000000001; 0x0000000000008082; 0x800000000000808A;
   0x8000000080008000; 0x000000000000808B; 0x0000000080000001;
   0x8000000080008081; 0x8000000000008009; 0x000000000000008A;
   0x0000000000000088; 0x0000000080008009; 0x000000008000000A;
   0x000000008000808B; 0x800000000000008B; 0x8000000000008089;
   0x8000000000008003; 0x8000000000008002; 0x8000000000000080;
   0x000000000000800A; 0x800000008000000A; 0x8000000080008081;
   0x8000000000008080; 0x0000000080000001; 0x8000000080008008].

Definition theta (a : lanes) : lanes :=
  let c := map (fun x => N.lxor (lane a x 0) (N.lxor (lane a x 1)
                 (N.lxor (lane a x 2) (N.lxor (lane a x 3) (lane a x 4)))))
               (seq 0 5) in
  let d := map (fun x => N.lxor (nth ((x + 4) mod 5)%nat c 0)
                                (rotl (nth ((x + 1) mod 5)%nat c 0) 1))
               (seq 0 5) in
  map (fun i => N.lxor (nth i a 0) (nth (i mod 5)%nat d 0)) positions.

(** rho and pi: [B[y, 2x + 3y] = rot(A[x, y], r[x, y])], read from the
    target position [(X, Y)]: the source is [((X + 3Y) mod 5, X)]. *)
Definition rhoPi (a : lanes) : lanes :=
  map (fun i =>
         let X := (i mod 5)%nat in
         let Y := (i / 5)%nat in
         let x := ((X + 3 * Y) mod 5)%nat in
         let y := X in
         rotl (lane a x y) (nth (x + 5 * y)%nat rotationOffsets 0))
      positions.

Definition chi (b : lanes) : lanes :=
  map (fun i =>
         let x := (i mod 5)%nat in
         let y := (i / 5)%nat in
         N.lxor (lane b x y) (N.ldiff (lane b (x + 2) y) (lane b (x + 1) y)))
      positions.

Definition iota (rc : N) (a : lanes) : lanes :=
  match a with
  | a0 :: rest => N.lxor a0 rc :: rest
  | [] => []
  end.

Definition round (a : lanes) (rc : N) : lanes :=
  iota rc (chi (rhoPi (theta a))).

Definition keccak_f (a : lanes) : lanes := fold_left round roundConstants a.

(** Little-endian value of up to eight bytes. *)
Fixpoint laneOfBytes (b : bytes) : N :=
  match b with
  | [] => 0
  | x :: b' => Byte.to_N x + 256 * laneOfBytes b'
  end.

Fixpoint bytesOfLane (n : nat) (v : N) : bytes :=
  match n with
  | O => []
  | S n' => byteOfN v :: bytesOfLane n' (v / 256)
  end.

Definition rate : nat := 136.

(** The lanes of one block of [rate] bytes. *)
Fixpoint blockLanes (n : nat) (block : bytes) : list N :=
  match n with
  | O => []
  | S n' => laneOfBytes (firstn 8 block) :: blockLanes n' (skipn 8 block)
  end.

Fixpoint xorInto (a : lanes) (b : list N) : lanes :=
  match a, b with
  | x :: a', y :: b' => N.lxor x y :: xorInto a' b'
  | _, [] => a
  | [], _ => []
  end.

(** pad10*1 with the Keccak domain byte: 0x01, zeros, and 0x80 into the
    last byte of the block. *)
Definition pad (msg : bytes) : bytes :=
  let fill := (rate - 1 - (List.length msg mod rate))%nat in
  match fill with
  | O => msg ++ [x81]
  | S k => msg ++ [x01] ++ repeat x00 k ++ [x80]
  end.

Fixpoint absorb (blocks : nat) (data : bytes) (a : lanes) : lanes :=
  match blocks with
  | O => a
  | S blocks' =>
      absorb blocks' (skipn rate data)
             (keccak_f (xorInto a (blockLanes 17 (firstn rate data))))
  end.

Definition keccak256 (msg : bytes) : bytes :=
  let data := pad msg in
  let a := absorb (List.length data / rate) data (repeat 0 25) in
  List.concat (map (bytesOfLane 8) (firstn 4 a)).

End Keccak.

(* ================================================================== *)
(** ** ethers.utils *)

(** Modelled from the spec: [ethers] (version 5, the one with
    [ethers.utils]) is a dependency whose source is not part of the
    repository.  The spec fixes the leaf layout (the 20 address bytes followed
    by the amount as 32 big-endian bytes); the rest follows the library:
    [isAddress] accepts 40 hexadecimal digits with or without the [0x]
    prefix (a mixed-case spelling must carry the EIP-55 checksum) and ICAP
    addresses that fit 20 bytes; [BigNumber.from] reads decimal and [0x] hexadecimal strings
    with an optional sign (a prefix spelled [0X] is rejected here). *)
Module Ethers.

Local Open Scope string_scope.

Definition isUpperAF (c : ascii) : bool :=
  let n := nat_of_ascii c in (65 <=? n)%nat && (n <=? 70)%nat.

Definition isLowerAF (c : ascii) : bool :=
  let n := nat_of_ascii c in (97 <=? n)%nat && (n <=? 102)%nat.

Definition isAlnum (c : ascii) : bool := isDigit c || isUpper c || isLower c.

(** [/^[0-9a-fA-F]{40}$/] *)
Definition isHex40 (s : string) : bool :=
  (String.length s =? 40)%nat && forallb_string isHexDigit s.

(** The hexadecimal digit [i] of a buffer. *)
Definition nibble (b : bytes) (i : nat) : N :=
  let n := Byte.to_N (nth (i / 2) b x00) in
  if Nat.even i then (n / 16)%N else (n mod 16)%N.

Fixpoint checksumChars (hashed : bytes) (i : nat) (chars : string) : string :=
  match chars with
  | EmptyString => EmptyString
  | String c chars' =>
      String (if (8 <=? nibble hashed i)%N then upperChar c else c)
             (checksumChars hashed (S i) chars')
  end.

(** [getChecksumAddress] of a [0x]-prefixed address. *)
Definition getChecksumAddress (address : string) : string :=
  let chars := substring 2 40 (toLowerCase address) in
  let hashed := Keccak.keccak256 (bytesOfString chars) in
  "0x" ++ checksumChars hashed 0 chars.

(** [/([A-F].*[a-f])|([a-f].*[A-F])/] *)
Definition mixedCase (s : string) : bool :=
  existsb_string isUpperAF s && existsb_string isLowerAF s.

(** The digits of the IBAN check: a digit stands for itself, a letter for
    10 to 35; the value is taken modulo 97. *)
Fixpoint ibanExpand (s : string) (acc : N) : N :=
  match s with
  | EmptyString => acc
  | String c s' =>
      let n := N_of_ascii c in
      ibanExpand s'
        (if isDigit c then (10 * acc + (n - 48)) mod 97
         else (100 * acc + (n - 55)) mod 97)%N
  end.

Definition twoDigits (n : N) : string :=
  String (ascii_of_N (48 + n / 10)) (String (ascii_of_N (48 + n mod 10)) EmptyString).

Definition ibanChecksum (address : string) : string :=
  let a := toUpperCase address in
  let moved := substring 4 (String.length a - 4) a ++ substring 0 2 a ++ "00" in
  twoDigits (98 - ibanExpand moved 0).

(** [/^XE[0-9]{2}[0-9A-Za-z]{30,31}$/] *)
Definition isIcapShape (s : string) : bool :=
  (substring 0 2 s =? "XE")
  && forallb_string isDigit (substring 2 2 s)
  && ((String.length s =? 34)%nat || (String.length s =? 35)%nat)
  && forallb_string isAlnum (substring 4 (String.length s - 4) s).

(** [/^(0x)?[0-9a-fA-F]{40}$/] *)
Definition isHexAddressShape (a : string) : bool :=
  match a with
  | String "0" (String "x" digits) => isHex40 digits
  | _ => isHex40 a
  end.

(** The number the body of an ICAP address spells in base 36, letters of
    either case standing for 10 to 35. *)
Fixpoint base36Value (s : string) (acc : N) : N :=
  match s with
  | EmptyString => acc
  | String c s' =>
      let n := N_of_ascii c in
      base36Value s'
        (36 * acc + (if isDigit c then n - 48 else if isUpper c then n - 55 else n - 87))%N
  end.

(** [isAddress(a)]: does [getAddress(a)] return?  An ICAP address must
    carry its checksum and spell a number of at most 20 bytes. *)
Definition isAddress (a : string) : bool :=
  if isHexAddressShape a then
    let address := if substring 0 2 a =? "0x" then a else "0x" ++ a in
    negb (mixedCase address) || (getChecksumAddress address =? address)
  else if isIcapShape a then
    (substring 2 2 a =? ibanChecksum a)
    && (base36Value (substring 4 (String.length a - 4) a) 0 <? 2 ^ 160)%N
  else false.

Definition TWO256 : Z := 2 ^ 256.

Fixpoint hexNumber (s : string) (acc : N) : N :=
  match s with
  | EmptyString => acc
  | String c s' =>
      hexNumber s' (16 * acc + match hexValue c with Some d => d | None => 0 end)%N
  end.

(** An unsigned numeral: [0x] digits or decimal digits. *)
Definition unsignedNumber (s : string) : option N :=
  match s with
  | String "0" (String "x" digits) =>
      if negb (digits =? "") && forallb_string isHexDigit digits
      then Some (hexNumber digits 0) else None
  | _ =>
      if negb (s =? "") && forallb_string isDigit s
      then Some (decimalValue s 0) else None
  end.

(** [BigNumber.from(v)] *)
Definition BigNumber_from (v : jsval) : completion Z :=
  match v with
  | JUndefined => Throw (LibraryError "invalid BigNumber value")
  | JString s =>
      let parsed :=
        match s with
        | String "-" s' => option_map (fun n => (- Z.of_N n)%Z) (unsignedNumber s')
        | _ => option_map Z.of_N (unsignedNumber s)
        end in
      match parsed with
      | Some z => Return z
      | None => Throw (LibraryError "invalid BigNumber string")
      end
  end.

Definition decimalOfN (n : N) : string := NilZero.string_of_uint (N.to_uint n).

Fixpoint dropTrailingZeros (rev_digits : list ascii) : list ascii :=
  match rev_digits with
  | "0"%char :: rest => dropTrailingZeros rest
  | _ => rev_digits
  end.

Definition padLeft (width : nat) (s : string) : string :=
  string_of_list_ascii (repeat "0"%char (width - String.length s)) ++ s.

(** [formatEther(v)]: [formatFixed(BigNumber.from(v), 18)] *)
Definition formatEther (v : jsval) : completion string :=
  match BigNumber_from v with
  | Throw e => Throw e
  | Return z =>
      let n := Z.abs_N z in
      let multiplier := (10 ^ 18)%N in
      let fraction := padLeft 18 (decimalOfN (n mod multiplier)) in
      let stripped :=
        match dropTrailingZeros (rev (list_ascii_of_string fraction)) with
        | [] => "0"
        | ds => string_of_list_ascii (rev ds)
        end in
      let value := decimalOfN (n / multiplier) ++ "." ++ stripped in
      Return (if (z <? 0)%Z then "-" ++ value else value)
  end.

(** [/^0x[0-9A-Fa-f]*$/] *)
Definition isHexString (s : string) : bool :=
  match s with
  | String "0" (String "x" digits) => forallb_string isHexDigit digits
  | _ => false
  end.

(** [arrayify(s)] of a string *)
Definition arrayify (s : string) : completion bytes :=
  if negb (isHexString s) then Throw (LibraryError "invalid arrayify value")
  else if Nat.odd (String.length s) then Throw (LibraryError "hex data is odd-length")
  else Return (bytesOfHex (strip0x s)).

(** [n] big-endian bytes of [v]. *)
Fixpoint bigEndian (n : nat) (v : N) : bytes :=
  match n with
  | O => []
  | S n' => (bigEndian n' (v / 256) ++ [byteOfN v])%list
  end.

(** The number a buffer spells, most significant byte first. *)
Definition bigEndianValue (b : bytes) : N :=
  fold_left (fun acc x => (256 * acc + Byte.to_N x)%N) b 0%N.

(** [toTwos(256)]: a negative value has the low 256 bits of its magnitude
    complemented and one added; the bits above are dropped. *)
Definition toTwos256 (z : Z) : Z :=
  if (z <? 0)%Z then (TWO256 - 1 - Z.abs z mod TWO256 + 1)%Z
  else z.

(** [zeroPad(v, 32)] of a non-negative number. *)
Definition zeroPad32 (z : Z) : completion bytes :=
  if (z <? TWO256)%Z then Return (bigEndian 32 (Z.to_N z))
  else Throw (LibraryError "value out of range").

(** [solidityPack(['address', 'uint256'], [address, amount])]: the two
    packed parts, in that order, concatenated. *)
Definition solidityPack (address : string) (amount : jsval) : completion bytes :=
  match arrayify address with
  | Throw e => Throw e
  | Return a =>
      match BigNumber_from amount with
      | Throw e => Throw e
      | Return z =>
          match zeroPad32 (toTwos256 z) with
          | Throw e => Throw e
          | Return v => Return (a ++ v)%list
          end
      end
  end.

End Ethers.

(** The manager as deployed: [ethers] 5 and [keccak256]. *)
#[export] Instance node_modules : Libraries := {|
  isAddress := Ethers.isAddress;
  formatEther := Ethers.formatEther;
  solidityPack := Ethers.solidityPack;
  keccak256 := Keccak.keccak256
|}.

(* ================================================================== *)
(** ** Sequences of calls *)

(** A call of a public method by the host. *)
Inductive Call :=
| CallAdd (userAddress : string) (amount : jsval)
| CallRemove (userAddress : string)
| CallGenerate
| CallGetProof (userAddress : string)
| CallIsWhitelisted (userAddress : string)
| CallGetUserAmount (userAddress : string)
| CallGetStats
| CallBatchAdd (users : list User)
| CallExport (now : string)
| CallImport (data : WhitelistData).

Section Calls.

Context {lib : Libraries}.

(** The manager after a call, whether the call returned or threw. *)
Definition step (this : MerkleManager) (c : Call) : MerkleManager :=
  match c with
  | CallAdd a v => snd (addToWhitelist a v this)
  | CallRemove a => snd (removeFromWhitelist a this)
  | CallGenerate => snd (generateMerkleTree this)
  | CallGetProof a => snd (getMerkleProof a this)
  | CallIsWhitelisted a => snd (isWhitelisted a this)
  | CallGetUserAmount a => snd (getUserAmount a this)
  | CallGetStats => snd (getStats this)
  | CallBatchAdd us => snd (batchAddToWhitelist us this)
  | CallExport now => snd (exportWhitelist now this)
  | CallImport d => snd (importWhitelist d this)
  end.

(** The manager after a sequence of calls on a fresh instance. *)
Definition execute (calls : list Call) : MerkleManager :=
  fold_left step calls constructor.

(** The guard of [batchAddToWhitelist] on one record. *)
Definition passesValidation (u : User) : bool :=
  isAddress (address u) && truthy (amount u) && negb (strictEqStr (amount u) "0").

(** The whitelist after writing [us] in order. *)
Definition writeAll (us : list User) (w : Map) : Map :=
  fold_left (fun w u => Map_set (toLowerCase (address u)) (amount u) w) us w.

(** The whitelist [importWhitelist] assembles from the entries. *)
Definition imported (es : list (string * jsval)) (w : Map) : Map :=
  fold_left (fun w e => if isAddress (fst e) then Map_set (toLowerCase (fst e)) (snd e) w
                        else w) es w.

(** Whenever the whitelist is empty there is no tree, and the root is the
    zero sentinel, or still [null] when no rebuild has run. *)
Definition emptyMeansNoTree (this : MerkleManager) : Prop :=
  whitelistedUsers this = [] ->
  merkleTree this = None /\
  (merkleRoot this = Some ZERO_ROOT \/ (merkleRoot this = None /\ rebuilds this = 0%nat)).

(** Every key is the lowercase form of a string [isAddress] accepts. *)
Definition canonicalKey (k : string) : Prop :=
  exists a, isAddress a = true /\ k = toLowerCase a.

Definition canonicalKeys (this : MerkleManager) : Prop :=
  Forall canonicalKey (Map_keys (whitelistedUsers this)).

(** The root is [null], the zero sentinel, or spells a buffer with [P]. *)
Definition rootShape (P : bytes -> Prop) (this : MerkleManager) : Prop :=
  merkleRoot this = None \/ merkleRoot this = Some ZERO_ROOT \/
  exists b, P b /\ merkleRoot this = Some ("0x" ++ hexOfBytes b)%string.

(** The tree and root are the ones a rebuild over the present whitelist
    assigns: a rebuild now would return and change neither. *)
Definition current (this : MerkleManager) : Prop :=
  generateMerkleTree this =
    (Return tt, mkManager (whitelistedUsers this) (merkleTree this) (merkleRoot this)
                          (S (rebuilds this))).

(** A stored tree is the one [new MerkleTree] builds from its own, non-empty
    list of leaves, and the stored root spells its root. *)
Definition treeBuilt (this : MerkleManager) : Prop :=
  forall tree,
    merkleTree this = Some tree ->
    tree = MerkleTree.new keccak256 (MerkleTree.leaves tree) /\
    MerkleTree.leaves tree <> [] /\
    merkleRoot this = Some (MerkleTree.getHexRoot tree).

(** The amount rule of [addToWhitelist] and [batchAddToWhitelist]: truthy
    and not the string '0'. *)
Definition passesAmountGuard (entry : string * jsval) : Prop :=
  truthy (snd entry) = true /\ snd entry <> JString "0".

Definition isImport (c : Call) : bool :=
  match c with
  | CallImport _ => true
  | _ => false
  end.

(** [importWhitelist(exportWhitelist())] *)
Definition roundTrip (now : string) : M Stats :=
  data <- exportWhitelist now ;; importWhitelist data.

End Calls.

(* ================================================================== *)
(** ** Sample data *)

(** The scenario of the documentation: three accounts and their amounts in
    wei, run on the manager with [ethers] and [keccak256]. *)
Module Sample.

Definition alice : string := "0xAAAAAAAAAAAAAAAAAAAAAAAAAAAAAAAAAAAAAAAA".
Definition bob : string := "0xBBBBBBBBBBBBBBBBBBBBBBBBBBBBBBBBBBBBBBBB".
Definition carol : string := "0xCCCCCCCCCCCCCCCCCCCCCCCCCCCCCCCCCCCCCCCC".

Definition run (calls : list Call) : MerkleManager :=
  execute (lib := node_modules) calls.

(** alice, bob, carol in this order, and the same records with the last
    two swapped. *)
Definition abc : MerkleManager :=
  run [CallAdd alice (JString "1000"); CallAdd bob (JString "2000");
       CallAdd carol (JString "500")].

Definition acb : MerkleManager :=
  run [CallAdd alice (JString "1000"); CallAdd carol (JString "500");
       CallAdd bob (JString "2000")].

Definition onlyBob : MerkleManager := run [CallAdd bob (JString "2000")].

(** A backup whose second amount is not a number: the import replaces the
    whitelist and then throws inside the rebuild, so the tree and the root
    of the one-record whitelist stay. *)
Definition badBackup : WhitelistData :=
  mkData (Some [("0xaaaaaaaaaaaaaaaaaaaaaaaaaaaaaaaaaaaaaaaa", JString "7");
                ("0xbbbbbbbbbbbbbbbbbbbbbbbbbbbbbbbbbbbbbbbb", JString "abc")])
         None "2024-01-01T00:00:00.000Z".

Definition afterBadImport : MerkleManager :=
  run [CallAdd alice (JString "5"); CallImport badBackup].

(** A backup with an amount of zero. *)
Definition zeroBackup : WhitelistData :=
  mkData (Some [("0xaaaaaaaaaaaaaaaaaaaaaaaaaaaaaaaaaaaaaaaa", JString "0")])
         None "2024-01-01T00:00:00.000Z".

End Sample.

(* ================================================================== *)
(** * Properties *)

(** ** The Map model *)

Lemma Map_remove_absent (k : string) (m : Map) :
  Map_has k m = false -> Map_remove k m = m.
Proof.
  induction m as [|[k' v'] m IH]; simpl; [reflexivity|].
  destruct (k' =? k)%string; simpl; [discriminate|].
  intros H. now rewrite IH.
Qed.

Lemma Map_set_not_empty (k : string) (v : jsval) (m : Map) : Map_set k v m <> [].
Proof. destruct m as [|[k' v'] m]; simpl; [|destruct (k' =? k)%string]; discriminate. Qed.

Lemma Map_keys_set (k : string) (v : jsval) (m : Map) :
  Map_keys (Map_set k v m) = if Map_has k m then Map_keys m else Map_keys m ++ [k].
Proof.
  induction m as [|[k' v'] m IH]; simpl; [reflexivity|].
  destruct (String.eqb_spec k' k) as [->|Hne]; simpl; [reflexivity|].
  unfold Map_keys in *. rewrite IH. now destruct (Map_has k m).
Qed.

Lemma Map_keys_remove_incl (k : string) (m : Map) :
  incl (Map_keys (Map_remove k m)) (Map_keys m).
Proof.
  induction m as [|[k' v'] m IH]; simpl; [apply incl_refl|].
  destruct (k' =? k)%string; simpl.
  - apply incl_tl, incl_refl.
  - apply incl_cons; [now left|]. now apply incl_tl.
Qed.

Lemma Map_has_In (k : string) (m : Map) : Map_has k m = true <-> In k (Map_keys m).
Proof.
  induction m as [|[k' v'] m IH]; simpl; [split; [discriminate|tauto]|].
  rewrite orb_true_iff, IH, String.eqb_eq. tauto.
Qed.

Lemma Map_has_not_In (k : string) (m : Map) : ~ In k (Map_keys m) -> Map_has k m = false.
Proof.
  intros H. destruct (Map_has k m) eqn:E; [|reflexivity].
  now apply Map_has_In in E.
Qed.

Lemma Map_set_fresh (k : string) (v : jsval) (m : Map) :
  Map_has k m = false -> Map_set k v m = m ++ [(k, v)].
Proof.
  induction m as [|[k' v'] m IH]; simpl; [reflexivity|].
  destruct (k' =? k)%string; simpl; [discriminate|].
  intros H. now rewrite IH.
Qed.

Lemma Object_define_fresh (k : string) (v : jsval) (o : Object) :
  arrayIndex k = None -> Map_has k o = false -> Object_define k v o = o ++ [(k, v)].
Proof.
  intros Hk. induction o as [|[k' v'] o IH]; simpl; [reflexivity|].
  destruct (k' =? k)%string; simpl; [discriminate|].
  unfold keyBefore. rewrite Hk. intros H. now rewrite IH.
Qed.

(** An object whose keys are not array indices lists its properties in
    creation order: [Object.fromEntries] then keeps the order of a [Map]. *)
Lemma Object_fromEntries_same (es : list (string * jsval)) :
  NoDup (Map_keys es) ->
  Forall (fun k => arrayIndex k = None) (Map_keys es) ->
  Object_fromEntries es = es.
Proof.
  unfold Object_fromEntries.
  assert (G : forall o, NoDup (Map_keys (o ++ es)) ->
                        Forall (fun k => arrayIndex k = None) (Map_keys es) ->
                        fold_left (fun o kv => Object_define (fst kv) (snd kv) o) es o
                          = o ++ es).
  { induction es as [|[k v] es IH]; intros o Hnd Hidx; simpl.
    - now rewrite app_nil_r.
    - inversion Hidx as [|? ? Hk Hrest]; subst.
      rewrite Object_define_fresh; [| exact Hk |].
      + rewrite IH; [now rewrite <- app_assoc | | exact Hrest].
        now rewrite <- app_assoc.
      + apply Map_has_not_In. unfold Map_keys in *. rewrite map_app in Hnd.
        simpl in Hnd. apply NoDup_remove_2 in Hnd. intros Hin. apply Hnd.
        apply in_or_app. now left. }
  intros Hnd Hidx. now apply (G []).
Qed.

(** ** Hexadecimal text and buffers *)

Lemma to_N_byteOfN (n : N) : Byte.to_N (byteOfN n) = (n mod 256)%N.
Proof.
  unfold byteOfN. destruct (Byte.of_N (n mod 256)) as [b|] eqn:E.
  - now apply Byte.to_of_N in E.
  - apply Byte.of_N_None_iff in E.
    pose proof (N.mod_upper_bound n 256). lia.
Qed.

Lemma lowerChar_hex (c : ascii) :
  isHexDigit c = true -> isLowerHexDigit (lowerChar c) = true.
Proof. destruct c as [[] [] [] [] [] [] [] []]; vm_compute; congruence. Qed.

Lemma lowerChar_lower (c : ascii) : lowerChar (lowerChar c) = lowerChar c.
Proof. destruct c as [[] [] [] [] [] [] [] []]; reflexivity. Qed.

Lemma lowerHexDigit_value (c : ascii) :
  isLowerHexDigit c = true ->
  exists h, hexValue c = Some h /\ (h < 16)%N /\ hexChar h = c.
Proof.
  assert (G : (if isLowerHexDigit c
               then match hexValue c with
                    | Some h => (h <? 16)%N && Ascii.eqb (hexChar h) c
                    | None => false
                    end
               else true) = true).
  { destruct c as [[] [] [] [] [] [] [] []]; vm_compute; reflexivity. }
  intros H. rewrite H in G. destruct (hexValue c) as [h|]; [|discriminate].
  apply andb_true_iff in G. destruct G as [Hlt Heq].
  exists h. split; [reflexivity|]. split; [now apply N.ltb_lt | now apply Ascii.eqb_eq].
Qed.

Lemma toLowerCase_idempotent (s : string) : toLowerCase (toLowerCase s) = toLowerCase s.
Proof. induction s as [|c s IH]; simpl; [reflexivity|]. now rewrite lowerChar_lower, IH. Qed.

Lemma toLowerCase_length (s : string) : String.length (toLowerCase s) = String.length s.
Proof. induction s as [|c s IH]; simpl; congruence. Qed.

Lemma toLowerCase_hex (s : string) :
  forallb_string isHexDigit s = true ->
  forallb_string isLowerHexDigit (toLowerCase s) = true.
Proof.
  induction s as [|c s IH]; simpl; [reflexivity|].
  rewrite !andb_true_iff. intros [Hc Hs]. split; [now apply lowerChar_hex | now apply IH].
Qed.

(** Decoding lowercase hexadecimal text of even length and encoding the
    bytes again gives the text back, one byte for two digits. *)
Lemma hex_round_trip (s : string) :
  forallb_string isLowerHexDigit s = true ->
  Nat.even (String.length s) = true ->
  hexOfBytes (bytesOfHex s) = s /\ (2 * List.length (bytesOfHex s) = String.length s)%nat.
Proof.
  assert (G : forall s,
             (forallb_string isLowerHexDigit s = true ->
              Nat.even (String.length s) = true ->
              hexOfBytes (bytesOfHex s) = s
              /\ (2 * List.length (bytesOfHex s) = String.length s)%nat) /\
             (forall c, forallb_string isLowerHexDigit (String c s) = true ->
              Nat.even (String.length (String c s)) = true ->
              hexOfBytes (bytesOfHex (String c s)) = String c s
              /\ (2 * List.length (bytesOfHex (String c s))
                  = String.length (String c s))%nat)).
  { induction s0 as [|c2 s0 [IH1 IH2]].
    - split; [now split|]. intros c _ H. discriminate H.
    - split; [apply IH2|].
      intros c1 Hhex Hlen.
      simpl in Hhex. rewrite !andb_true_iff in Hhex. destruct Hhex as (H1 & H2 & Hs).
      destruct (lowerHexDigit_value c1 H1) as (h & Eh & Bh & Ch).
      destruct (lowerHexDigit_value c2 H2) as (l & El & Bl & Cl).
      assert (Hev : Nat.even (String.length s0) = true) by exact Hlen.
      destruct (IH1 Hs Hev) as [R L].
      change (bytesOfHex (String c1 (String c2 s0)))
        with (match hexValue c1, hexValue c2 with
              | Some h, Some l => byteOfN (16 * h + l) :: bytesOfHex s0
              | _, _ => []
              end).
      rewrite Eh, El.
      change (hexOfBytes (byteOfN (16 * h + l) :: bytesOfHex s0))
        with (String (hexChar (Byte.to_N (byteOfN (16 * h + l)) / 16))
                (String (hexChar (Byte.to_N (byteOfN (16 * h + l)) mod 16))
                        (hexOfBytes (bytesOfHex s0)))).
      rewrite to_N_byteOfN.
      assert (E256 : ((16 * h + l) mod 256 = 16 * h + l)%N) by (apply N.mod_small; lia).
      assert (Ed : ((16 * h + l) / 16 = h)%N)
        by (symmetry; apply (N.div_unique _ 16 h l); lia).
      assert (Em : ((16 * h + l) mod 16 = l)%N)
        by (symmetry; apply (N.mod_unique _ 16 h l); lia).
      rewrite E256, Ed, Em, Ch, Cl, R. split; [reflexivity|].
      cbn [List.length String.length]. lia. }
  intros. now apply G.
Qed.

Lemma manager_eta (this : MerkleManager) :
  mkManager (whitelistedUsers this) (merkleTree this) (merkleRoot this) (rebuilds this) = this.
Proof. now destruct this. Qed.

(** ** Buffers and sorted pairs *)

Lemma to_N_inj (x y : byte) : Byte.to_N x = Byte.to_N y -> x = y.
Proof.
  intros H. apply (f_equal Byte.of_N) in H.
  rewrite !Byte.of_to_N in H. now injection H.
Qed.

Lemma Buffer_compare_eq (a b : bytes) : Buffer_compare a b = Eq -> a = b.
Proof.
  revert b. induction a as [|x a IH]; intros [|y b]; simpl; try discriminate; auto.
  destruct (N.compare_spec (Byte.to_N x) (Byte.to_N y)) as [E| |]; try discriminate.
  intros H. f_equal; [now apply to_N_inj | now apply IH].
Qed.

Lemma Buffer_compare_refl (a : bytes) : Buffer_compare a a = Eq.
Proof. induction a as [|x a IH]; simpl; [reflexivity|]. now rewrite N.compare_refl. Qed.

Lemma Buffer_compare_antisym (a b : bytes) :
  Buffer_compare b a = CompOpp (Buffer_compare a b).
Proof.
  revert b. induction a as [|x a IH]; intros [|y b]; simpl; try reflexivity.
  rewrite (N.compare_antisym (Byte.to_N x) (Byte.to_N y)).
  destruct (Byte.to_N x ?= Byte.to_N y)%N; simpl; auto.
Qed.

Lemma sortPair_comm (l r : bytes) : MerkleTree.sortPair l r = MerkleTree.sortPair r l.
Proof.
  unfold MerkleTree.sortPair. rewrite (Buffer_compare_antisym l r).
  destruct (Buffer_compare l r) eqn:E; simpl; try reflexivity.
  apply Buffer_compare_eq in E. now subst.
Qed.

Lemma hashPair_comm (hashFn : bytes -> bytes) (l r : bytes) :
  MerkleTree.hashPair hashFn l r = MerkleTree.hashPair hashFn r l.
Proof. unfold MerkleTree.hashPair. now rewrite sortPair_comm. Qed.

(** The pair is sorted: it holds the two children, the smaller first. *)
Lemma sortPair_sorted (l r : bytes) :
  exists lo hi, MerkleTree.sortPair l r = [lo; hi] /\
                Buffer_compare lo hi <> Gt /\
                ((lo = l /\ hi = r) \/ (lo = r /\ hi = l)).
Proof.
  unfold MerkleTree.sortPair. destruct (Buffer_compare l r) eqn:E.
  - exists l, r. rewrite E. repeat split; auto; discriminate.
  - exists l, r. rewrite E. repeat split; auto; discriminate.
  - exists r, l. rewrite (Buffer_compare_antisym l r), E. repeat split; auto; discriminate.
Qed.

(** ** The layers of a tree *)

Section Layers.

Variable hashFn : bytes -> bytes.

Lemma nextLayer_pair (nodes : list bytes) (j : nat) (l r : bytes) :
  nth_error nodes (2 * j) = Some l ->
  nth_error nodes (2 * j + 1) = Some r ->
  nth_error (MerkleTree.nextLayer hashFn nodes) j = Some (MerkleTree.hashPair hashFn l r).
Proof.
  revert nodes. induction j as [|j IH]; intros nodes Hl Hr.
  - destruct nodes as [|x [|y rest]]; simpl in *; try discriminate.
    now injection Hl as <-; injection Hr as <-.
  - replace (2 * S j)%nat with (S (S (2 * j))) in * by lia.
    destruct nodes as [|x [|y rest]]; simpl in *; try discriminate;
      try (now apply IH); now destruct (2 * j)%nat.
Qed.

Lemma nextLayer_odd (nodes : list bytes) (j : nat) (l : bytes) :
  nth_error nodes (2 * j) = Some l ->
  nth_error nodes (2 * j + 1) = None ->
  nth_error (MerkleTree.nextLayer hashFn nodes) j = Some l.
Proof.
  revert nodes. induction j as [|j IH]; intros nodes Hl Hr.
  - destruct nodes as [|x [|y rest]]; simpl in *; try discriminate. assumption.
  - replace (2 * S j)%nat with (S (S (2 * j))) in * by lia.
    destruct nodes as [|x [|y rest]]; simpl in *; try discriminate;
      try (now apply IH); now destruct (2 * j)%nat.
Qed.

Lemma nextLayer_length (nodes : list bytes) :
  List.length (MerkleTree.nextLayer hashFn nodes) = Nat.div2 (S (List.length nodes)).
Proof.
  assert (G : forall nodes,
             List.length (MerkleTree.nextLayer hashFn nodes)
               = Nat.div2 (S (List.length nodes)) /\
             forall x, List.length (MerkleTree.nextLayer hashFn (x :: nodes))
                       = Nat.div2 (S (List.length (x :: nodes)))).
  { induction nodes0 as [|y rest [IH1 IH2]]; [now split|].
    split; [apply IH2|]. intros x. simpl. now rewrite IH1. }
  apply G.
Qed.

(** Each layer above the leaves is one pass over the layer below it. *)
Lemma createHashes_adjacent (fuel : nat) (nodes : list bytes) (i : nat)
      (lower upper : list bytes) :
  nth_error (nodes :: MerkleTree.createHashes hashFn fuel nodes) i = Some lower ->
  nth_error (nodes :: MerkleTree.createHashes hashFn fuel nodes) (S i) = Some upper ->
  upper = MerkleTree.nextLayer hashFn lower.
Proof.
  revert nodes i. induction fuel as [|fuel IH]; intros nodes i Hl Hu; simpl in *.
  - now destruct i.
  - destruct (List.length nodes <=? 1)%nat; [now destruct i|].
    destruct i as [|i]; simpl in *.
    + injection Hl as <-. now injection Hu as <-.
    + eapply IH; eassumption.
Qed.

(** The loop of [_createHashes] ends within the fuel it is given: the
    last layer holds one node, the root. *)
Lemma createHashes_top (fuel : nat) (nodes : list bytes) :
  nodes <> [] -> (List.length nodes <= fuel)%nat ->
  exists root, last (nodes :: MerkleTree.createHashes hashFn fuel nodes) [] = [root].
Proof.
  revert nodes. induction fuel as [|fuel IH]; intros nodes Hne Hlen.
  - destruct nodes; [contradiction|simpl in Hlen; lia].
  - simpl MerkleTree.createHashes.
    destruct (Nat.leb_spec (List.length nodes) 1) as [Hle|Hgt].
    + destruct nodes as [|x [|y rest]]; [contradiction| |simpl in Hle; lia].
      now exists x.
    + pose proof (nextLayer_length nodes) as Hn.
      assert (Hhalf : (1 <= Nat.div2 (S (List.length nodes)) <= fuel)%nat).
      { pose proof (Nat.div2_odd (S (List.length nodes))) as Hd.
        destruct (Nat.odd (S (List.length nodes))); simpl Nat.b2n in Hd; lia. }
      destruct (IH (MerkleTree.nextLayer hashFn nodes)) as [root Hroot].
      * intros C. rewrite C in Hn. cbn [List.length] in Hn. lia.
      * lia.
      * exists root. exact Hroot.
Qed.

End Layers.

Lemma mapC_nth {A B} (f : A -> completion B) (xs : list A) (ys : list B) (i : nat) (x : A) :
  mapC f xs = Return ys -> nth_error xs i = Some x ->
  exists y, f x = Return y /\ nth_error ys i = Some y.
Proof.
  revert ys i. induction xs as [|x0 xs IH]; intros ys i Hm Hx.
  - now destruct i.
  - simpl in Hm. destruct (f x0) as [y0|] eqn:E0; [|discriminate].
    destruct (mapC f xs) as [ys'|]; [|discriminate]. injection Hm as <-.
    destruct i as [|i]; simpl in *.
    + injection Hx as <-. now exists y0.
    + now apply (IH ys' i).
Qed.

Lemma Map_get_nth (k : string) (m : Map) :
  truthy (Map_get k m) = true -> exists i, nth_error m i = Some (k, Map_get k m).
Proof.
  induction m as [|[k' v'] m IH]; simpl; [discriminate|].
  destruct (String.eqb_spec k' k) as [->|Hne]; intros H.
  - now exists 0%nat.
  - destruct (IH H) as [i Hi]. now exists (S i).
Qed.

Section Properties.

Context {lib : Libraries}.

Ltac run :=
  unfold bind, get, ret, throw, lift, set_whitelistedUsers, set_merkleTree,
    set_merkleRoot, count_rebuild; simpl.

(** *** What a rebuild assigns *)

Lemma generateMerkleTree_empty (this : MerkleManager) :
  whitelistedUsers this = [] ->
  generateMerkleTree this =
    (Return tt, mkManager [] None (Some ZERO_ROOT) (S (rebuilds this))).
Proof. intros H. unfold generateMerkleTree. run. now rewrite H. Qed.

Lemma generateMerkleTree_nonempty (this : MerkleManager) :
  whitelistedUsers this <> [] ->
  generateMerkleTree this =
    match mapC leafOf (whitelistedUsers this) with
    | Throw e =>
        (Throw e, mkManager (whitelistedUsers this) (merkleTree this) (merkleRoot this)
                            (S (rebuilds this)))
    | Return lvs =>
        let tree := MerkleTree.new keccak256 lvs in
        (Return tt, mkManager (whitelistedUsers this) (Some tree)
                              (Some (MerkleTree.getHexRoot tree)) (S (rebuilds this)))
    end.
Proof.
  intros H. unfold generateMerkleTree. run.
  destruct (whitelistedUsers this) as [|e w] eqn:Hw; [contradiction|]. simpl.
  unfold Map_entries. now destruct (mapC leafOf (e :: w)).
Qed.

Lemma generateMerkleTree_whitelist (this : MerkleManager) :
  whitelistedUsers (snd (generateMerkleTree this)) = whitelistedUsers this.
Proof.
  destruct (whitelistedUsers this) as [|e w] eqn:Hw.
  - now rewrite generateMerkleTree_empty.
  - rewrite generateMerkleTree_nonempty by (rewrite Hw; discriminate).
    rewrite Hw. now destruct (mapC leafOf (e :: w)).
Qed.

Lemma generateMerkleTree_rebuilds (this : MerkleManager) :
  rebuilds (snd (generateMerkleTree this)) = S (rebuilds this).
Proof.
  destruct (whitelistedUsers this) as [|e w] eqn:Hw.
  - now rewrite generateMerkleTree_empty.
  - rewrite generateMerkleTree_nonempty by (rewrite Hw; discriminate).
    now destruct (mapC leafOf (whitelistedUsers this)).
Qed.

(** ** C8: removing an address that is not a member *)

Lemma removeFromWhitelist_absent (this : MerkleManager) (userAddress : string) :
  isAddress userAddress = true ->
  Map_has (toLowerCase userAddress) (whitelistedUsers this) = false ->
  removeFromWhitelist userAddress this = (Return (NotRemoved userAddress), this).
Proof.
  intros Hvalid Habsent. unfold removeFromWhitelist, Map_delete.
  rewrite Hvalid. run. rewrite Habsent. run.
  rewrite (Map_remove_absent _ _ Habsent). now rewrite manager_eta.
Qed.

(** C8 (as amended). For every syntactically valid address that is not
    currently a member, [removeFromWhitelist] returns the object
    [{ user, removed: false }], which carries no [merkleRoot], and leaves
    the manager exactly as it was: same whitelist, same tree, same root,
    and no rebuild. *)
Theorem remove_non_member_is_noop (this : MerkleManager) (userAddress : string) :
  isAddress userAddress = true ->
  Map_has (toLowerCase userAddress) (whitelistedUsers this) = false ->
  exists r,
    removeFromWhitelist userAddress this = (Return r, this) /\
    r = NotRemoved userAddress /\ removed r = false /\ remove_merkleRoot r = None.
Proof.
  intros Hvalid Habsent. exists (NotRemoved userAddress).
  rewrite removeFromWhitelist_absent by assumption. auto.
Qed.

(** ** C7: rejected insertions *)

(** C7 (as amended). [addToWhitelist] throws 'Invalid address format' for
    every address [isAddress] rejects, and 'Invalid amount' for every
    absent or empty amount and for the amount '0'; in each of these
    failures the whitelist, the tree and the root (and the rebuild count)
    are left as they were. *)
Theorem add_rejects_without_mutation
    (this : MerkleManager) (userAddress : string) (amount : jsval) :
  (isAddress userAddress = false ->
   addToWhitelist userAddress amount this
     = (Throw (Error "Invalid address format"), this)) /\
  (isAddress userAddress = true ->
   truthy amount = false \/ amount = JString "0" ->
   addToWhitelist userAddress amount this = (Throw (Error "Invalid amount"), this)).
Proof.
  split.
  - intros H. unfold addToWhitelist. now rewrite H.
  - intros H [Hfalsy | ->]; unfold addToWhitelist; rewrite H; simpl.
    + now rewrite Hfalsy.
    + reflexivity.
Qed.

(** *** The whitelist after each mutating call, thrown or not *)

Lemma add_whitelist (this : MerkleManager) (a : string) (v : jsval) :
  whitelistedUsers (snd (addToWhitelist a v this)) =
    if isAddress a && truthy v && negb (strictEqStr v "0")
    then Map_set (toLowerCase a) v (whitelistedUsers this)
    else whitelistedUsers this.
Proof.
  unfold addToWhitelist.
  destruct (isAddress a); simpl; [|reflexivity].
  destruct (truthy v); simpl; [|reflexivity].
  destruct (strictEqStr v "0"); simpl; [reflexivity|].
  run. destruct (formatEther v); simpl; [|reflexivity].
  match goal with |- context [generateMerkleTree ?s] =>
    pose proof (generateMerkleTree_whitelist s) as Hw;
    destruct (generateMerkleTree s) as [[[]|e] s'] end; simpl in *; exact Hw.
Qed.

Lemma remove_whitelist (this : MerkleManager) (a : string) :
  whitelistedUsers (snd (removeFromWhitelist a this)) =
    if isAddress a then Map_remove (toLowerCase a) (whitelistedUsers this)
    else whitelistedUsers this.
Proof.
  unfold removeFromWhitelist, Map_delete.
  destruct (isAddress a); simpl; [|reflexivity].
  run. destruct (Map_has (toLowerCase a) (whitelistedUsers this)); simpl; [|reflexivity].
  match goal with |- context [generateMerkleTree ?s] =>
    pose proof (generateMerkleTree_whitelist s) as Hw;
    destruct (generateMerkleTree s) as [[[]|e] s'] end; simpl in *; exact Hw.
Qed.

Lemma batchLoop_eq (us : list User) (n : nat) (this : MerkleManager) :
  batchLoop us n this =
    (Return (n + List.length (filter passesValidation us))%nat,
     mkManager (writeAll (filter passesValidation us) (whitelistedUsers this))
               (merkleTree this) (merkleRoot this) (rebuilds this)).
Proof.
  revert n this. induction us as [|u us IH]; intros n this; simpl.
  - unfold ret. now rewrite Nat.add_0_r, manager_eta.
  - unfold bind, batchStep, passesValidation.
    destruct (isAddress (address u) && truthy (amount u)
              && negb (strictEqStr (amount u) "0")); run; rewrite IH; simpl.
    + now rewrite Nat.add_succ_r.
    + reflexivity.
Qed.

Lemma batch_whitelist (us : list User) (this : MerkleManager) :
  whitelistedUsers (snd (batchAddToWhitelist us this)) =
    writeAll (filter passesValidation us) (whitelistedUsers this).
Proof.
  unfold batchAddToWhitelist, bind at 1. rewrite batchLoop_eq. simpl.
  destruct (filter passesValidation us) as [|u l]; simpl; run; [reflexivity|].
  match goal with |- context [generateMerkleTree ?s] =>
    pose proof (generateMerkleTree_whitelist s) as Hw;
    destruct (generateMerkleTree s) as [[[]|e] s'] end; simpl in *; exact Hw.
Qed.

Lemma forEach_importStep (es : list (string * jsval)) (this : MerkleManager) :
  forEach importStep es this =
    (Return tt, mkManager (imported es (whitelistedUsers this))
                          (merkleTree this) (merkleRoot this) (rebuilds this)).
Proof.
  revert this. induction es as [|e es IH]; intros this; simpl.
  - unfold ret. now rewrite manager_eta.
  - unfold bind, importStep. destruct (isAddress (fst e)); run; now rewrite IH.
Qed.

Lemma import_whitelist (d : WhitelistData) (this : MerkleManager) :
  whitelistedUsers (snd (importWhitelist d this)) =
    match users d with
    | Some us => imported us []
    | None => whitelistedUsers this
    end.
Proof.
  unfold importWhitelist. destruct (users d) as [us|]; [|reflexivity].
  unfold bind at 1. simpl. unfold bind at 1. rewrite forEach_importStep. simpl.
  unfold bind, getStats, get, ret.
  match goal with |- context [generateMerkleTree ?s] =>
    pose proof (generateMerkleTree_whitelist s) as Hw;
    destruct (generateMerkleTree s) as [[[]|e] s'] end; simpl in *; exact Hw.
Qed.

Lemma getMerkleProof_state (a : string) (this : MerkleManager) :
  snd (getMerkleProof a this) = this.
Proof.
  unfold getMerkleProof. destruct (isAddress a); simpl; [|reflexivity].
  run. destruct (truthy _); simpl; [|reflexivity].
  destruct (merkleTree this); [|reflexivity].
  unfold leafOf. simpl. destruct (solidityPack _ _); simpl; [|reflexivity].
  now destruct (merkleRoot this).
Qed.

Lemma isWhitelisted_state (a : string) (this : MerkleManager) :
  snd (isWhitelisted a this) = this.
Proof. unfold isWhitelisted. now destruct (isAddress a). Qed.

Lemma getUserAmount_state (a : string) (this : MerkleManager) :
  snd (getUserAmount a this) = this.
Proof. unfold getUserAmount. now destruct (isAddress a). Qed.

Lemma add_rejected_state (this : MerkleManager) (a : string) (v : jsval) :
  isAddress a && truthy v && negb (strictEqStr v "0") = false ->
  snd (addToWhitelist a v this) = this.
Proof.
  unfold addToWhitelist.
  destruct (isAddress a); simpl; [|reflexivity].
  destruct (truthy v); simpl; [|reflexivity].
  destruct (strictEqStr v "0"); simpl; [reflexivity|discriminate].
Qed.

Lemma writeAll_not_empty (us : list User) (w : Map) :
  us <> [] \/ w <> [] -> writeAll us w <> [].
Proof.
  revert w. induction us as [|u us IH]; intros w [H|H]; simpl;
    try contradiction; try assumption.
  - apply IH. right. apply Map_set_not_empty.
  - apply IH. right. apply Map_set_not_empty.
Qed.

(** [batchAddToWhitelist], unfolded: the loop writes the records that pass
    validation, then the rebuild runs once if anything was written. *)
Lemma batchAddToWhitelist_eq (us : list User) (this : MerkleManager) :
  let written := filter passesValidation us in
  let this1 := mkManager (writeAll written (whitelistedUsers this))
                         (merkleTree this) (merkleRoot this) (rebuilds this) in
  batchAddToWhitelist us this =
    match written with
    | [] => (Return (mkBatch 0 (Map_size (whitelistedUsers this)) (merkleRoot this)), this)
    | _ :: _ =>
        match generateMerkleTree this1 with
        | (Return _, this2) =>
            (Return (mkBatch (List.length written) (Map_size (whitelistedUsers this2))
                             (merkleRoot this2)), this2)
        | (Throw e, this2) => (Throw e, this2)
        end
    end.
Proof.
  intros written this1. unfold batchAddToWhitelist, bind at 1.
  rewrite batchLoop_eq. fold written. fold this1. simpl.
  destruct written as [|u l] eqn:Hw; simpl.
  - run. subst this1. simpl. now rewrite manager_eta.
  - unfold bind. destruct (generateMerkleTree this1) as [[[]|e] this2]; reflexivity.
Qed.

(** ** Validated, lowercased keys *)

Lemma canonical_set (k : string) (v : jsval) (m : Map) :
  canonicalKey k -> Forall canonicalKey (Map_keys m) ->
  Forall canonicalKey (Map_keys (Map_set k v m)).
Proof.
  intros Hk Hm. rewrite Map_keys_set. destruct (Map_has k m); [assumption|].
  apply Forall_app. split; [assumption|]. now constructor.
Qed.

Lemma canonical_remove (k : string) (m : Map) :
  Forall canonicalKey (Map_keys m) -> Forall canonicalKey (Map_keys (Map_remove k m)).
Proof.
  intros Hm. rewrite Forall_forall in *. intros x Hx.
  apply Hm. now apply (Map_keys_remove_incl k m).
Qed.

Lemma canonical_writeAll (us : list User) (w : Map) :
  Forall canonicalKey (Map_keys w) ->
  Forall canonicalKey (Map_keys (writeAll (filter passesValidation us) w)).
Proof.
  revert w. induction us as [|u us IH]; intros w Hw; simpl; [assumption|].
  destruct (passesValidation u) eqn:Hu; simpl; [|now apply IH].
  apply IH, canonical_set; [|assumption].
  exists (address u). split; [|reflexivity].
  unfold passesValidation in Hu. now destruct (isAddress (address u)).
Qed.

Lemma canonical_imported (es : list (string * jsval)) (w : Map) :
  Forall canonicalKey (Map_keys w) -> Forall canonicalKey (Map_keys (imported es w)).
Proof.
  revert w. induction es as [|e es IH]; intros w Hw; simpl; [assumption|].
  destruct (isAddress (fst e)) eqn:He; [|now apply IH].
  apply IH, canonical_set; [|assumption]. now exists (fst e).
Qed.

Lemma step_canonicalKeys (this : MerkleManager) (c : Call) :
  canonicalKeys this -> canonicalKeys (step this c).
Proof.
  unfold canonicalKeys. intros H. destruct c; simpl.
  - rewrite add_whitelist.
    destruct (isAddress userAddress) eqn:Ha; simpl; [|assumption].
    destruct (truthy amount0 && negb (strictEqStr amount0 "0")); [|assumption].
    apply canonical_set; [now exists userAddress|assumption].
  - rewrite remove_whitelist. destruct (isAddress userAddress); [|assumption].
    now apply canonical_remove.
  - now rewrite generateMerkleTree_whitelist.
  - now rewrite getMerkleProof_state.
  - now rewrite isWhitelisted_state.
  - now rewrite getUserAmount_state.
  - assumption.
  - rewrite batch_whitelist. now apply canonical_writeAll.
  - assumption.
  - rewrite import_whitelist. destruct (users data); [|assumption].
    apply canonical_imported. constructor.
Qed.

Lemma execute_canonicalKeys (calls : list Call) : canonicalKeys (execute calls).
Proof.
  unfold execute.
  assert (G : forall this, canonicalKeys this -> canonicalKeys (fold_left step calls this)).
  { induction calls as [|c calls IH]; intros this H; simpl; [assumption|].
    now apply IH, step_canonicalKeys. }
  apply G. constructor.
Qed.

(** ** C9: the empty whitelist *)

Lemma remove_last_member (this : MerkleManager) (a : string) :
  isAddress a = true ->
  Map_has (toLowerCase a) (whitelistedUsers this) = true ->
  Map_remove (toLowerCase a) (whitelistedUsers this) = [] ->
  removeFromWhitelist a this =
    (Return (Removed a (Some ZERO_ROOT)),
     mkManager [] None (Some ZERO_ROOT) (S (rebuilds this))).
Proof.
  intros Ha Hhas Hrem. unfold removeFromWhitelist, Map_delete.
  rewrite Ha. run. rewrite Hhas, Hrem. run. reflexivity.
Qed.

Lemma generate_emptyMeansNoTree (this : MerkleManager) :
  emptyMeansNoTree (snd (generateMerkleTree this)).
Proof.
  intros Hw. rewrite generateMerkleTree_whitelist in Hw.
  rewrite generateMerkleTree_empty by assumption. simpl. auto.
Qed.

Lemma step_emptyMeansNoTree (this : MerkleManager) (c : Call) :
  emptyMeansNoTree this -> emptyMeansNoTree (step this c).
Proof.
  intros H. destruct c; simpl.
  - destruct (isAddress userAddress && truthy amount0
              && negb (strictEqStr amount0 "0")) eqn:Hg.
    + intros Hw. rewrite add_whitelist, Hg in Hw.
      now apply Map_set_not_empty in Hw.
    + now rewrite add_rejected_state.
  - destruct (isAddress userAddress) eqn:Ha.
    + destruct (Map_has (toLowerCase userAddress) (whitelistedUsers this)) eqn:Hh.
      * intros Hw. rewrite remove_whitelist, Ha in Hw.
        rewrite remove_last_member by assumption. simpl. auto.
      * now rewrite removeFromWhitelist_absent.
    + unfold removeFromWhitelist. now rewrite Ha.
  - apply generate_emptyMeansNoTree.
  - now rewrite getMerkleProof_state.
  - now rewrite isWhitelisted_state.
  - now rewrite getUserAmount_state.
  - assumption.
  - pose proof (batchAddToWhitelist_eq users0 this) as E. simpl in E.
    destruct (filter passesValidation users0) as [|u l] eqn:Hf.
    + now rewrite E.
    + intros Hw. rewrite batch_whitelist, Hf in Hw.
      apply writeAll_not_empty in Hw; [contradiction|left; discriminate].
  - assumption.
  - unfold importWhitelist. destruct (users data) as [us|]; [|assumption].
    unfold bind at 1. simpl. unfold bind at 1. rewrite forEach_importStep. simpl.
    unfold bind, getStats, get, ret.
    match goal with |- context [generateMerkleTree ?s] =>
      pose proof (generate_emptyMeansNoTree s) as Hg;
      destruct (generateMerkleTree s) as [[[]|e] s'] end; simpl in *; exact Hg.
Qed.

(** C9 (as amended). A fresh manager has no tree and its root is [null],
    not the zero sentinel.  After any sequence of calls, whenever the
    whitelist is empty there is no tree, and the root is the zero sentinel
    unless no rebuild has run yet (then it is still [null]).  A rebuild
    over an empty whitelist returns and sets the zero sentinel; in
    particular removing the last member returns the zero sentinel as root
    and leaves the manager with no tree and that root. *)
Theorem empty_whitelist_root :
  (merkleTree constructor = None /\ merkleRoot constructor = None) /\
  (forall calls, emptyMeansNoTree (execute calls)) /\
  (forall this, whitelistedUsers this = [] ->
     generateMerkleTree this
       = (Return tt, mkManager [] None (Some ZERO_ROOT) (S (rebuilds this)))) /\
  (forall this a,
     isAddress a = true ->
     Map_has (toLowerCase a) (whitelistedUsers this) = true ->
     Map_remove (toLowerCase a) (whitelistedUsers this) = [] ->
     removeFromWhitelist a this
       = (Return (Removed a (Some ZERO_ROOT)),
          mkManager [] None (Some ZERO_ROOT) (S (rebuilds this)))).
Proof.
  split; [now split|]. split; [|split].
  - intros calls. unfold execute.
    assert (G : forall this, emptyMeansNoTree this ->
                             emptyMeansNoTree (fold_left step calls this)).
    { induction calls as [|c calls IH]; intros this H; simpl; [assumption|].
      now apply IH, step_emptyMeansNoTree. }
    apply G. intros _. simpl. auto.
  - apply generateMerkleTree_empty.
  - apply remove_last_member.
Qed.

(** ** C6: batch insertion *)

(** C6 (as amended). For every input list, [batchAddToWhitelist] writes
    exactly the records that pass validation, in order, skipping the others
    without stopping; it runs one rebuild, after the whole batch, when at
    least one record was written, and none otherwise (it then returns with
    the manager unchanged); whenever it returns, [added] is the number of
    records that passed validation and were written, [total] is the size of
    the whitelist after the batch and [merkleRoot] the root after it.  It
    throws only when that one rebuild throws. *)
Theorem batch_add_counts (us : list User) (this : MerkleManager) :
  let written := filter passesValidation us in
  let out := batchAddToWhitelist us this in
  whitelistedUsers (snd out) = writeAll written (whitelistedUsers this) /\
  rebuilds (snd out) = (rebuilds this + if (0 <? List.length written)%nat then 1 else 0)%nat /\
  (forall r, fst out = Return r ->
     added r = List.length written /\
     total r = Map_size (whitelistedUsers (snd out)) /\
     batch_merkleRoot r = merkleRoot (snd out)) /\
  (written = [] -> exists r, out = (Return r, this)) /\
  (written <> [] ->
     snd out = snd (generateMerkleTree
                      (mkManager (writeAll written (whitelistedUsers this))
                                 (merkleTree this) (merkleRoot this) (rebuilds this))) /\
     forall e, fst out = Throw e ->
       fst (generateMerkleTree
              (mkManager (writeAll written (whitelistedUsers this))
                         (merkleTree this) (merkleRoot this) (rebuilds this))) = Throw e).
Proof.
  cbv zeta. split; [apply batch_whitelist|].
  pose proof (batchAddToWhitelist_eq us this) as E. cbv zeta in E. rewrite E. clear E.
  destruct (filter passesValidation us) as [|u l]; simpl.
  - split; [now rewrite Nat.add_0_r|]. split; [|split].
    + intros r [= <-]. now repeat split.
    + intros _. eexists. reflexivity.
    + now intros C.
  - match goal with |- context [generateMerkleTree ?s] =>
      pose proof (generateMerkleTree_rebuilds s) as Hr;
      destruct (generateMerkleTree s) as [[[]|e] this2] end;
      simpl in *; (split; [rewrite Hr; lia|]); (split; [|split]);
      try discriminate.
    + intros r [= <-]. now repeat split.
    + intros _. split; [reflexivity|discriminate].
    + intros _. split; [reflexivity|]. now intros e0 [= ->].
Qed.

(** ** C3: the self-check of [getMerkleProof] *)

Lemma getMerkleProof_returns (this : MerkleManager) (a : string) (r : ProofResult) :
  fst (getMerkleProof a this) = Return r ->
  let k := toLowerCase a in
  let amount := Map_get k (whitelistedUsers this) in
  exists tree root lf,
    isAddress a = true /\ truthy amount = true /\
    merkleTree this = Some tree /\ merkleRoot this = Some root /\
    leafOf (k, amount) = Return lf /\
    r = mkProof a amount (MerkleTree.getHexProof tree lf) (Some root)
                ("0x" ++ hexOfBytes lf)%string
                (MerkleTree.verify keccak256 (MerkleTree.getHexProof tree lf) lf root).
Proof.
  intros H k amount. unfold getMerkleProof in H.
  destruct (isAddress a); simpl in H; [|discriminate].
  unfold bind, get, throw, ret, lift in H. simpl in H. fold k in H. fold amount in H.
  destruct (truthy amount); simpl in H; [|discriminate].
  destruct (merkleTree this) as [tree|]; [|discriminate].
  destruct (leafOf (k, amount)) as [lf|e] eqn:Hl; simpl in H; [|discriminate].
  destruct (merkleRoot this) as [root|]; [|discriminate].
  injection H as <-. exists tree, root, lf. auto 10.
Qed.

(** A current manager that has a tree has the tree [new MerkleTree] builds
    from the leaves of its whitelist. *)
Lemma current_tree (this : MerkleManager) (tree : MerkleTree.t) :
  current this -> merkleTree this = Some tree ->
  exists lvs, mapC leafOf (whitelistedUsers this) = Return lvs /\
              lvs <> [] /\ tree = MerkleTree.new keccak256 lvs.
Proof.
  unfold current. intros Hcur Htree.
  destruct (whitelistedUsers this) as [|e w] eqn:Hw.
  - rewrite generateMerkleTree_empty in Hcur by assumption.
    injection Hcur as Hnone _. congruence.
  - rewrite generateMerkleTree_nonempty in Hcur by congruence.
    rewrite Hw in Hcur. destruct (mapC leafOf (e :: w)) as [lvs|] eqn:Hm; [|discriminate].
    exists lvs. split; [reflexivity|]. split.
    + simpl in Hm. destruct (leafOf e); [|discriminate].
      destruct (mapC leafOf w); [|discriminate]. injection Hm as <-. discriminate.
    + simpl in Hcur. injection Hcur as Ht _. congruence.
Qed.

(** C3 (as amended). [getMerkleProof] verifies the proof it has just built
    against the current root before returning, and reports the outcome in
    the field [isValid] of the object it returns: a failed verification
    does not make it throw.  It is read-only.  It throws only for an
    address [isAddress] rejects, for an address whose stored amount is
    absent or falsy, when there is no tree, or when computing the leaf
    throws (or the root is [null] beside a tree). *)
Theorem proof_reports_self_check (this : MerkleManager) (a : string) :
  let k := toLowerCase a in
  let amount := Map_get k (whitelistedUsers this) in
  snd (getMerkleProof a this) = this /\
  (forall r, fst (getMerkleProof a this) = Return r ->
     exists tree root lf,
       merkleTree this = Some tree /\ merkleRoot this = Some root /\
       leafOf (k, amount) = Return lf /\
       proof r = MerkleTree.getHexProof tree lf /\
       proof_merkleRoot r = Some root /\
       isValid r = MerkleTree.verify keccak256 (proof r) lf root) /\
  (forall tree root lf,
     isAddress a = true -> truthy amount = true ->
     merkleTree this = Some tree -> merkleRoot this = Some root ->
     leafOf (k, amount) = Return lf ->
     exists r, fst (getMerkleProof a this) = Return r /\
               isValid r = MerkleTree.verify keccak256 (MerkleTree.getHexProof tree lf) lf root).
Proof.
  intros k amount. split; [apply getMerkleProof_state|]. split.
  - intros r. unfold getMerkleProof.
    destruct (isAddress a); simpl; [|discriminate].
    run. fold k. fold amount.
    destruct (truthy amount); simpl; [|discriminate].
    destruct (merkleTree this) as [tree|]; [|discriminate].
    destruct (leafOf (k, amount)) as [lf|e] eqn:Hl; simpl; [|discriminate].
    destruct (merkleRoot this) as [root|]; [|discriminate].
    intros [= <-]. exists tree, root, lf. simpl. auto 10.
  - intros tree root lf Ha Ht Htree Hroot Hl. unfold getMerkleProof.
    rewrite Ha. run. fold k. fold amount. rewrite Ht, Htree. simpl.
    rewrite Hl. simpl. rewrite Hroot. eexists. split; reflexivity.
Qed.

(** The tree a rebuild stores has one leaf per record, in order. *)
Lemma rebuilt_leaves (this this' : MerkleManager) (tree : MerkleTree.t) :
  generateMerkleTree this = (Return tt, this') ->
  merkleTree this' = Some tree ->
  mapC leafOf (whitelistedUsers this) = Return (MerkleTree.leaves tree).
Proof.
  intros Hg Ht. destruct (whitelistedUsers this) as [|e w] eqn:Hw.
  - rewrite generateMerkleTree_empty in Hg by assumption.
    injection Hg as <-. discriminate Ht.
  - rewrite generateMerkleTree_nonempty in Hg by congruence. rewrite Hw in Hg.
    destruct (mapC leafOf (e :: w)) as [lvs|]; [|discriminate].
    simpl in Hg. injection Hg as <-. simpl in Ht. now injection Ht as <-.
Qed.

(** *** The shape of a step *)

(** Every call either changes the whitelist alone, or changes the whitelist
    and then runs one rebuild. *)
Lemma step_shape (this : MerkleManager) (c : Call) :
  exists w,
    step this c = mkManager w (merkleTree this) (merkleRoot this) (rebuilds this) \/
    step this c = snd (generateMerkleTree
                         (mkManager w (merkleTree this) (merkleRoot this) (rebuilds this))).
Proof.
  assert (Hsame : exists w,
             this = mkManager w (merkleTree this) (merkleRoot this) (rebuilds this) \/
             this = snd (generateMerkleTree
                           (mkManager w (merkleTree this) (merkleRoot this) (rebuilds this)))).
  { exists (whitelistedUsers this). left. now rewrite manager_eta. }
  destruct c; simpl.
  - unfold addToWhitelist.
    destruct (isAddress userAddress); simpl; [|exact Hsame].
    destruct (truthy amount0); simpl; [|exact Hsame].
    destruct (strictEqStr amount0 "0"); simpl; [exact Hsame|].
    exists (Map_set (toLowerCase userAddress) amount0 (whitelistedUsers this)).
    run. destruct (formatEther amount0); simpl; [|now left].
    right. now destruct (generateMerkleTree _) as [[[]|e] s'].
  - unfold removeFromWhitelist, Map_delete.
    destruct (isAddress userAddress); simpl; [|exact Hsame].
    exists (Map_remove (toLowerCase userAddress) (whitelistedUsers this)).
    run. destruct (Map_has _ _); simpl; [|now left].
    right. now destruct (generateMerkleTree _) as [[[]|e] s'].
  - exists (whitelistedUsers this). right. now rewrite manager_eta.
  - rewrite getMerkleProof_state. exact Hsame.
  - rewrite isWhitelisted_state. exact Hsame.
  - rewrite getUserAmount_state. exact Hsame.
  - exact Hsame.
  - pose proof (batchAddToWhitelist_eq users0 this) as E. cbv zeta in E. rewrite E.
    destruct (filter passesValidation users0) as [|u l] eqn:Hf; [exact Hsame|].
    exists (writeAll (u :: l) (whitelistedUsers this)).
    right. now destruct (generateMerkleTree _) as [[[]|e] s'].
  - exact Hsame.
  - unfold importWhitelist. destruct (users data) as [us|]; [|exact Hsame].
    exists (imported us []). right.
    unfold bind at 1. simpl. unfold bind at 1. rewrite forEach_importStep. simpl.
    unfold Object_entries, getStats. unfold bind, get, ret.
    now destruct (generateMerkleTree _) as [[[]|e] s'].
Qed.

Lemma mapC_not_empty {A B} (f : A -> completion B) (xs : list A) (ys : list B) :
  mapC f xs = Return ys -> xs <> [] -> ys <> [].
Proof.
  destruct xs as [|x xs]; [contradiction|]. simpl.
  destruct (f x); [|discriminate]. destruct (mapC f xs); [|discriminate].
  intros [= <-] _. discriminate.
Qed.

Lemma generate_treeBuilt (this : MerkleManager) :
  treeBuilt this -> treeBuilt (snd (generateMerkleTree this)).
Proof.
  intros H. destruct (whitelistedUsers this) as [|e w] eqn:Hw.
  - rewrite generateMerkleTree_empty by assumption. intros tree. discriminate.
  - rewrite generateMerkleTree_nonempty by congruence.
    destruct (mapC leafOf (whitelistedUsers this)) as [lvs|err] eqn:Hm; simpl.
    + intros tree [= <-]. simpl. split; [reflexivity|]. split; [|reflexivity].
      apply (mapC_not_empty _ _ _ Hm). congruence.
    + exact H.
Qed.

Lemma execute_treeBuilt (calls : list Call) : treeBuilt (execute calls).
Proof.
  unfold execute.
  assert (G : forall this, treeBuilt this -> treeBuilt (fold_left step calls this)).
  { induction calls as [|c calls IH]; intros this H; simpl; [assumption|].
    apply IH. destruct (step_shape this c) as [w [-> | ->]].
    - exact H.
    - apply generate_treeBuilt. exact H. }
  apply G. intros tree. discriminate.
Qed.

(** ** C4: the amounts of stored records *)

Lemma Forall_Map_set (P : string * jsval -> Prop) (k : string) (v : jsval) (m : Map) :
  P (k, v) -> Forall P m -> Forall P (Map_set k v m).
Proof.
  intros Hk. induction m as [|[k' v'] m IH]; simpl; intros Hm.
  - now constructor.
  - inversion Hm; subst. destruct (k' =? k)%string; constructor; auto.
Qed.

Lemma Forall_Map_remove (P : string * jsval -> Prop) (k : string) (m : Map) :
  Forall P m -> Forall P (Map_remove k m).
Proof.
  induction m as [|[k' v'] m IH]; simpl; intros Hm; [assumption|].
  inversion Hm; subst. destruct (k' =? k)%string; [assumption|]. constructor; auto.
Qed.

Lemma guard_passes (v : jsval) :
  truthy v && negb (strictEqStr v "0") = true ->
  forall k, passesAmountGuard (k, v).
Proof.
  intros H k. apply andb_true_iff in H. destruct H as [Ht Hz].
  split; [exact Ht|]. simpl. intros ->. discriminate Hz.
Qed.

Lemma writeAll_guard (us : list User) (w : Map) :
  Forall passesAmountGuard w ->
  Forall passesAmountGuard (writeAll (filter passesValidation us) w).
Proof.
  revert w. induction us as [|u us IH]; intros w Hw; simpl; [assumption|].
  destruct (passesValidation u) eqn:Hu; simpl; [|now apply IH].
  apply IH, Forall_Map_set; [|assumption].
  apply guard_passes. unfold passesValidation in Hu.
  destruct (isAddress (address u)); [exact Hu|discriminate].
Qed.

Lemma step_guard (this : MerkleManager) (c : Call) :
  isImport c = false ->
  Forall passesAmountGuard (whitelistedUsers this) ->
  Forall passesAmountGuard (whitelistedUsers (step this c)).
Proof.
  intros Hc H. destruct c; simpl; try discriminate Hc.
  - rewrite add_whitelist.
    destruct (isAddress userAddress); simpl; [|assumption].
    destruct (truthy amount0 && negb (strictEqStr amount0 "0")) eqn:Hg; [|assumption].
    apply Forall_Map_set; [now apply guard_passes|assumption].
  - rewrite remove_whitelist. destruct (isAddress userAddress); [|assumption].
    now apply Forall_Map_remove.
  - now rewrite generateMerkleTree_whitelist.
  - now rewrite getMerkleProof_state.
  - now rewrite isWhitelisted_state.
  - now rewrite getUserAmount_state.
  - assumption.
  - rewrite batch_whitelist. now apply writeAll_guard.
  - assumption.
Qed.

(** C4 (as amended). After every sequence of calls other than
    [importWhitelist], every record present in the whitelist has an amount
    that passed the guard of [addToWhitelist] and [batchAddToWhitelist]: it
    is neither absent nor empty, and it is not the string '0'. *)
Theorem stored_amounts_pass_the_guard (calls : list Call) :
  existsb isImport calls = false ->
  Forall (fun entry => truthy (snd entry) = true /\ snd entry <> JString "0")
         (whitelistedUsers (execute calls)).
Proof.
  unfold execute.
  assert (G : forall this,
             existsb isImport calls = false ->
             Forall passesAmountGuard (whitelistedUsers this) ->
             Forall passesAmountGuard (whitelistedUsers (fold_left step calls this))).
  { induction calls as [|c calls IH]; intros this Hc H; simpl; [assumption|].
    simpl in Hc. apply orb_false_iff in Hc. destruct Hc as [Hc Hcs].
    apply IH; [assumption|]. now apply step_guard. }
  intros Hc. apply G; [assumption|constructor].
Qed.

(** ** C1: the root and the order of insertion *)

Lemma addToWhitelist_returns (this this' : MerkleManager) (a : string) (v : jsval)
      (r : AddResult) :
  addToWhitelist a v this = (Return r, this') ->
  exists lvs,
    let w := Map_set (toLowerCase a) v (whitelistedUsers this) in
    let tree := MerkleTree.new keccak256 lvs in
    mapC leafOf w = Return lvs /\
    this' = mkManager w (Some tree) (Some (MerkleTree.getHexRoot tree)) (S (rebuilds this)) /\
    r = mkAdd a v (Some (MerkleTree.getHexRoot tree)).
Proof.
  unfold addToWhitelist.
  destruct (isAddress a); simpl; [|discriminate].
  destruct (truthy v); simpl; [|discriminate].
  destruct (strictEqStr v "0"); simpl; [discriminate|].
  run. destruct (formatEther v); simpl; [|discriminate].
  rewrite generateMerkleTree_nonempty by apply Map_set_not_empty. simpl.
  destruct (mapC leafOf _) as [lvs|e]; simpl; [|discriminate].
  intros [= <- <-]. now exists lvs.
Qed.

(** C1 (as amended). Inserting record A and then record B into a fresh
    manager yields the same root as inserting B and then A, when the two
    canonical addresses differ and the four insertions return.  In general
    the root a rebuild assigns is a function of the sequence of
    (canonical address, amount) entries of the whitelist in insertion
    order: two managers with the same entries get the same root. *)
Theorem root_of_two_records_commutes :
  (forall (a b : string) (x y : jsval) r1 r2 r3 r4 s1 s2 s3 s4,
     toLowerCase a <> toLowerCase b ->
     addToWhitelist a x constructor = (Return r1, s1) ->
     addToWhitelist b y s1 = (Return r2, s2) ->
     addToWhitelist b y constructor = (Return r3, s3) ->
     addToWhitelist a x s3 = (Return r4, s4) ->
     merkleRoot s2 = merkleRoot s4 /\ add_merkleRoot r2 = add_merkleRoot r4) /\
  (forall this that,
     whitelistedUsers this = whitelistedUsers that ->
     fst (generateMerkleTree this) = fst (generateMerkleTree that) /\
     (fst (generateMerkleTree this) = Return tt ->
      merkleRoot (snd (generateMerkleTree this))
        = merkleRoot (snd (generateMerkleTree that)))).
Proof.
  split.
  - intros a b x y r1 r2 r3 r4 s1 s2 s3 s4 Hne H1 H2 H3 H4.
    apply addToWhitelist_returns in H1 as (l1 & M1 & -> & ->).
    apply addToWhitelist_returns in H2 as (l2 & M2 & -> & ->).
    apply addToWhitelist_returns in H3 as (l3 & M3 & -> & ->).
    apply addToWhitelist_returns in H4 as (l4 & M4 & -> & ->).
    simpl in *.
    apply String.eqb_neq in Hne. rewrite Hne in M2.
    rewrite String.eqb_sym in Hne. rewrite Hne in M4.
    simpl in *.
    destruct (leafOf (toLowerCase a, x)) as [la|]; [|discriminate].
    destruct (leafOf (toLowerCase b, y)) as [lb|]; [|discriminate].
    injection M2 as <-. injection M4 as <-.
    unfold MerkleTree.getHexRoot, MerkleTree.getRoot. simpl.
    now rewrite (hashPair_comm keccak256 la lb).
  - intros this that Hw.
    destruct (whitelistedUsers this) as [|e w] eqn:E.
    + rewrite !generateMerkleTree_empty by congruence. simpl. auto.
    + rewrite !generateMerkleTree_nonempty by congruence.
      rewrite <- Hw, E. destruct (mapC leafOf (e :: w)); simpl; auto.
      split; [reflexivity|discriminate].
Qed.

(** *** The keys of the whitelist are distinct *)

Lemma NoDup_Map_set (k : string) (v : jsval) (m : Map) :
  NoDup (Map_keys m) -> NoDup (Map_keys (Map_set k v m)).
Proof.
  intros H. rewrite Map_keys_set. destruct (Map_has k m) eqn:E; [assumption|].
  apply NoDup_app; [assumption| |].
  - constructor; [intros []|constructor].
  - intros a Ha [<-|[]]. apply Map_has_In in Ha. congruence.
Qed.

Lemma NoDup_Map_remove (k : string) (m : Map) :
  NoDup (Map_keys m) -> NoDup (Map_keys (Map_remove k m)).
Proof.
  induction m as [|[k' v'] m IH]; simpl; intros H; [constructor|].
  inversion H as [|? ? Hnotin Hrest]; subst.
  destruct (k' =? k)%string; [assumption|]. simpl. constructor; [|now apply IH].
  intros Hin. apply Hnotin. now apply (Map_keys_remove_incl k m).
Qed.

Lemma NoDup_writeAll (us : list User) (w : Map) :
  NoDup (Map_keys w) -> NoDup (Map_keys (writeAll us w)).
Proof.
  revert w. induction us as [|u us IH]; intros w H; simpl; [assumption|].
  now apply IH, NoDup_Map_set.
Qed.

Lemma NoDup_imported (es : list (string * jsval)) (w : Map) :
  NoDup (Map_keys w) -> NoDup (Map_keys (imported es w)).
Proof.
  revert w. induction es as [|e es IH]; intros w H; simpl; [assumption|].
  destruct (isAddress (fst e)); [|now apply IH]. now apply IH, NoDup_Map_set.
Qed.

Lemma step_NoDup (this : MerkleManager) (c : Call) :
  NoDup (Map_keys (whitelistedUsers this)) ->
  NoDup (Map_keys (whitelistedUsers (step this c))).
Proof.
  intros H. destruct c; simpl.
  - rewrite add_whitelist.
    destruct (isAddress userAddress && truthy amount0 && negb (strictEqStr amount0 "0"));
      [now apply NoDup_Map_set|assumption].
  - rewrite remove_whitelist. destruct (isAddress userAddress); [|assumption].
    now apply NoDup_Map_remove.
  - now rewrite generateMerkleTree_whitelist.
  - now rewrite getMerkleProof_state.
  - now rewrite isWhitelisted_state.
  - now rewrite getUserAmount_state.
  - assumption.
  - rewrite batch_whitelist. now apply NoDup_writeAll.
  - assumption.
  - rewrite import_whitelist. destruct (users data); [|assumption].
    apply NoDup_imported. constructor.
Qed.

Lemma execute_NoDup (calls : list Call) :
  NoDup (Map_keys (whitelistedUsers (execute calls))).
Proof.
  unfold execute.
  assert (G : forall this,
             NoDup (Map_keys (whitelistedUsers this)) ->
             NoDup (Map_keys (whitelistedUsers (fold_left step calls this)))).
  { induction calls as [|c calls IH]; intros this H; simpl; [assumption|].
    now apply IH, step_NoDup. }
  apply G. constructor.
Qed.

(** On a current manager the leaf of every record can be computed. *)
Lemma current_leaves (this : MerkleManager) (entry : string * jsval) :
  current this -> In entry (whitelistedUsers this) ->
  exists lf, leafOf entry = Return lf.
Proof.
  unfold current. intros Hcur Hin.
  destruct (whitelistedUsers this) as [|e w] eqn:Hw; [contradiction|].
  rewrite generateMerkleTree_nonempty in Hcur by congruence. rewrite Hw in Hcur.
  destruct (mapC leafOf (e :: w)) as [lvs|] eqn:Hm; [|discriminate].
  apply In_nth_error in Hin. destruct Hin as [i Hi].
  destruct (mapC_nth _ _ _ _ _ Hm Hi) as (y & Hy & _). now exists y.
Qed.

(** ** C5: export followed by import *)

Lemma imported_same (es : list (string * jsval)) :
  NoDup (Map_keys es) ->
  Forall (fun k => isAddress k = true /\ toLowerCase k = k) (Map_keys es) ->
  imported es [] = es.
Proof.
  assert (G : forall w, NoDup (Map_keys (w ++ es)) ->
              Forall (fun k => isAddress k = true /\ toLowerCase k = k) (Map_keys es) ->
              imported es w = w ++ es).
  { induction es as [|[k v] es IH]; intros w Hnd Hk; simpl.
    - now rewrite app_nil_r.
    - inversion Hk as [|? ? [Ha Hl] Hrest]; subst. rewrite Ha, Hl.
      rewrite Map_set_fresh.
      + rewrite IH; [now rewrite <- app_assoc | | exact Hrest].
        now rewrite <- app_assoc.
      + apply Map_has_not_In. unfold Map_keys in *. rewrite map_app in Hnd.
        simpl in Hnd. apply NoDup_remove_2 in Hnd. intros Hin. apply Hnd.
        apply in_or_app. now left. }
  intros Hnd Hk. now apply (G []).
Qed.

(** [getMerkleProof] reads the whitelist, the tree and the root only. *)
Lemma getMerkleProof_reads (a : string) (this that : MerkleManager) :
  whitelistedUsers this = whitelistedUsers that ->
  merkleTree this = merkleTree that ->
  merkleRoot this = merkleRoot that ->
  fst (getMerkleProof a this) = fst (getMerkleProof a that).
Proof.
  intros Hw Ht Hr. unfold getMerkleProof.
  destruct (isAddress a); simpl; [|reflexivity].
  run. rewrite Hw, Ht, Hr. destruct (truthy _); simpl; [|reflexivity].
  destruct (merkleTree that); [|reflexivity].
  destruct (leafOf _); simpl; [|reflexivity].
  now destruct (merkleRoot that).
Qed.

(** The round trip on a current manager whose keys are distinct, lowercase,
    accepted by [isAddress] and not array indices. *)
Lemma round_trip_of_current (this : MerkleManager) (now : string) :
  current this ->
  NoDup (Map_keys (whitelistedUsers this)) ->
  Forall (fun k => isAddress k = true /\ toLowerCase k = k /\ arrayIndex k = None)
         (Map_keys (whitelistedUsers this)) ->
  let out := roundTrip now this in
  (exists stats, fst out = Return stats /\ stats_merkleRoot stats = merkleRoot this) /\
  whitelistedUsers (snd out) = whitelistedUsers this /\
  merkleTree (snd out) = merkleTree this /\
  merkleRoot (snd out) = merkleRoot this /\
  (forall a, fst (getMerkleProof a (snd out)) = fst (getMerkleProof a this)).
Proof.
  intros Hcur Hnd Hkeys out.
  assert (Hout : out = (Return (mkStats (Map_size (whitelistedUsers this)) (merkleRoot this)
                                        (match merkleTree this with
                                         | Some _ => true | None => false end)),
                        mkManager (whitelistedUsers this) (merkleTree this)
                                  (merkleRoot this) (S (rebuilds this)))).
  { subst out. unfold roundTrip, exportWhitelist. run.
    unfold importWhitelist. simpl. unfold bind at 1. simpl.
    unfold bind at 1. rewrite forEach_importStep. simpl.
    unfold Map_entries, Object_entries.
    rewrite Object_fromEntries_same;
      [| assumption | eapply Forall_impl; [|exact Hkeys]; simpl; tauto].
    rewrite imported_same;
      [| assumption | eapply Forall_impl; [|exact Hkeys]; simpl; tauto].
    unfold bind. rewrite manager_eta, Hcur. reflexivity. }
  rewrite Hout. simpl. repeat split; try reflexivity.
  - eexists. split; reflexivity.
  - intros a. now apply getMerkleProof_reads.
Qed.

End Properties.

(* ================================================================== *)
(** * The manager with ethers and keccak256 *)

(** ** The packed bytes of a leaf *)

Lemma lowerChar_zero (c : ascii) : lowerChar c = "0"%char -> c = "0"%char.
Proof. destruct c as [[] [] [] [] [] [] [] []]; vm_compute; congruence. Qed.

Lemma lowerChar_x (c : ascii) : lowerChar c = "x"%char -> c = "x"%char \/ c = "X"%char.
Proof. destruct c as [[] [] [] [] [] [] [] []]; vm_compute; intros H; auto; discriminate. Qed.

Lemma isHexString_shape (k : string) :
  Ethers.isHexString k = true ->
  exists digits, k = String "0" (String "x" digits)
                 /\ forallb_string isHexDigit digits = true.
Proof.
  destruct k as [|c0 [|c1 k']]; simpl; try discriminate.
  - destruct c0 as [[] [] [] [] [] [] [] []]; discriminate.
  - destruct c0 as [[] [] [] [] [] [] [] []]; try discriminate.
    destruct c1 as [[] [] [] [] [] [] [] []]; try discriminate.
    intros H. now exists k'.
Qed.

Lemma isIcapShape_zero (s : string) : Ethers.isIcapShape (String "0" s) = false.
Proof. unfold Ethers.isIcapShape. now destruct s. Qed.

(** An accepted address whose lowercase form is hex data is [0x] followed
    by forty hexadecimal digits. *)
Lemma hex_address_shape (a : string) :
  Ethers.isAddress a = true ->
  Ethers.isHexString (toLowerCase a) = true ->
  exists a', a = String "0" (String "x" a') /\
             String.length a' = 40%nat /\ forallb_string isHexDigit a' = true.
Proof.
  intros Hvalid Hhex.
  apply isHexString_shape in Hhex. destruct Hhex as (digits & Hk & _).
  destruct a as [|c0 [|c1 a']]; try discriminate.
  simpl in Hk. injection Hk as E0 E1 _.
  apply lowerChar_zero in E0. subst c0.
  apply lowerChar_x in E1. destruct E1 as [-> | ->].
  - unfold Ethers.isAddress, Ethers.isHexAddressShape in Hvalid.
    cbv beta iota in Hvalid. rewrite isIcapShape_zero in Hvalid.
    unfold Ethers.isHex40 in Hvalid.
    destruct ((String.length a' =? 40)%nat && forallb_string isHexDigit a') eqn:H40;
      [|discriminate Hvalid].
    apply andb_true_iff in H40. destruct H40 as [Hlen Hdig].
    apply Nat.eqb_eq in Hlen. now exists a'.
  - unfold Ethers.isAddress, Ethers.isHexAddressShape in Hvalid.
    cbv beta iota in Hvalid. rewrite isIcapShape_zero in Hvalid.
    unfold Ethers.isHex40 in Hvalid.
    change (forallb_string isHexDigit (String "0" (String "X" a'))) with false in Hvalid.
    rewrite andb_false_r in Hvalid. discriminate Hvalid.
Qed.

(** A key under which [solidityPack] succeeds spells twenty bytes: it is
    [0x] followed by forty lowercase hexadecimal digits. *)
Lemma canonical_key_bytes (a : string) (addr : bytes) :
  Ethers.isAddress a = true ->
  Ethers.arrayify (toLowerCase a) = Return addr ->
  List.length addr = 20%nat /\ toLowerCase a = ("0x" ++ hexOfBytes addr)%string.
Proof.
  intros Hvalid Harr. unfold Ethers.arrayify in Harr.
  destruct (Ethers.isHexString (toLowerCase a)) eqn:Hhex; [|discriminate].
  destruct (Nat.odd _); [discriminate|]. injection Harr as <-.
  destruct (hex_address_shape a Hvalid Hhex) as (a' & -> & Hlen & Hdig).
  destruct (hex_round_trip (toLowerCase a')) as [R L].
  - now apply toLowerCase_hex.
  - now rewrite toLowerCase_length, Hlen.
  - rewrite toLowerCase_length, Hlen in L.
    change (strip0x (toLowerCase (String "0" (String "x" a')))) with (toLowerCase a').
    rewrite R. split; [lia|reflexivity].
Qed.

Lemma lowerChar_not_upperAF (c : ascii) : Ethers.isUpperAF (lowerChar c) = false.
Proof. destruct c as [[] [] [] [] [] [] [] []]; reflexivity. Qed.

Lemma toLowerCase_no_upperAF (s : string) :
  existsb_string Ethers.isUpperAF (toLowerCase s) = false.
Proof.
  induction s as [|c s IH]; simpl; [reflexivity|].
  now rewrite lowerChar_not_upperAF, IH.
Qed.

Lemma lowerHexDigit_hex (s : string) :
  forallb_string isLowerHexDigit s = true -> forallb_string isHexDigit s = true.
Proof.
  induction s as [|c s IH]; simpl; [reflexivity|].
  rewrite !andb_true_iff. unfold isLowerHexDigit at 1. rewrite andb_true_iff.
  intros [[Hc _] Hs]. auto.
Qed.

(** Such a key is itself accepted by [isAddress], and it is not an array
    index. *)
Lemma packable_key (a : string) (addr : bytes) :
  Ethers.isAddress a = true ->
  Ethers.arrayify (toLowerCase a) = Return addr ->
  Ethers.isAddress (toLowerCase a) = true /\ arrayIndex (toLowerCase a) = None.
Proof.
  intros Hvalid Harr. unfold Ethers.arrayify in Harr.
  destruct (Ethers.isHexString (toLowerCase a)) eqn:Hhex; [|discriminate].
  destruct (hex_address_shape a Hvalid Hhex) as (a' & -> & Hlen & Hdig).
  change (toLowerCase (String "0" (String "x" a')))
    with (String "0" (String "x" (toLowerCase a'))).
  split; [|reflexivity].
  unfold Ethers.isAddress, Ethers.isHexAddressShape. cbv beta iota.
  unfold Ethers.isHex40.
  rewrite toLowerCase_length, Hlen, (lowerHexDigit_hex _ (toLowerCase_hex _ Hdig)).
  cbn [Nat.eqb andb].
  assert (Hsub : substring 0 2 (String "0" (String "x" (toLowerCase a'))) = "0x").
  { simpl. now destruct (toLowerCase a'). }
  rewrite Hsub. cbn [String.eqb Ascii.eqb Bool.eqb].
  unfold Ethers.mixedCase.
  change (existsb_string Ethers.isUpperAF (String "0" (String "x" (toLowerCase a'))))
    with (existsb_string Ethers.isUpperAF (toLowerCase a')).
  now rewrite toLowerCase_no_upperAF.
Qed.

Lemma bigEndian_length (n : nat) (v : N) : List.length (Ethers.bigEndian n v) = n.
Proof.
  revert v. induction n as [|n IH]; intros v; simpl; [reflexivity|].
  rewrite length_app, IH. simpl. lia.
Qed.

Lemma bigEndianValue_snoc (b : bytes) (x : byte) :
  Ethers.bigEndianValue (b ++ [x]) = (256 * Ethers.bigEndianValue b + Byte.to_N x)%N.
Proof. unfold Ethers.bigEndianValue. now rewrite fold_left_app. Qed.

Lemma bigEndianValue_bigEndian (n : nat) (v : N) :
  Ethers.bigEndianValue (Ethers.bigEndian n v) = (v mod 256 ^ N.of_nat n)%N.
Proof.
  revert v. induction n as [|n IH]; intros v.
  - simpl. now rewrite N.mod_1_r.
  - change (Ethers.bigEndian (S n) v)
      with (Ethers.bigEndian n (v / 256) ++ [byteOfN v]).
    rewrite bigEndianValue_snoc, IH, to_N_byteOfN.
    rewrite Nat2N.inj_succ, N.pow_succ_r'.
    rewrite N.Div0.mod_mul_r. lia.
Qed.

(** When [zeroPad] accepts the two's complement of the amount, the bytes
    are the 32-byte big-endian form of the amount modulo [2^256]; a
    non-negative amount is then below [2^256] and is spelled as it is. *)
Lemma packed_amount (z : Z) (w : bytes) :
  Ethers.zeroPad32 (Ethers.toTwos256 z) = Return w ->
  List.length w = 32%nat /\
  Z.of_N (Ethers.bigEndianValue w) = (z mod 2 ^ 256)%Z /\
  ((0 <= z)%Z -> Z.of_N (Ethers.bigEndianValue w) = z).
Proof.
  unfold Ethers.zeroPad32, Ethers.toTwos256, Ethers.TWO256.
  destruct (z <? 0)%Z eqn:Hneg.
  - apply Z.ltb_lt in Hneg.
    set (a := Z.abs z). set (t := (2 ^ 256 - 1 - a mod 2 ^ 256 + 1)%Z).
    destruct (t <? 2 ^ 256)%Z eqn:Hfit; [|discriminate].
    apply Z.ltb_lt in Hfit. intros H.
    assert (E : w = Ethers.bigEndian 32 (Z.to_N t)) by congruence.
    subst w. clear H.
    rewrite bigEndian_length, bigEndianValue_bigEndian.
    assert (Hm : (0 <= a mod 2 ^ 256 < 2 ^ 256)%Z) by (apply Z.mod_pos_bound; lia).
    assert (Ht : (t = 2 ^ 256 - a mod 2 ^ 256)%Z) by (subst t; lia).
    assert (Hnz : (a mod 2 ^ 256 <> 0)%Z) by lia.
    assert (Hz : (z mod 2 ^ 256 = 2 ^ 256 - a mod 2 ^ 256)%Z).
    { replace z with (- a)%Z by (subst a; lia).
      now rewrite Z.mod_opp_l_nz by (try assumption; lia). }
    split; [reflexivity|]. split; [|lia].
    change (256 ^ N.of_nat 32)%N with (Z.to_N (2 ^ 256)).
    rewrite <- Z2N.inj_mod by lia. rewrite Z2N.id by (apply Z.mod_pos_bound; lia).
    rewrite Ht, Hz. apply Z.mod_small. lia.
  - apply Z.ltb_ge in Hneg.
    destruct (z <? 2 ^ 256)%Z eqn:Hfit; [|discriminate].
    apply Z.ltb_lt in Hfit. intros H.
    assert (E : w = Ethers.bigEndian 32 (Z.to_N z)) by congruence.
    subst w. clear H.
    rewrite bigEndian_length, bigEndianValue_bigEndian.
    change (256 ^ N.of_nat 32)%N with (Z.to_N (2 ^ 256)).
    rewrite <- Z2N.inj_mod by lia. rewrite Z2N.id by (apply Z.mod_pos_bound; lia).
    rewrite Z.mod_small by lia. auto.
Qed.

(** ** The layers of a tree *)

(** The layers of a tree built by [new MerkleTree]: the first is the leaves,
    each node above is the hash of the sorted pair of its two children (an
    odd last node is carried up unchanged), the last holds the root alone. *)
Lemma new_tree_layers (hashFn : bytes -> bytes) (lvs : list bytes) :
  let tree := MerkleTree.new hashFn lvs in
  lvs <> [] ->
  nth_error (MerkleTree.layers tree) 0 = Some (MerkleTree.leaves tree) /\
  (forall i lower upper j l,
     nth_error (MerkleTree.layers tree) i = Some lower ->
     nth_error (MerkleTree.layers tree) (S i) = Some upper ->
     nth_error lower (2 * j) = Some l ->
     match nth_error lower (2 * j + 1) with
     | Some r =>
         exists lo hi,
           nth_error upper j = Some (hashFn (lo ++ hi)) /\
           Buffer_compare lo hi <> Gt /\
           ((lo = l /\ hi = r) \/ (lo = r /\ hi = l))
     | None => nth_error upper j = Some l
     end) /\
  exists root,
    last (MerkleTree.layers tree) [] = [root] /\
    MerkleTree.getHexRoot tree = ("0x" ++ hexOfBytes root)%string.
Proof.
  intros tree Hne. split; [reflexivity|]. split.
  - intros i lower upper j l Hl Hu Hj.
    pose proof (createHashes_adjacent _ _ _ _ _ _ Hl Hu) as ->.
    destruct (nth_error lower (2 * j + 1)) as [r|] eqn:Hr.
    + rewrite (nextLayer_pair _ _ _ _ _ Hj Hr). unfold MerkleTree.hashPair.
      destruct (sortPair_sorted l r) as (lo & hi & -> & Hord & Hperm).
      exists lo, hi. simpl. rewrite app_nil_r. auto.
    + now apply nextLayer_odd.
  - destruct (createHashes_top hashFn (List.length lvs) lvs Hne (le_n _)) as [root Hroot].
    exists root. split; [exact Hroot|].
    unfold MerkleTree.getHexRoot, MerkleTree.getRoot, MerkleTree.bufferToHex.
    change (MerkleTree.layers tree)
      with (lvs :: MerkleTree.createHashes hashFn (List.length lvs) lvs).
    now rewrite Hroot.
Qed.

(** ** C5: the round trip with ethers *)

(** C5 (as amended). On the manager with [ethers] and [keccak256], after any
    sequence of calls that leaves the tree and the root current (a rebuild
    over the present whitelist would return and change neither), importing
    the output of [exportWhitelist] returns and reproduces the same
    whitelist, the same tree and an identical root, and [getMerkleProof]
    then gives for every address the result it gave before. *)
Theorem export_import_round_trip (calls : list Call) (now : string) :
  let this := execute (lib := node_modules) calls in
  current this ->
  let out := roundTrip now this in
  (exists stats, fst out = Return stats /\ stats_merkleRoot stats = merkleRoot this) /\
  whitelistedUsers (snd out) = whitelistedUsers this /\
  merkleTree (snd out) = merkleTree this /\
  merkleRoot (snd out) = merkleRoot this /\
  (forall a, fst (getMerkleProof a (snd out)) = fst (getMerkleProof a this)).
Proof.
  intros this Hcur. apply round_trip_of_current; [exact Hcur|apply execute_NoDup|].
  pose proof (execute_canonicalKeys calls) as Hcan. fold this in Hcan.
  unfold canonicalKeys in Hcan. rewrite Forall_forall in *.
  intros k Hk. destruct (Hcan k Hk) as (a & Hvalid & ->).
  unfold Map_keys in Hk. apply in_map_iff in Hk. destruct Hk as ([k v] & Hkv & Hin).
  simpl in Hkv. subst k.
  destruct (current_leaves this _ Hcur Hin) as [lf Hlf].
  unfold leafOf in Hlf. simpl in Hlf. unfold Ethers.solidityPack in Hlf.
  destruct (Ethers.arrayify (toLowerCase a)) as [addr|] eqn:Ha; [|discriminate].
  destruct (packable_key a addr Hvalid Ha) as [Hk Hidx].
  split; [exact Hk|]. split; [apply toLowerCase_idempotent|exact Hidx].
Qed.

(* ================================================================== *)
(** * The sample run *)

Import Sample.

(** The hash function is Keccak-256: the digests of the empty string and of
    "abc". *)
Example keccak256_empty :
  hexOfBytes (Keccak.keccak256 [])
  = "c5d2460186f7233c927e7db2dcc703c0e500b653ca82273b7bfad8045d85a470".
Proof. vm_compute. reflexivity. Qed.

Example keccak256_abc :
  hexOfBytes (Keccak.keccak256 (bytesOfString "abc"))
  = "4e03657aea45a94fc7d47ba826c8d667c0d1e6e33a64a036ec44f58fa12d6c45".
Proof. vm_compute. reflexivity. Qed.

(** The checksum spelling of EIP-55, and what [isAddress] accepts. *)
Example checksum_address :
  Ethers.getChecksumAddress "0x5aaeb6053f3e94c9b9a09f33669435e7ef1beaed"
  = "0x5aAeb6053F3E94C9b9A09f33669435E7Ef1BeAed".
Proof. vm_compute. reflexivity. Qed.

Example isAddress_samples :
  map Ethers.isAddress
      ["0x5aAeb6053F3E94C9b9A09f33669435E7Ef1BeAed";
       "0x5aAeb6053F3E94C9b9A09f33669435E7Ef1BeAeD";
       "5aaeb6053f3e94c9b9a09f33669435e7ef1beaed";
       "0x5aaeb6053f3e94c9b9a09f33669435e7ef1beae";
       "XE7338O073KYGTWWZN0F2WZ0R8PX5ZPPZS";
       alice; "not an address"]
  = [true; false; true; false; true; true; false].
Proof. vm_compute. reflexivity. Qed.

(** C1, counterexample. The same three records, inserted in two orders,
    give two different roots: the leaves are hashed in insertion order and
    only each pair is sorted. *)
Lemma insertion_order_changes_root :
  Permutation (whitelistedUsers abc) (whitelistedUsers acb) /\
  merkleRoot abc
    = Some "0xc1f4dc414c20ab5deccd9b45ca5f9752339693b9e2b706ac52ea6fe0861e006f" /\
  merkleRoot acb
    = Some "0x6ebcf36fe0c96d72c9d3ed4beb0d9315d89544c3b8bcb4e710e6e8398f6d30c0" /\
  merkleRoot abc <> merkleRoot acb.
Proof.
  split; [|split; [|split]].
  - vm_compute. apply perm_skip. apply perm_swap.
  - vm_compute. reflexivity.
  - vm_compute. reflexivity.
  - vm_compute. discriminate.
Qed.

(** C3, counterexample. After a backup with an unreadable amount was
    imported over a one-record whitelist, the whitelist is the backup's but
    the tree is the old one; [getMerkleProof] then returns a proof that fails
    its own verification, with [isValid] false, instead of throwing. *)
Lemma failed_self_check_is_returned :
  exists r,
    fst (getMerkleProof alice afterBadImport) = Return r /\
    proof r = [] /\ isValid r = false.
Proof. eexists. vm_compute. repeat split. Qed.

(** C4, counterexample. A record whose amount is zero can be present:
    importing a backup that holds the amount '0' returns and stores it
    (where [addToWhitelist] throws 'Invalid amount'), and [addToWhitelist]
    itself stores the amount '00', which [BigNumber.from] reads as zero. *)
Lemma zero_amounts_are_stored :
  (exists stats this,
     importWhitelist zeroBackup constructor = (Return stats, this) /\
     totalUsers stats = 1%nat /\
     whitelistedUsers this
       = [("0xaaaaaaaaaaaaaaaaaaaaaaaaaaaaaaaaaaaaaaaa", JString "0")]) /\
  fst (addToWhitelist alice (JString "0") constructor) = Throw (Error "Invalid amount") /\
  (exists r this,
     addToWhitelist alice (JString "00") constructor = (Return r, this) /\
     whitelistedUsers this
       = [("0xaaaaaaaaaaaaaaaaaaaaaaaaaaaaaaaaaaaaaaaa", JString "00")]) /\
  Ethers.BigNumber_from (JString "00") = Return 0%Z.
Proof.
  split; [|split; [|split]].
  - do 2 eexists. vm_compute. repeat split.
  - vm_compute. reflexivity.
  - do 2 eexists. vm_compute. repeat split.
  - vm_compute. reflexivity.
Qed.

(** C5, counterexample. On a fresh manager the root is [null] before the
    round trip and the zero sentinel after it. *)
Lemma round_trip_changes_fresh_root :
  merkleRoot constructor = None /\
  merkleRoot (snd (roundTrip "2024-01-01T00:00:00.000Z" constructor)) = Some ZERO_ROOT.
Proof. split; reflexivity. Qed.

(** C6, counterexample. A batch in which no record passes validation runs
    no rebuild at all. *)
Lemma batch_without_valid_record_does_not_rebuild :
  let this := onlyBob in
  let out := batchAddToWhitelist [mkUser "not an address" (JString "5");
                                  mkUser alice (JString "0")] this in
  rebuilds (snd out) = rebuilds this /\ rebuilds (snd out) <> S (rebuilds this).
Proof. vm_compute. split; [reflexivity|discriminate]. Qed.

(** C7, counterexample. A negative amount is not rejected: the call
    returns and the whitelist has the record. *)
Lemma negative_amount_is_accepted :
  exists r this,
    addToWhitelist alice (JString "-5") constructor = (Return r, this) /\
    whitelistedUsers this
      = [("0xaaaaaaaaaaaaaaaaaaaaaaaaaaaaaaaaaaaaaaaa", JString "-5")] /\
    this <> constructor.
Proof. do 2 eexists. vm_compute. repeat split. discriminate. Qed.

(** C8, counterexample. The object returned for a non-member has no
    [merkleRoot], although the manager has a root. *)
Lemma non_member_result_has_no_root :
  isAddress alice = true /\
  Map_has (toLowerCase alice) (whitelistedUsers onlyBob) = false /\
  (exists root, merkleRoot onlyBob = Some root) /\
  exists r,
    fst (removeFromWhitelist alice onlyBob) = Return r /\
    remove_merkleRoot r = None /\
    remove_merkleRoot r <> Some (merkleRoot onlyBob).
Proof.
  split; [reflexivity|]. split; [vm_compute; reflexivity|].
  split; [eexists; vm_compute; reflexivity|].
  eexists. vm_compute. repeat split. discriminate.
Qed.

(** C9, counterexample. The root of a fresh manager is [null]; it is not
    the zero sentinel, which is the root after the last member is removed. *)
Lemma fresh_root_is_not_the_sentinel :
  merkleRoot constructor <> Some ZERO_ROOT /\
  merkleRoot (run [CallAdd alice (JString "1000"); CallRemove alice]) = Some ZERO_ROOT /\
  merkleRoot constructor
    <> merkleRoot (run [CallAdd alice (JString "1000"); CallRemove alice]).
Proof. vm_compute. repeat split; discriminate. Qed.

(** ** The theorems at the sample data *)

Lemma root_of_two_records_commutes_witness :
  toLowerCase alice <> toLowerCase bob /\
  merkleRoot (run [CallAdd alice (JString "1000"); CallAdd bob (JString "2000")])
  = merkleRoot (run [CallAdd bob (JString "2000"); CallAdd alice (JString "1000")]).
Proof.
  split; [vm_compute; discriminate|].
  pose (x := JString "1000"). pose (y := JString "2000").
  pose (s1 := snd (addToWhitelist alice x constructor)).
  pose (s2 := snd (addToWhitelist bob y s1)).
  pose (s3 := snd (addToWhitelist bob y constructor)).
  pose (s4 := snd (addToWhitelist alice x s3)).
  refine (proj1 (proj1 root_of_two_records_commutes alice bob x y
                   (mkAdd alice x (merkleRoot s1)) (mkAdd bob y (merkleRoot s2))
                   (mkAdd bob y (merkleRoot s3)) (mkAdd alice x (merkleRoot s4))
                   s1 s2 s3 s4 _ _ _ _ _)).
  - vm_compute. discriminate.
  - vm_compute. reflexivity.
  - vm_compute. reflexivity.
  - vm_compute. reflexivity.
  - vm_compute. reflexivity.
Defined.

Lemma proof_reports_self_check_witness :
  exists r,
    fst (getMerkleProof bob abc) = Return r /\
    exists tree root lf,
      merkleTree abc = Some tree /\ merkleRoot abc = Some root /\
      leafOf (toLowerCase bob, Map_get (toLowerCase bob) (whitelistedUsers abc)) = Return lf /\
      proof r = MerkleTree.getHexProof tree lf /\
      proof_merkleRoot r = Some root /\
      isValid r = MerkleTree.verify keccak256 (proof r) lf root.
Proof.
  destruct (getMerkleProof bob abc) as [[r|e] this] eqn:E.
  - exists r. split; [reflexivity|].
    apply (proj1 (proj2 (proof_reports_self_check abc bob))).
    now rewrite E.
  - exfalso. vm_compute in E. discriminate E.
Defined.

Lemma batch_add_counts_witness :
  let us := [mkUser alice (JString "1000"); mkUser "not an address" (JString "5");
             mkUser bob (JString "0"); mkUser carol (JString "500")] in
  filter passesValidation us <> [] /\
  whitelistedUsers (snd (batchAddToWhitelist us constructor))
  = writeAll (filter passesValidation us) [] /\
  rebuilds (snd (batchAddToWhitelist us constructor)) = 1%nat.
Proof.
  intros us.
  destruct (batch_add_counts us constructor) as (Hw & Hr & _).
  split; [vm_compute; discriminate|]. split; [exact Hw|exact Hr].
Defined.

Lemma add_rejects_without_mutation_witness :
  isAddress "not an address" = false /\
  addToWhitelist "not an address" (JString "5") onlyBob
    = (Throw (Error "Invalid address format"), onlyBob) /\
  isAddress alice = true /\
  truthy (JString "") = false /\
  addToWhitelist alice (JString "") onlyBob = (Throw (Error "Invalid amount"), onlyBob) /\
  addToWhitelist alice (JString "0") onlyBob = (Throw (Error "Invalid amount"), onlyBob).
Proof.
  assert (H1 : isAddress "not an address" = false) by reflexivity.
  assert (H2 : isAddress alice = true) by reflexivity.
  split; [exact H1|].
  split; [exact (proj1 (add_rejects_without_mutation onlyBob _ (JString "5")) H1)|].
  split; [exact H2|]. split; [reflexivity|].
  split.
  - exact (proj2 (add_rejects_without_mutation onlyBob alice (JString "")) H2
                 (or_introl eq_refl)).
  - exact (proj2 (add_rejects_without_mutation onlyBob alice (JString "0")) H2
                 (or_intror eq_refl)).
Defined.

Lemma remove_non_member_is_noop_witness :
  isAddress alice = true /\
  Map_has (toLowerCase alice) (whitelistedUsers onlyBob) = false /\
  exists r,
    removeFromWhitelist alice onlyBob = (Return r, onlyBob) /\
    r = NotRemoved alice /\ removed r = false /\ remove_merkleRoot r = None.
Proof.
  assert (H1 : isAddress alice = true) by reflexivity.
  assert (H2 : Map_has (toLowerCase alice) (whitelistedUsers onlyBob) = false)
    by (vm_compute; reflexivity).
  split; [exact H1|]. split; [exact H2|].
  exact (remove_non_member_is_noop onlyBob alice H1 H2).
Defined.

Lemma empty_whitelist_root_witness :
  let calls := [CallAdd alice (JString "1000"); CallRemove alice] in
  whitelistedUsers (run calls) = [] /\
  merkleTree (run calls) = None /\
  (merkleRoot (run calls) = Some ZERO_ROOT
   \/ (merkleRoot (run calls) = None /\ rebuilds (run calls) = 0%nat)).
Proof.
  intros calls.
  assert (H : whitelistedUsers (run calls) = []) by (vm_compute; reflexivity).
  split; [exact H|].
  exact (proj1 (proj2 empty_whitelist_root) calls H).
Defined.

Lemma export_import_round_trip_witness :
  let calls := [CallAdd alice (JString "1000"); CallAdd bob (JString "2000");
                CallAdd carol (JString "500")] in
  let this := execute (lib := node_modules) calls in
  let now := "2024-01-01T00:00:00.000Z" in
  current this /\
  merkleRoot (snd (roundTrip now this)) = merkleRoot this /\
  forall a, fst (getMerkleProof a (snd (roundTrip now this))) = fst (getMerkleProof a this).
Proof.
  intros calls this now.
  assert (Hcur : current this) by (vm_compute; reflexivity).
  split; [exact Hcur|].
  destruct (export_import_round_trip calls now Hcur) as (_ & _ & _ & Hroot & Hproofs).
  split; [exact Hroot | exact Hproofs].
Defined.

Lemma stored_amounts_pass_the_guard_witness :
  let calls := [CallAdd alice (JString "1000");
                CallBatchAdd [mkUser bob (JString "2000"); mkUser carol (JString "0")];
                CallAdd carol JUndefined; CallRemove alice] in
  existsb isImport calls = false /\
  Forall (fun entry => truthy (snd entry) = true /\ snd entry <> JString "0")
         (whitelistedUsers (execute (lib := node_modules) calls)).
Proof.
  intros calls.
  assert (H : existsb isImport calls = false) by reflexivity.
  split; [exact H|].
  exact (stored_amounts_pass_the_guard calls H).
Defined.

(* ================================================================== *)
(** * Further properties of the manager *)

(** ** Proofs verify *)

Lemma hex_of_byte (x : byte) :
  hexValue (hexChar (Byte.to_N x / 16)) = Some (Byte.to_N x / 16)%N /\
  hexValue (hexChar (Byte.to_N x mod 16)) = Some (Byte.to_N x mod 16)%N /\
  byteOfN (16 * (Byte.to_N x / 16) + Byte.to_N x mod 16) = x.
Proof. destruct x; vm_compute; repeat split. Qed.

(** Encoding a buffer as hexadecimal text and decoding it gives the buffer. *)
Lemma bytesOfHex_hexOfBytes (b : bytes) : bytesOfHex (hexOfBytes b) = b.
Proof.
  induction b as [|x b IH]; [reflexivity|].
  destruct (hex_of_byte x) as (Hh & Hl & Hx).
  change (hexOfBytes (x :: b))
    with (String (hexChar (Byte.to_N x / 16))
            (String (hexChar (Byte.to_N x mod 16)) (hexOfBytes b))).
  change (bytesOfHex (String (hexChar (Byte.to_N x / 16))
                        (String (hexChar (Byte.to_N x mod 16)) (hexOfBytes b))))
    with (match hexValue (hexChar (Byte.to_N x / 16)),
                hexValue (hexChar (Byte.to_N x mod 16)) with
          | Some h, Some l => byteOfN (16 * h + l) :: bytesOfHex (hexOfBytes b)
          | _, _ => []
          end).
  now rewrite Hh, Hl, Hx, IH.
Qed.

Lemma hexOfBytes_digits (b : bytes) : forallb_string isHexDigit (hexOfBytes b) = true.
Proof.
  induction b as [|x b IH]; [reflexivity|].
  destruct (hex_of_byte x) as (Hh & Hl & _).
  change (hexOfBytes (x :: b))
    with (String (hexChar (Byte.to_N x / 16))
            (String (hexChar (Byte.to_N x mod 16)) (hexOfBytes b))).
  cbn [forallb_string]. unfold isHexDigit at 1 2. now rewrite Hh, Hl, IH.
Qed.

Lemma bufferify_bufferToHex (b : bytes) :
  MerkleTree.bufferify (MerkleTree.bufferToHex b) = b.
Proof.
  unfold MerkleTree.bufferify, MerkleTree.isHexString, MerkleTree.bufferToHex.
  change (strip0x ("0x" ++ hexOfBytes b)%string) with (hexOfBytes b).
  now rewrite hexOfBytes_digits, bytesOfHex_hexOfBytes.
Qed.

Section ProofsVerify.

Variable hashFn : bytes -> bytes.

(** One turn of the loop of [verify] combines as the construction does. *)
Lemma verify_step (hash data : bytes) :
  match Buffer_compare hash data with
  | Lt => hashFn (List.concat [hash; data])
  | _ => hashFn (List.concat [data; hash])
  end = MerkleTree.hashPair hashFn hash data.
Proof.
  unfold MerkleTree.hashPair, MerkleTree.sortPair.
  destruct (Buffer_compare hash data) eqn:E; try reflexivity.
  apply Buffer_compare_eq in E. now subst.
Qed.

Lemma foldProof_hex (p : list bytes) (h : bytes) :
  MerkleTree.foldProof hashFn (map MerkleTree.bufferToHex p) h
  = fold_left (MerkleTree.hashPair hashFn) p h.
Proof.
  revert h. induction p as [|d p IH]; intros h; [reflexivity|].
  cbn [map MerkleTree.foldProof fold_left].
  now rewrite bufferify_bufferToHex, verify_step, IH.
Qed.

(** Folding the siblings collected from a node's position up the layers
    gives the node of the last layer. *)
Lemma collect_reaches_root (fuel : nat) (nodes : list bytes) (idx : nat) (x : bytes) :
  (List.length nodes <= fuel)%nat ->
  nth_error nodes idx = Some x ->
  fold_left (MerkleTree.hashPair hashFn)
            (MerkleTree.collect (nodes :: MerkleTree.createHashes hashFn fuel nodes) idx) x
  = match last (nodes :: MerkleTree.createHashes hashFn fuel nodes) [] with
    | r :: _ => r
    | [] => []
    end.
Proof.
  revert nodes idx x. induction fuel as [|fuel IH]; intros nodes idx x Hlen Hx.
  - destruct nodes; [now destruct idx|simpl in Hlen; lia].
  - cbn [MerkleTree.createHashes].
    destruct (Nat.leb_spec (List.length nodes) 1) as [Hle|Hgt].
    + destruct nodes as [|y [|z rest]]; [now destruct idx| |simpl in Hle; lia].
      destruct idx as [|idx]; [|now destruct idx].
      simpl in Hx. injection Hx as <-. reflexivity.
    + set (next := MerkleTree.nextLayer hashFn nodes).
      assert (Hnext : (List.length next <= fuel)%nat).
      { subst next. rewrite nextLayer_length.
        pose proof (Nat.div2_odd (S (List.length nodes))) as Hd.
        destruct (Nat.odd (S (List.length nodes))); simpl Nat.b2n in Hd; lia. }
      change (last (nodes :: next :: MerkleTree.createHashes hashFn fuel next) [])
        with (last (next :: MerkleTree.createHashes hashFn fuel next) []).
      cbn [MerkleTree.collect].
      pose proof (Nat.div2_odd idx) as Hidx.
      destruct (Nat.odd idx) eqn:Hodd; simpl Nat.b2n in Hidx.
      * (* a right node: its sibling is on the left *)
        assert (Hi : (idx - 1 = 2 * Nat.div2 idx)%nat) by lia.
        rewrite Hi.
        destruct (nth_error nodes (2 * Nat.div2 idx)) as [l|] eqn:Hl.
        -- cbn [fold_left]. rewrite hashPair_comm. apply IH; [exact Hnext|].
           apply nextLayer_pair; [exact Hl|].
           replace (2 * Nat.div2 idx + 1)%nat with idx by lia. exact Hx.
        -- apply nth_error_None in Hl.
           assert (idx < List.length nodes)%nat by (apply nth_error_Some; congruence).
           lia.
      * (* a left node *)
        assert (Hi : idx = (2 * Nat.div2 idx)%nat) by lia.
        replace (idx + 1)%nat with (2 * Nat.div2 idx + 1)%nat by lia.
        destruct (nth_error nodes (2 * Nat.div2 idx + 1)) as [r|] eqn:Hr.
        -- cbn [fold_left]. apply IH; [exact Hnext|].
           apply nextLayer_pair; [|exact Hr]. now rewrite <- Hi.
        -- apply IH; [exact Hnext|].
           apply nextLayer_odd; [|exact Hr]. now rewrite <- Hi.
Qed.

Lemma findIndex_found (leaf : bytes) (lvs : list bytes) (i : nat) (found : option nat)
      (idx : nat) :
  MerkleTree.findIndex leaf lvs i found = Some idx ->
  found = Some idx \/ ((i <= idx)%nat /\ nth_error lvs (idx - i) = Some leaf).
Proof.
  revert i found. induction lvs as [|l lvs IH]; intros i found H; simpl in H.
  - now left.
  - apply IH in H. destruct H as [H | [Hle Hn]].
    + destruct (Buffer_compare leaf l) eqn:E; try (now left).
      injection H as <-. right. split; [lia|].
      rewrite Nat.sub_diag. simpl. apply Buffer_compare_eq in E. now subst.
    + right. split; [lia|].
      replace (idx - i)%nat with (S (idx - S i)) by lia. exact Hn.
Qed.

Lemma findIndex_some (leaf : bytes) (lvs : list bytes) (i : nat) (found : option nat) :
  found <> None \/ In leaf lvs ->
  MerkleTree.findIndex leaf lvs i found <> None.
Proof.
  revert i found. induction lvs as [|l lvs IH]; intros i found H; simpl.
  - destruct H as [H | []]. exact H.
  - apply IH. destruct H as [H | [-> | H]].
    + left. now destruct (Buffer_compare leaf l).
    + left. now rewrite Buffer_compare_refl.
    + now right.
Qed.

(** For a tree built from [lvs], the proof of any of its leaves verifies
    against its root. *)
Lemma proof_of_leaf_verifies (lvs : list bytes) (leaf : bytes) :
  In leaf lvs ->
  let tree := MerkleTree.new hashFn lvs in
  MerkleTree.verify hashFn (MerkleTree.getHexProof tree leaf) leaf
                    (MerkleTree.getHexRoot tree) = true.
Proof.
  intros Hin tree.
  unfold MerkleTree.verify, MerkleTree.getHexProof, MerkleTree.getHexRoot.
  rewrite foldProof_hex, bufferify_bufferToHex.
  unfold MerkleTree.getProof, MerkleTree.getRoot.
  change (MerkleTree.leaves tree) with lvs.
  change (MerkleTree.layers tree)
    with (lvs :: MerkleTree.createHashes hashFn (List.length lvs) lvs).
  destruct (MerkleTree.findIndex leaf lvs 0 None) as [idx|] eqn:Hf.
  - apply findIndex_found in Hf. destruct Hf as [Hf | [_ Hn]]; [discriminate|].
    rewrite Nat.sub_0_r in Hn.
    rewrite (collect_reaches_root _ _ _ _ (le_n _) Hn).
    now rewrite Buffer_compare_refl.
  - exfalso. revert Hf. apply findIndex_some. now right.
Qed.

End ProofsVerify.

(** ** The manager's calls *)

Lemma Map_has_remove_same (k : string) (m : Map) :
  NoDup (Map_keys m) -> Map_has k (Map_remove k m) = false.
Proof.
  induction m as [|[k' v'] m IH]; simpl; intros H; [reflexivity|].
  inversion H as [|? ? Hnotin Hrest]; subst.
  destruct (String.eqb_spec k' k) as [->|Hne].
  - now apply Map_has_not_In.
  - simpl. apply String.eqb_neq in Hne. rewrite Hne. now apply IH.
Qed.

Lemma Map_has_remove_other (k k' : string) (m : Map) :
  k' <> k -> Map_has k' (Map_remove k m) = Map_has k' m.
Proof.
  intros Hne. induction m as [|[k0 v0] m IH]; simpl; [reflexivity|].
  destruct (String.eqb_spec k0 k) as [->|Hk].
  - apply String.eqb_neq in Hne. rewrite String.eqb_sym in Hne. now rewrite Hne.
  - simpl. now rewrite IH.
Qed.

Lemma Map_get_remove_other (k k' : string) (m : Map) :
  k' <> k -> Map_get k' (Map_remove k m) = Map_get k' m.
Proof.
  intros Hne. induction m as [|[k0 v0] m IH]; simpl; [reflexivity|].
  destruct (String.eqb_spec k0 k) as [->|Hk].
  - apply String.eqb_neq in Hne. rewrite String.eqb_sym in Hne. now rewrite Hne.
  - simpl. now rewrite IH.
Qed.

Lemma Map_get_absent (k : string) (m : Map) : Map_has k m = false -> Map_get k m = JUndefined.
Proof.
  induction m as [|[k' v'] m IH]; simpl; [reflexivity|].
  destruct (k' =? k)%string; simpl; [discriminate|exact IH].
Qed.

Lemma Map_has_set (k k' : string) (v : jsval) (m : Map) :
  Map_has k' (Map_set k v m) = (k =? k')%string || Map_has k' m.
Proof.
  induction m as [|[k0 v0] m IH]; simpl.
  - now rewrite orb_false_r.
  - destruct (String.eqb_spec k0 k) as [->|Hk]; simpl.
    + now destruct (k =? k')%string.
    + rewrite IH. destruct (k0 =? k')%string, (k =? k')%string; reflexivity.
Qed.

Lemma Map_get_set_same (k : string) (v : jsval) (m : Map) : Map_get k (Map_set k v m) = v.
Proof.
  induction m as [|[k0 v0] m IH]; simpl.
  - now rewrite String.eqb_refl.
  - destruct (String.eqb_spec k0 k) as [->|Hk]; simpl.
    + now rewrite String.eqb_refl.
    + apply String.eqb_neq in Hk. now rewrite Hk.
Qed.

Lemma Map_get_set_other (k k' : string) (v : jsval) (m : Map) :
  k' <> k -> Map_get k' (Map_set k v m) = Map_get k' m.
Proof.
  intros Hne. apply String.eqb_neq in Hne. rewrite String.eqb_sym in Hne.
  induction m as [|[k0 v0] m IH]; simpl.
  - now rewrite Hne.
  - destruct (String.eqb_spec k0 k) as [->|Hk]; simpl.
    + now rewrite Hne.
    + now rewrite IH.
Qed.

Lemma Map_size_set (k : string) (v : jsval) (m : Map) :
  Map_size (Map_set k v m) = if Map_has k m then Map_size m else S (Map_size m).
Proof.
  unfold Map_size. induction m as [|[k0 v0] m IH]; simpl; [reflexivity|].
  destruct (k0 =? k)%string; simpl; [reflexivity|]. rewrite IH.
  now destruct (Map_has k m).
Qed.

Section MoreProperties.

Context {lib : Libraries}.

Ltac exec :=
  unfold bind, get, ret, throw, lift, set_whitelistedUsers, set_merkleTree,
    set_merkleRoot, count_rebuild; simpl.

(** *** Current managers *)

Lemma current_nonempty (this : MerkleManager) :
  current this -> whitelistedUsers this <> [] ->
  exists lvs,
    mapC leafOf (whitelistedUsers this) = Return lvs /\
    merkleTree this = Some (MerkleTree.new keccak256 lvs) /\
    merkleRoot this = Some (MerkleTree.getHexRoot (MerkleTree.new keccak256 lvs)).
Proof.
  unfold current. intros Hcur Hne.
  rewrite generateMerkleTree_nonempty in Hcur by assumption.
  destruct (mapC leafOf (whitelistedUsers this)) as [lvs|]; [|discriminate].
  simpl in Hcur. injection Hcur as Ht Hr. exists lvs. auto.
Qed.

Lemma current_empty (this : MerkleManager) :
  current this -> whitelistedUsers this = [] ->
  merkleTree this = None /\ merkleRoot this = Some ZERO_ROOT.
Proof.
  unfold current. intros Hcur Hw.
  rewrite generateMerkleTree_empty in Hcur by assumption.
  rewrite Hw in Hcur. injection Hcur as Ht Hr. auto.
Qed.

Lemma generate_returns_current (this this' : MerkleManager) :
  generateMerkleTree this = (Return tt, this') -> current this'.
Proof.
  intros Hg. unfold current. destruct (whitelistedUsers this) as [|e w] eqn:Hw.
  - rewrite generateMerkleTree_empty in Hg by assumption. injection Hg as <-.
    now rewrite generateMerkleTree_empty.
  - rewrite generateMerkleTree_nonempty in Hg by congruence.
    destruct (mapC leafOf (whitelistedUsers this)) as [lvs|] eqn:Hm; [|discriminate].
    simpl in Hg. injection Hg as <-.
    rewrite generateMerkleTree_nonempty by (simpl; congruence).
    simpl. now rewrite Hm.
Qed.

Lemma generate_throws_keeps (this : MerkleManager) (e : Exception) :
  fst (generateMerkleTree this) = Throw e ->
  merkleTree (snd (generateMerkleTree this)) = merkleTree this /\
  merkleRoot (snd (generateMerkleTree this)) = merkleRoot this.
Proof.
  destruct (whitelistedUsers this) as [|x w] eqn:Hw.
  - rewrite generateMerkleTree_empty by assumption. discriminate.
  - rewrite generateMerkleTree_nonempty by congruence.
    destruct (mapC leafOf (whitelistedUsers this)); simpl; [discriminate|auto].
Qed.

Lemma current_unique (this that : MerkleManager) :
  current this -> current that ->
  whitelistedUsers this = whitelistedUsers that ->
  merkleTree this = merkleTree that /\ merkleRoot this = merkleRoot that.
Proof.
  intros H1 H2 Hw. destruct (whitelistedUsers this) as [|e w] eqn:E.
  - destruct (current_empty this H1 E) as [-> ->].
    destruct (current_empty that H2 (eq_sym Hw)) as [-> ->]. auto.
  - destruct (current_nonempty this H1) as (l1 & M1 & -> & ->); [congruence|].
    destruct (current_nonempty that H2) as (l2 & M2 & -> & ->); [congruence|].
    rewrite E, Hw in M1. rewrite M1 in M2. injection M2 as <-. auto.
Qed.

(** [importWhitelist], unfolded. *)
Lemma importWhitelist_eq (d : WhitelistData) (this : MerkleManager) :
  importWhitelist d this =
    match users d with
    | None => (Throw (Error "Invalid whitelist data"), this)
    | Some us =>
        match generateMerkleTree
                (mkManager (imported us []) (merkleTree this) (merkleRoot this)
                           (rebuilds this)) with
        | (Return _, s') =>
            (Return (mkStats (Map_size (whitelistedUsers s')) (merkleRoot s')
                             (match merkleTree s' with Some _ => true | None => false end)),
             s')
        | (Throw e, s') => (Throw e, s')
        end
    end.
Proof.
  unfold importWhitelist. destruct (users d) as [us|]; [|reflexivity].
  unfold bind at 1. simpl. unfold bind at 1. rewrite forEach_importStep. simpl.
  unfold Object_entries, bind, getStats, get, ret.
  now destruct (generateMerkleTree _) as [[[]|e] s'].
Qed.

(** X1. On a current manager, [getMerkleProof] for every address that
    [isAddress] accepts and whose record has a truthy amount returns, leaves
    the manager as it is, and the proof it returns passes the self-check:
    [isValid] is true, for the stored amount and the current root. *)
Theorem member_proof_verifies (this : MerkleManager) (a : string) :
  current this ->
  isAddress a = true ->
  truthy (Map_get (toLowerCase a) (whitelistedUsers this)) = true ->
  exists r,
    getMerkleProof a this = (Return r, this) /\
    isValid r = true /\
    proof_user r = a /\
    proof_amount r = Map_get (toLowerCase a) (whitelistedUsers this) /\
    proof_merkleRoot r = merkleRoot this /\
    merkleRoot this <> None.
Proof.
  intros Hcur Ha Ht.
  destruct (Map_get_nth _ _ Ht) as [i Hi].
  destruct (current_nonempty this Hcur) as (lvs & Hm & Htree & Hroot).
  { intros C. rewrite C in Hi. now destruct i. }
  destruct (mapC_nth _ _ _ _ _ Hm Hi) as (lf & Hlf & Hnth).
  unfold getMerkleProof. rewrite Ha. exec. rewrite Ht, Htree. simpl.
  rewrite Hlf. simpl. rewrite Hroot.
  eexists. split; [reflexivity|]. simpl.
  split; [|repeat split; discriminate].
  apply proof_of_leaf_verifies. now apply nth_error_In in Hnth.
Qed.

(** X2. Whenever a mutating call returns after a rebuild, the manager is
    current (the tree and the root are those of the whitelist as it now
    is) and the root in the result is the manager's root: this holds for
    [addToWhitelist], for [removeFromWhitelist] when it removed a record,
    for [batchAddToWhitelist] when it wrote a record, and for
    [importWhitelist], whose statistics then count the whitelist and report
    a tree exactly when the whitelist is not empty. *)
Theorem returning_mutation_leaves_current (this this' : MerkleManager) :
  (forall a v r,
     addToWhitelist a v this = (Return r, this') ->
     current this' /\ add_merkleRoot r = merkleRoot this') /\
  (forall a r,
     removeFromWhitelist a this = (Return r, this') -> removed r = true ->
     current this' /\ remove_merkleRoot r = Some (merkleRoot this')) /\
  (forall us r,
     batchAddToWhitelist us this = (Return r, this') -> (0 < added r)%nat ->
     current this' /\ batch_merkleRoot r = merkleRoot this') /\
  (forall d stats,
     importWhitelist d this = (Return stats, this') ->
     current this' /\
     stats_merkleRoot stats = merkleRoot this' /\
     totalUsers stats = Map_size (whitelistedUsers this') /\
     hasTree stats = negb (Map_size (whitelistedUsers this') =? 0)%nat).
Proof.
  split; [|split; [|split]].
  - intros a v r H. unfold addToWhitelist in H.
    destruct (isAddress a); simpl in H; [|discriminate].
    destruct (truthy v); simpl in H; [|discriminate].
    destruct (strictEqStr v "0"); simpl in H; [discriminate|].
    unfold bind, get, ret, lift, set_whitelistedUsers in H. simpl in H.
    destruct (formatEther v); simpl in H; [|discriminate].
    destruct (generateMerkleTree _) as [[[]|e] s'] eqn:Hg; [|discriminate].
    injection H as <- <-. split; [|reflexivity].
    now apply generate_returns_current in Hg.
  - intros a r H Hr. unfold removeFromWhitelist, Map_delete in H.
    destruct (isAddress a); simpl in H; [|discriminate].
    unfold bind, get, ret, set_whitelistedUsers in H. simpl in H.
    destruct (Map_has _ _); simpl in H.
    + destruct (generateMerkleTree _) as [[[]|e] s'] eqn:Hg; [|discriminate].
      injection H as <- <-. split; [|reflexivity].
      now apply generate_returns_current in Hg.
    + injection H as <- <-. discriminate Hr.
  - intros us r H Hr.
    pose proof (batchAddToWhitelist_eq us this) as E. cbv zeta in E. rewrite E in H.
    destruct (filter passesValidation us) as [|u l].
    + injection H as <- <-. simpl in Hr. lia.
    + destruct (generateMerkleTree _) as [[[]|e] s'] eqn:Hg; [|discriminate].
      injection H as <- <-. split; [|reflexivity].
      now apply generate_returns_current in Hg.
  - intros d stats H. unfold importWhitelist in H.
    destruct (users d) as [us|]; [|discriminate].
    unfold bind at 1 in H. simpl in H. unfold bind at 1 in H.
    rewrite forEach_importStep in H. simpl in H.
    unfold bind, getStats, get, ret in H.
    destruct (generateMerkleTree _) as [[[]|e] s'] eqn:Hg; [|discriminate].
    injection H as <- <-. apply generate_returns_current in Hg.
    split; [exact Hg|]. split; [reflexivity|]. split; [reflexivity|]. simpl.
    destruct (whitelistedUsers s') as [|x w] eqn:Hw.
    + destruct (current_empty s' Hg Hw) as [-> _]. reflexivity.
    + destruct (current_nonempty s' Hg) as (lvs & _ & -> & _); [congruence|].
      reflexivity.
Qed.

(** X3. A call that throws never changes the tree or the root: after a
    thrown [addToWhitelist], [removeFromWhitelist], [batchAddToWhitelist],
    [importWhitelist] or [generateMerkleTree] both are what they were, so
    no half-built tree is ever stored (the whitelist, however, may already
    have been written). *)
Theorem throwing_call_keeps_tree_and_root (this : MerkleManager) (e : Exception) :
  (forall a v,
     fst (addToWhitelist a v this) = Throw e ->
     merkleTree (snd (addToWhitelist a v this)) = merkleTree this /\
     merkleRoot (snd (addToWhitelist a v this)) = merkleRoot this) /\
  (forall a,
     fst (removeFromWhitelist a this) = Throw e ->
     merkleTree (snd (removeFromWhitelist a this)) = merkleTree this /\
     merkleRoot (snd (removeFromWhitelist a this)) = merkleRoot this) /\
  (forall us,
     fst (batchAddToWhitelist us this) = Throw e ->
     merkleTree (snd (batchAddToWhitelist us this)) = merkleTree this /\
     merkleRoot (snd (batchAddToWhitelist us this)) = merkleRoot this) /\
  (forall d,
     fst (importWhitelist d this) = Throw e ->
     merkleTree (snd (importWhitelist d this)) = merkleTree this /\
     merkleRoot (snd (importWhitelist d this)) = merkleRoot this) /\
  (fst (generateMerkleTree this) = Throw e ->
   merkleTree (snd (generateMerkleTree this)) = merkleTree this /\
   merkleRoot (snd (generateMerkleTree this)) = merkleRoot this).
Proof.
  split; [|split; [|split; [|split]]].
  - intros a v. unfold addToWhitelist.
    destruct (isAddress a); simpl; [|auto].
    destruct (truthy v); simpl; [|auto].
    destruct (strictEqStr v "0"); simpl; [auto|].
    exec. destruct (formatEther v); simpl; [|auto].
    match goal with |- context [generateMerkleTree ?s] =>
      pose proof (generate_throws_keeps s) as Hk;
      destruct (generateMerkleTree s) as [[[]|e'] s'] end; simpl in *;
      [discriminate|]. intros _. eapply Hk; reflexivity.
  - intros a. unfold removeFromWhitelist, Map_delete.
    destruct (isAddress a); simpl; [|auto].
    exec. destruct (Map_has _ _); simpl; [|discriminate].
    match goal with |- context [generateMerkleTree ?s] =>
      pose proof (generate_throws_keeps s) as Hk;
      destruct (generateMerkleTree s) as [[[]|e'] s'] end; simpl in *;
      [discriminate|]. intros _. eapply Hk; reflexivity.
  - intros us.
    pose proof (batchAddToWhitelist_eq us this) as E. cbv zeta in E. rewrite E.
    destruct (filter passesValidation us) as [|u l]; [discriminate|].
    match goal with |- context [generateMerkleTree ?s] =>
      pose proof (generate_throws_keeps s) as Hk;
      destruct (generateMerkleTree s) as [[[]|e'] s'] end; simpl in *;
      [discriminate|]. intros _. eapply Hk; reflexivity.
  - intros d. rewrite importWhitelist_eq. destruct (users d) as [us|]; [|auto].
    match goal with |- context [generateMerkleTree ?s] =>
      pose proof (generate_throws_keeps s) as Hk;
      destruct (generateMerkleTree s) as [[[]|e'] s'] end; simpl in *;
      [discriminate|]. intros _. eapply Hk; reflexivity.
  - apply generate_throws_keeps.
Qed.

(** *** Lookups after a change *)

Lemma isWhitelisted_eq (a : string) (this : MerkleManager) :
  fst (isWhitelisted a this) =
    Return (isAddress a && Map_has (toLowerCase a) (whitelistedUsers this)).
Proof. unfold isWhitelisted. now destruct (isAddress a). Qed.

Lemma getUserAmount_eq (a : string) (this : MerkleManager) :
  fst (getUserAmount a this) =
    Return (if isAddress a && truthy (Map_get (toLowerCase a) (whitelistedUsers this))
            then Some (Map_get (toLowerCase a) (whitelistedUsers this)) else None).
Proof. unfold getUserAmount. now destruct (isAddress a). Qed.

Lemma not_the_string_zero (v : jsval) : v <> JString "0" -> strictEqStr v "0" = false.
Proof.
  destruct v as [|s]; [reflexivity|]. simpl. intros H.
  apply String.eqb_neq. congruence.
Qed.

(** X4. After any sequence of calls, [removeFromWhitelist] of an address
    [isAddress] accepts leaves that address out: [isWhitelisted] returns
    false for it, [getUserAmount] returns [null] and [getMerkleProof] throws
    'User not whitelisted'; the answers of [isWhitelisted] and
    [getUserAmount] for every address with another canonical form are what
    they were. *)
Theorem removed_member_is_gone (calls : list Call) (a : string) :
  isAddress a = true ->
  let this := execute calls in
  let this' := snd (removeFromWhitelist a this) in
  fst (isWhitelisted a this') = Return false /\
  fst (getUserAmount a this') = Return None /\
  fst (getMerkleProof a this') = Throw (Error "User not whitelisted") /\
  (forall b, toLowerCase b <> toLowerCase a ->
     fst (isWhitelisted b this') = fst (isWhitelisted b this) /\
     fst (getUserAmount b this') = fst (getUserAmount b this)).
Proof.
  intros Ha this this'.
  assert (Hw : whitelistedUsers this'
               = Map_remove (toLowerCase a) (whitelistedUsers this)).
  { subst this'. now rewrite remove_whitelist, Ha. }
  assert (Hgone : Map_has (toLowerCase a) (whitelistedUsers this') = false).
  { rewrite Hw. apply Map_has_remove_same. apply execute_NoDup. }
  pose proof (Map_get_absent _ _ Hgone) as Hget.
  split; [|split; [|split]].
  - now rewrite isWhitelisted_eq, Ha, Hgone.
  - now rewrite getUserAmount_eq, Hget, andb_false_r.
  - unfold getMerkleProof. rewrite Ha. exec. now rewrite Hget.
  - intros b Hb. rewrite !isWhitelisted_eq, !getUserAmount_eq, Hw.
    now rewrite Map_has_remove_other, Map_get_remove_other.
Qed.

(** X5. After [addToWhitelist] with an address [isAddress] accepts and an
    amount that passes the guard, whether the call returns or throws later,
    the record is stored: under every accepted spelling with the same
    canonical form [isWhitelisted] returns true and [getUserAmount] the
    amount; the answers for every other canonical form are what they were;
    and the whitelist has one more record exactly when the canonical
    address was not a member. *)
Theorem added_member_is_found (this : MerkleManager) (a : string) (v : jsval) :
  isAddress a = true -> truthy v = true -> v <> JString "0" ->
  let this' := snd (addToWhitelist a v this) in
  (forall b, isAddress b = true -> toLowerCase b = toLowerCase a ->
     fst (isWhitelisted b this') = Return true /\
     fst (getUserAmount b this') = Return (Some v)) /\
  (forall b, toLowerCase b <> toLowerCase a ->
     fst (isWhitelisted b this') = fst (isWhitelisted b this) /\
     fst (getUserAmount b this') = fst (getUserAmount b this)) /\
  Map_size (whitelistedUsers this')
  = (if Map_has (toLowerCase a) (whitelistedUsers this)
     then Map_size (whitelistedUsers this)
     else S (Map_size (whitelistedUsers this))).
Proof.
  intros Ha Ht Hz this'.
  assert (Hw : whitelistedUsers this'
               = Map_set (toLowerCase a) v (whitelistedUsers this)).
  { subst this'. now rewrite add_whitelist, Ha, Ht, (not_the_string_zero v Hz). }
  split; [|split].
  - intros b Hb Hsame. rewrite isWhitelisted_eq, getUserAmount_eq, Hw, Hb, Hsame.
    now rewrite Map_has_set, String.eqb_refl, Map_get_set_same, Ht.
  - intros b Hb. rewrite !isWhitelisted_eq, !getUserAmount_eq, Hw.
    rewrite Map_has_set, Map_get_set_other by assumption.
    apply String.eqb_neq in Hb. rewrite String.eqb_sym in Hb. now rewrite Hb.
  - rewrite Hw. apply Map_size_set.
Qed.

(** *** Batches and single insertions *)

Lemma adds_whitelist (us : list User) (this : MerkleManager) :
  whitelistedUsers
    (fold_left step (map (fun u => CallAdd (address u) (amount u)) us) this)
  = writeAll (filter passesValidation us) (whitelistedUsers this).
Proof.
  revert this. induction us as [|u us IH]; intros this; [reflexivity|].
  cbn [map fold_left filter]. rewrite IH. cbn [step]. rewrite add_whitelist.
  unfold passesValidation at 2. now destruct (isAddress (address u) && _ && _).
Qed.

(** X6. A batch writes the whitelist that adding its records one by one
    with [addToWhitelist] writes (thrown calls included), and whenever both
    ways end with a current manager the tree and the root are the same. *)
Theorem batch_is_sequence_of_adds (us : list User) (this : MerkleManager) :
  let one_by_one :=
    fold_left step (map (fun u => CallAdd (address u) (amount u)) us) this in
  let batch := snd (batchAddToWhitelist us this) in
  whitelistedUsers batch = whitelistedUsers one_by_one /\
  (current batch -> current one_by_one ->
   merkleTree batch = merkleTree one_by_one /\ merkleRoot batch = merkleRoot one_by_one).
Proof.
  intros one_by_one batch.
  assert (Hw : whitelistedUsers batch = whitelistedUsers one_by_one).
  { subst batch one_by_one. now rewrite batch_whitelist, adds_whitelist. }
  split; [exact Hw|]. intros H1 H2. now apply current_unique.
Qed.

(** *** Import *)

Lemma Map_has_imported (k : string) (es : list (string * jsval)) (w : Map) :
  Map_has k (imported es w)
  = existsb (fun e => isAddress (fst e) && (toLowerCase (fst e) =? k)%string) es
    || Map_has k w.
Proof.
  revert w. induction es as [|e es IH]; intros w; simpl; [reflexivity|].
  rewrite IH. destruct (isAddress (fst e)); simpl; [|reflexivity].
  rewrite Map_has_set.
  destruct (toLowerCase (fst e) =? k)%string; simpl; [now rewrite orb_true_r|reflexivity].
Qed.

(** X7. [importWhitelist] replaces the whitelist: when the data has no
    [users] it throws 'Invalid whitelist data' and changes nothing;
    otherwise, whether it returns or throws in the rebuild, an address that
    [isAddress] accepts is whitelisted afterwards exactly when the data
    holds an accepted address with the same canonical form, whatever the
    whitelist held before. *)
Theorem import_replaces_whitelist (this : MerkleManager) (d : WhitelistData) :
  (users d = None ->
   importWhitelist d this = (Throw (Error "Invalid whitelist data"), this)) /\
  (forall us a,
     users d = Some us -> isAddress a = true ->
     fst (isWhitelisted a (snd (importWhitelist d this)))
     = Return (existsb (fun e => isAddress (fst e)
                                 && (toLowerCase (fst e) =? toLowerCase a)%string) us)).
Proof.
  split.
  - intros H. unfold importWhitelist. now rewrite H.
  - intros us a Hus Ha. rewrite isWhitelisted_eq, Ha, import_whitelist, Hus.
    rewrite Map_has_imported. simpl. now rewrite orb_false_r.
Qed.

(** A second rebuild in a row has the outcome of the first and assigns the
    same tree and root. *)
Lemma generate_again (s : MerkleManager) :
  let s1 := snd (generateMerkleTree s) in
  fst (generateMerkleTree s1) = fst (generateMerkleTree s) /\
  merkleTree (snd (generateMerkleTree s1)) = merkleTree s1 /\
  merkleRoot (snd (generateMerkleTree s1)) = merkleRoot s1.
Proof.
  cbv zeta. destruct (whitelistedUsers s) as [|x w] eqn:Hw.
  - rewrite (generateMerkleTree_empty s Hw). cbn [snd fst].
    rewrite generateMerkleTree_empty by reflexivity. cbn [snd fst]. auto.
  - rewrite (generateMerkleTree_nonempty s) by congruence.
    destruct (mapC leafOf (whitelistedUsers s)) as [lvs|e] eqn:Hm; cbn [snd fst].
    + rewrite generateMerkleTree_nonempty by (cbn [whitelistedUsers]; congruence).
      cbn [whitelistedUsers]. rewrite Hm. cbn [snd fst]. auto.
    + rewrite generateMerkleTree_nonempty by (cbn [whitelistedUsers]; congruence).
      cbn [whitelistedUsers]. rewrite Hm. cbn [snd fst]. auto.
Qed.

(** X8. Importing the same data twice gives what importing it once gives:
    the same outcome (the same statistics, or the same exception), the same
    whitelist, tree and root. *)
Theorem import_twice_is_import_once (this : MerkleManager) (d : WhitelistData) :
  let once := importWhitelist d this in
  let twice := importWhitelist d (snd once) in
  fst twice = fst once /\
  whitelistedUsers (snd twice) = whitelistedUsers (snd once) /\
  merkleTree (snd twice) = merkleTree (snd once) /\
  merkleRoot (snd twice) = merkleRoot (snd once).
Proof.
  cbv zeta. rewrite (importWhitelist_eq d this).
  destruct (users d) as [us|] eqn:Hus.
  - set (s0 := mkManager (imported us []) (merkleTree this) (merkleRoot this)
                         (rebuilds this)).
    pose proof (generate_again s0) as Hagain. cbv zeta in Hagain.
    pose proof (generateMerkleTree_whitelist s0) as Hw0.
    destruct (generateMerkleTree s0) as [c s1]. cbn [snd fst] in *.
    destruct c as [[]|e]; cbn [snd fst].
    + rewrite importWhitelist_eq, Hus.
      replace (mkManager (imported us []) (merkleTree s1) (merkleRoot s1) (rebuilds s1))
        with s1 by (rewrite <- (manager_eta s1) at 1; now rewrite Hw0).
      destruct Hagain as (Hf & Ht & Hr).
      pose proof (generateMerkleTree_whitelist s1) as Hw1.
      destruct (generateMerkleTree s1) as [c2 s2]. cbn [snd fst] in *. subst c2.
      cbn [snd fst]. rewrite Ht, Hr, Hw1. auto.
    + rewrite importWhitelist_eq, Hus.
      replace (mkManager (imported us []) (merkleTree s1) (merkleRoot s1) (rebuilds s1))
        with s1 by (rewrite <- (manager_eta s1) at 1; now rewrite Hw0).
      destruct Hagain as (Hf & Ht & Hr).
      pose proof (generateMerkleTree_whitelist s1) as Hw1.
      destruct (generateMerkleTree s1) as [c2 s2]. cbn [snd fst] in *. subst c2.
      cbn [snd fst]. auto.
  - cbn [snd fst]. unfold importWhitelist. rewrite Hus. cbn [snd fst]. auto.
Qed.

(** *** The tree and the root go together *)

Lemma generate_no_tree_root (this : MerkleManager) :
  (merkleTree this = None -> merkleRoot this = None \/ merkleRoot this = Some ZERO_ROOT) ->
  merkleTree (snd (generateMerkleTree this)) = None ->
  merkleRoot (snd (generateMerkleTree this)) = None
  \/ merkleRoot (snd (generateMerkleTree this)) = Some ZERO_ROOT.
Proof.
  intros H. destruct (whitelistedUsers this) as [|x w] eqn:Hw.
  - rewrite generateMerkleTree_empty by assumption. cbn [snd merkleRoot]. auto.
  - rewrite generateMerkleTree_nonempty by congruence.
    destruct (mapC leafOf (whitelistedUsers this)); cbn [snd merkleTree merkleRoot].
    + discriminate.
    + exact H.
Qed.

Lemma execute_no_tree_root (calls : list Call) :
  merkleTree (execute calls) = None ->
  merkleRoot (execute calls) = None \/ merkleRoot (execute calls) = Some ZERO_ROOT.
Proof.
  unfold execute.
  assert (G : forall this,
             (merkleTree this = None ->
              merkleRoot this = None \/ merkleRoot this = Some ZERO_ROOT) ->
             merkleTree (fold_left step calls this) = None ->
             merkleRoot (fold_left step calls this) = None
             \/ merkleRoot (fold_left step calls this) = Some ZERO_ROOT).
  { induction calls as [|c calls IH]; intros this H; simpl; [assumption|].
    apply IH. destruct (step_shape this c) as [w [-> | ->]].
    - exact H.
    - apply generate_no_tree_root. exact H. }
  apply G. intros _. now left.
Qed.

(** X9. After any sequence of calls the tree and the root go together:
    when there is a tree the root is the hexadecimal form of that tree's
    root, and when there is none the root is [null] or the zero sentinel.
    So [getMerkleProof] throws only 'Invalid address format',
    'User not whitelisted', 'Merkle tree not generated', or what computing
    the leaf throws. *)
Theorem tree_and_root_go_together (calls : list Call) :
  let this := execute calls in
  (forall tree, merkleTree this = Some tree ->
     merkleRoot this = Some (MerkleTree.getHexRoot tree)) /\
  (merkleTree this = None ->
     merkleRoot this = None \/ merkleRoot this = Some ZERO_ROOT) /\
  (forall a e,
     fst (getMerkleProof a this) = Throw e ->
     e = Error "Invalid address format" \/
     e = Error "User not whitelisted" \/
     e = Error "Merkle tree not generated" \/
     leafOf (toLowerCase a, Map_get (toLowerCase a) (whitelistedUsers this)) = Throw e).
Proof.
  intros this. split; [|split].
  - intros tree Ht. now destruct (execute_treeBuilt calls tree Ht) as (_ & _ & Hr).
  - apply execute_no_tree_root.
  - intros a e. unfold getMerkleProof.
    destruct (isAddress a); simpl; [|intros [= <-]; auto].
    exec. destruct (truthy _); simpl; [|intros [= <-]; auto].
    destruct (merkleTree this) as [tree|] eqn:Ht; [|intros [= <-]; auto].
    destruct (leafOf _) as [lf|e'] eqn:Hl; simpl; [|intros [= <-]; auto].
    destruct (execute_treeBuilt calls tree Ht) as (_ & _ & Hr).
    fold this in Hr. rewrite Hr. discriminate.
Qed.

(** *** The length of a proof *)

Lemma collect_length (hashFn : bytes -> bytes) (fuel : nat) (nodes : list bytes) (idx : nat) :
  (List.length nodes <= fuel)%nat -> (idx < List.length nodes)%nat ->
  (List.length (MerkleTree.collect (nodes :: MerkleTree.createHashes hashFn fuel nodes) idx)
   <= List.length (MerkleTree.createHashes hashFn fuel nodes))%nat.
Proof.
  revert nodes idx. induction fuel as [|fuel IH]; intros nodes idx Hlen Hidx.
  - lia.
  - cbn [MerkleTree.createHashes].
    destruct (Nat.leb_spec (List.length nodes) 1) as [Hle|Hgt].
    + assert (idx = 0)%nat as -> by lia.
      destruct nodes as [|y [|z rest]]; simpl in *; lia.
    + set (next := MerkleTree.nextLayer hashFn nodes).
      pose proof (nextLayer_length hashFn nodes) as Hn. fold next in Hn.
      pose proof (Nat.div2_odd (S (List.length nodes))) as Hd.
      pose proof (Nat.div2_odd idx) as Hi.
      assert (Hnext : (List.length next <= fuel)%nat /\ (Nat.div2 idx < List.length next)%nat).
      { rewrite Hn. destruct (Nat.odd (S (List.length nodes))), (Nat.odd idx);
          simpl Nat.b2n in *; lia. }
      destruct Hnext as [Hnf Hni]. specialize (IH next (Nat.div2 idx) Hnf Hni).
      set (up := MerkleTree.collect (next :: MerkleTree.createHashes hashFn fuel next)
                                    (Nat.div2 idx)) in *.
      change (MerkleTree.collect
                (nodes :: next :: MerkleTree.createHashes hashFn fuel next) idx)
        with (match nth_error nodes (if Nat.odd idx then (idx - 1)%nat else (idx + 1)%nat) with
              | Some sibling => sibling :: up
              | None => up
              end).
      cbn [List.length].
      destruct (nth_error nodes _); cbn [List.length]; lia.
Qed.

Lemma layers_bound (hashFn : bytes -> bytes) (fuel : nat) (nodes : list bytes) :
  (List.length nodes <= fuel)%nat -> (1 <= List.length nodes)%nat ->
  (2 ^ List.length (MerkleTree.createHashes hashFn fuel nodes) < 2 * List.length nodes)%nat.
Proof.
  assert (G : forall fuel nodes,
             (List.length nodes <= fuel)%nat -> (1 <= List.length nodes)%nat ->
             (List.length nodes = 1 ->
              List.length (MerkleTree.createHashes hashFn fuel nodes) = 0)%nat /\
             (2 <= List.length nodes ->
              2 ^ List.length (MerkleTree.createHashes hashFn fuel nodes)
              <= 2 * List.length nodes - 2)%nat).
  { clear fuel nodes. induction fuel as [|fuel IH]; intros nodes Hlen Hone; [lia|].
    cbn [MerkleTree.createHashes].
    destruct (Nat.leb_spec (List.length nodes) 1) as [Hle|Hgt].
    - split; [reflexivity|lia].
    - split; [lia|]. intros _.
      set (next := MerkleTree.nextLayer hashFn nodes).
      pose proof (nextLayer_length hashFn nodes) as Hn. fold next in Hn.
      pose proof (Nat.div2_odd (S (List.length nodes))) as Hd.
      assert (Hb : (List.length next <= fuel /\ 1 <= List.length next
                    /\ 2 * List.length next <= List.length nodes + 1)%nat).
      { rewrite Hn. destruct (Nat.odd (S (List.length nodes))); simpl Nat.b2n in *; lia. }
      destruct Hb as (Hnf & Hn1 & Hn2).
      destruct (IH next Hnf Hn1) as [H1 H2].
      cbn [List.length]. rewrite Nat.pow_succ_r'.
      destruct (Nat.eq_dec (List.length next) 1) as [E|E].
      + rewrite (H1 E). simpl. lia.
      + assert (2 <= List.length next)%nat by lia. specialize (H2 H). lia. }
  intros Hlen Hone. destruct (G fuel nodes Hlen Hone) as [H1 H2].
  destruct (Nat.eq_dec (List.length nodes) 1) as [E|E].
  - rewrite (H1 E). simpl. lia.
  - assert (2 <= List.length nodes)%nat by lia. specialize (H2 H). lia.
Qed.

Lemma mapC_length {A B} (f : A -> completion B) (xs : list A) (ys : list B) :
  mapC f xs = Return ys -> List.length ys = List.length xs.
Proof.
  revert ys. induction xs as [|x xs IH]; intros ys; simpl.
  - now intros [= <-].
  - destruct (f x); [|discriminate]. destruct (mapC f xs) as [ys'|]; [|discriminate].
    intros [= <-]. simpl. now rewrite (IH ys').
Qed.

(** X10. On a current manager with [n] records, every proof that
    [getMerkleProof] returns has at most the base-2 logarithm of [n],
    rounded up, sibling hashes: [2 ^ length < 2 * n]. *)
Theorem proof_length_is_logarithmic (this : MerkleManager) (a : string) (r : ProofResult) :
  current this ->
  fst (getMerkleProof a this) = Return r ->
  (2 ^ List.length (proof r) < 2 * Map_size (whitelistedUsers this))%nat.
Proof.
  intros Hcur Hr.
  destruct (getMerkleProof_returns _ _ _ Hr) as (t & root & lf & _ & Ht & Htree & _ & _ & ->).
  destruct (Map_get_nth _ _ Ht) as [i Hi].
  destruct (current_nonempty this Hcur) as (lvs & Hm & Htree' & _).
  { intros C. rewrite C in Hi. now destruct i. }
  rewrite Htree in Htree'. injection Htree' as ->.
  cbn [proof]. unfold MerkleTree.getHexProof. rewrite length_map.
  unfold Map_size. rewrite <- (mapC_length _ _ _ Hm).
  assert (Hone : (1 <= List.length lvs)%nat).
  { rewrite (mapC_length _ _ _ Hm).
    assert (i < List.length (whitelistedUsers this))%nat
      by (apply nth_error_Some; congruence).
    lia. }
  unfold MerkleTree.getProof.
  change (MerkleTree.leaves (MerkleTree.new keccak256 lvs)) with lvs.
  change (MerkleTree.layers (MerkleTree.new keccak256 lvs))
    with (lvs :: MerkleTree.createHashes keccak256 (List.length lvs) lvs).
  destruct (MerkleTree.findIndex lf lvs 0 None) as [idx|] eqn:Hf.
  - apply findIndex_found in Hf. destruct Hf as [Hf | [_ Hn]]; [discriminate|].
    rewrite Nat.sub_0_r in Hn.
    assert (Hidx : (idx < List.length lvs)%nat) by (apply nth_error_Some; congruence).
    pose proof (collect_length keccak256 _ lvs idx (le_n _) Hidx) as Hc.
    pose proof (layers_bound keccak256 _ lvs (le_n _) Hone) as Hb.
    eapply Nat.le_lt_trans; [|exact Hb]. apply Nat.pow_le_mono_r; lia.
  - simpl. lia.
Qed.

(** *** The list of members *)

Lemma mapC_throws_iff {A B} (f : A -> completion B) (xs : list A) :
  (exists e, mapC f xs = Throw e) <-> (exists x e, In x xs /\ f x = Throw e).
Proof.
  induction xs as [|x xs IH]; simpl.
  - split; [intros [e H]; discriminate | intros (x & e & [] & _)].
  - destruct (f x) as [y|e0] eqn:Hx.
    + destruct (mapC f xs) as [ys|e1].
      * split; [intros [e H]; discriminate|].
        intros (x' & e & [<-|Hin] & He); [congruence|].
        destruct (proj2 IH) as [e' He']; [now exists x', e|discriminate].
      * split; [|intros _; now exists e1].
        intros _. destruct (proj1 IH) as (x' & e & Hin & He); [now exists e1|].
        exists x', e. auto.
    + split; [|intros _; now exists e0]. intros _. exists x, e0. auto.
Qed.

Lemma mapC_userInfo (w : Map) (l : list UserInfo) :
  mapC userInfoOf w = Return l ->
  map (fun i => (info_address i, info_amount i)) l = w /\
  Forall (fun i => formatEther (info_amount i) = Return (amountETH i)) l.
Proof.
  revert l. induction w as [|[k v] w IH]; intros l; simpl.
  - intros [= <-]. split; [reflexivity|constructor].
  - unfold userInfoOf at 1. simpl.
    destruct (formatEther v) as [eth|] eqn:Hv; [|discriminate].
    destruct (mapC userInfoOf w) as [l'|]; [|discriminate].
    intros [= <-]. destruct (IH l' eq_refl) as [Hm Hf].
    split; [simpl; now rewrite Hm|]. constructor; [exact Hv|exact Hf].
Qed.

(** X11. [getAllWhitelistedUsers] never changes the manager.  When it
    returns, the array lists the records of the whitelist in insertion
    order, as many as [getStats] counts, each with its amount formatted by
    [formatEther]; it throws exactly when [formatEther] throws on the amount
    of some record. *)
Theorem all_users_lists_the_whitelist (this : MerkleManager) :
  snd (getAllWhitelistedUsers this) = this /\
  (forall l,
     fst (getAllWhitelistedUsers this) = Return l ->
     map (fun i => (info_address i, info_amount i)) l = whitelistedUsers this /\
     Forall (fun i => formatEther (info_amount i) = Return (amountETH i)) l /\
     fst (getStats this)
     = Return (mkStats (List.length l) (merkleRoot this)
                       (match merkleTree this with Some _ => true | None => false end))) /\
  ((exists e, fst (getAllWhitelistedUsers this) = Throw e) <->
   (exists entry e, In entry (whitelistedUsers this) /\ formatEther (snd entry) = Throw e)).
Proof.
  unfold getAllWhitelistedUsers, Map_entries. exec.
  split; [reflexivity|]. split.
  - intros l Hl. destruct (mapC_userInfo _ _ Hl) as [Hm Hf].
    split; [exact Hm|]. split; [exact Hf|].
    unfold getStats. exec. unfold Map_size. rewrite <- Hm at 1. now rewrite length_map.
  - rewrite mapC_throws_iff. split.
    + intros (x & e & Hin & He). exists x, e. split; [exact Hin|].
      unfold userInfoOf in He. destruct (formatEther (snd x)); [discriminate|congruence].
    + intros (x & e & Hin & He). exists x, e. split; [exact Hin|].
      unfold userInfoOf. now rewrite He.
Qed.

End MoreProperties.

(* ================================================================== *)
(** ** Further properties of the manager with [ethers] and [keccak256] *)

(** *** A digest has 32 bytes *)

Lemma iota_length (rc : N) (a : Keccak.lanes) :
  List.length (Keccak.iota rc a) = List.length a.
Proof. now destruct a. Qed.

Lemma round_length (a : Keccak.lanes) (rc : N) :
  List.length (Keccak.round a rc) = 25%nat.
Proof.
  unfold Keccak.round. rewrite iota_length. unfold Keccak.chi, Keccak.positions.
  now rewrite length_map, length_seq.
Qed.

Lemma keccak_f_length (a : Keccak.lanes) :
  List.length a = 25%nat -> List.length (Keccak.keccak_f a) = 25%nat.
Proof.
  unfold Keccak.keccak_f. generalize Keccak.roundConstants as rcs. intros rcs. revert a.
  induction rcs as [|rc rcs IH]; intros a Ha; [exact Ha|].
  cbn [fold_left]. apply IH, round_length.
Qed.

Lemma xorInto_length (a : Keccak.lanes) (b : list N) :
  List.length (Keccak.xorInto a b) = List.length a.
Proof.
  revert b. induction a as [|x a IH]; intros [|y b]; cbn [Keccak.xorInto List.length];
    try reflexivity.
  now rewrite IH.
Qed.

Lemma absorb_length (blocks : nat) (data : bytes) (a : Keccak.lanes) :
  List.length a = 25%nat -> List.length (Keccak.absorb blocks data a) = 25%nat.
Proof.
  revert data a. induction blocks as [|blocks IH]; intros data a Ha; [exact Ha|].
  cbn [Keccak.absorb]. apply IH, keccak_f_length. now rewrite xorInto_length.
Qed.

Lemma bytesOfLane_length (n : nat) (v : N) : List.length (Keccak.bytesOfLane n v) = n.
Proof.
  revert v. induction n as [|n IH]; intros v; [reflexivity|].
  cbn [Keccak.bytesOfLane List.length]. now rewrite IH.
Qed.

Lemma keccak256_length (msg : bytes) : List.length (Keccak.keccak256 msg) = 32%nat.
Proof.
  unfold Keccak.keccak256.
  pose proof (absorb_length (List.length (Keccak.pad msg) / Keccak.rate) (Keccak.pad msg)
                            (repeat 0%N 25) (repeat_length _ _)) as H.
  revert H. generalize (Keccak.absorb (List.length (Keccak.pad msg) / Keccak.rate)
                                      (Keccak.pad msg) (repeat 0%N 25)).
  intros a H.
  destruct a as [|a0 [|a1 [|a2 [|a3 rest]]]]; try discriminate.
  cbn [firstn map List.concat]. rewrite !length_app, !bytesOfLane_length. reflexivity.
Qed.

(** *** The shape of the root *)

Section RootShape.

Context {lib : Libraries}.

Variable P : bytes -> Prop.

Hypothesis hashed : forall m, P (keccak256 m).

Lemma nextLayer_Forall (nodes : list bytes) :
  Forall P nodes -> Forall P (MerkleTree.nextLayer keccak256 nodes).
Proof.
  assert (G : forall nodes,
             (Forall P nodes -> Forall P (MerkleTree.nextLayer keccak256 nodes)) /\
             (forall x, Forall P (x :: nodes) ->
                        Forall P (MerkleTree.nextLayer keccak256 (x :: nodes)))).
  { clear nodes. induction nodes as [|y rest [IH1 IH2]].
    - split; [intros _; constructor|]. intros x H. exact H.
    - split; [apply IH2|]. intros x H. cbn [MerkleTree.nextLayer].
      constructor; [apply hashed|]. apply IH1.
      inversion H as [|? ? _ H']. now inversion H'. }
  apply G.
Qed.

Lemma layers_Forall (fuel : nat) (nodes : list bytes) :
  Forall P nodes ->
  Forall (Forall P) (nodes :: MerkleTree.createHashes keccak256 fuel nodes).
Proof.
  revert nodes. induction fuel as [|fuel IH]; intros nodes H.
  - constructor; [exact H|constructor].
  - constructor; [exact H|]. cbn [MerkleTree.createHashes].
    destruct (List.length nodes <=? 1)%nat; [constructor|].
    apply IH, nextLayer_Forall, H.
Qed.

Lemma last_Forall {A} (Q : A -> Prop) (l : list A) (d : A) :
  Q d -> Forall Q l -> Q (last l d).
Proof.
  intros Hd. induction l as [|x l IH]; intros H; [exact Hd|].
  inversion H as [|? ? Hx Hl]. destruct l as [|y l]; [exact Hx|]. now apply IH.
Qed.

Lemma mapC_leafOf_Forall (w : Map) (lvs : list bytes) :
  mapC leafOf w = Return lvs -> Forall P lvs.
Proof.
  revert lvs. induction w as [|x w IH]; intros lvs; simpl.
  - intros [= <-]. constructor.
  - unfold leafOf at 1. destruct (solidityPack (fst x) (snd x)); [|discriminate].
    destruct (mapC leafOf w) as [lvs'|]; [|discriminate].
    intros [= <-]. constructor; [apply hashed|now apply IH].
Qed.

Lemma generate_rootShape (this : MerkleManager) :
  rootShape P this -> rootShape P (snd (generateMerkleTree this)).
Proof.
  intros H. destruct (whitelistedUsers this) as [|x w] eqn:Hw.
  - rewrite generateMerkleTree_empty by assumption. right. left. reflexivity.
  - rewrite generateMerkleTree_nonempty by congruence.
    destruct (mapC leafOf (whitelistedUsers this)) as [lvs|e] eqn:Hm;
      cbn [snd]; [|exact H].
    right. right. cbn [merkleRoot].
    pose proof (mapC_leafOf_Forall _ _ Hm) as Hall.
    pose proof (mapC_length _ _ _ Hm) as Hlen.
    destruct (createHashes_top keccak256 (List.length lvs) lvs) as [root Hroot].
    { intros C. rewrite C, Hw in Hlen. discriminate. }
    { apply le_n. }
    pose proof (last_Forall (Forall P) _ [] (Forall_nil P)
                            (layers_Forall (List.length lvs) lvs Hall)) as Hl.
    rewrite Hroot in Hl. inversion Hl as [|? ? Hr _].
    exists root. split; [exact Hr|].
    unfold MerkleTree.getHexRoot, MerkleTree.getRoot, MerkleTree.new, MerkleTree.bufferToHex.
    cbn [MerkleTree.layers]. now rewrite Hroot.
Qed.

Lemma execute_rootShape (calls : list Call) : rootShape P (execute calls).
Proof.
  unfold execute.
  assert (G : forall this, rootShape P this -> rootShape P (fold_left step calls this)).
  { induction calls as [|c calls IH]; intros this H; simpl; [assumption|].
    apply IH. destruct (step_shape this c) as [w [-> | ->]].
    - exact H.
    - apply generate_rootShape. exact H. }
  apply G. now left.
Qed.

End RootShape.

Lemma hexOfBytes_length (b : bytes) :
  String.length (hexOfBytes b) = (2 * List.length b)%nat.
Proof.
  induction b as [|x b IH]; [reflexivity|].
  change (hexOfBytes (x :: b))
    with (String (hexChar (Byte.to_N x / 16))
            (String (hexChar (Byte.to_N x mod 16)) (hexOfBytes b))).
  cbn [String.length List.length]. rewrite IH. lia.
Qed.

(** X12. On the manager with [ethers] and [keccak256], after any sequence of
    calls [getCurrentMerkleRoot] changes nothing and returns [null] or a
    string of 66 characters: [0x] followed by the 64 hexadecimal digits of
    32 bytes. *)
Theorem root_is_null_or_32_bytes (calls : list Call) :
  let this := execute (lib := node_modules) calls in
  exists r,
    getCurrentMerkleRoot this = (Return r, this) /\
    match r with
    | None => True
    | Some root =>
        String.length root = 66%nat /\
        exists b, List.length b = 32%nat /\ root = ("0x" ++ hexOfBytes b)%string /\
                  forallb_string isHexDigit (hexOfBytes b) = true
    end.
Proof.
  intros this. exists (merkleRoot this). split; [reflexivity|].
  destruct (execute_rootShape (lib := node_modules)
              (fun b => List.length b = 32%nat) keccak256_length calls)
    as [H | [H | (b & Hb & H)]]; fold this in H; rewrite H; [exact I| |].
  - split; [reflexivity|]. exists (repeat x00 32).
    split; [reflexivity|]. split; reflexivity.
  - split.
    + change (String.length ("0x" ++ hexOfBytes b)%string)
        with (S (S (String.length (hexOfBytes b)))).
      rewrite hexOfBytes_length, Hb. reflexivity.
    + exists b. split; [exact Hb|]. split; [reflexivity|]. apply hexOfBytes_digits.
Qed.

(** *** Addresses and property names *)

Lemma isHex40_length (s : string) : Ethers.isHex40 s = true -> String.length s = 40%nat.
Proof.
  unfold Ethers.isHex40. intros H. apply andb_true_iff in H. destruct H as [H _].
  now apply Nat.eqb_eq in H.
Qed.

Lemma isHexAddressShape_cases (a : string) :
  Ethers.isHexAddressShape a = Ethers.isHex40 a \/
  exists digits, a = String "0" (String "x" digits)
                 /\ Ethers.isHexAddressShape a = Ethers.isHex40 digits.
Proof.
  destruct a as [|c0 [|c1 a']]; [now left| |].
  - left. destruct c0 as [[] [] [] [] [] [] [] []]; reflexivity.
  - destruct c0 as [[] [] [] [] [] [] [] []]; try (left; reflexivity).
    destruct c1 as [[] [] [] [] [] [] [] []]; try (left; reflexivity).
    right. exists a'. split; reflexivity.
Qed.

Lemma isAddress_length (a : string) :
  Ethers.isAddress a = true -> (34 <= String.length a)%nat.
Proof.
  unfold Ethers.isAddress.
  destruct (Ethers.isHexAddressShape a) eqn:Hs.
  - intros _. destruct (isHexAddressShape_cases a) as [E | (digits & -> & E)];
      rewrite E in Hs; apply isHex40_length in Hs.
    + lia.
    + cbn [String.length]. lia.
  - destruct (Ethers.isIcapShape a) eqn:Hi; [|discriminate]. intros _.
    unfold Ethers.isIcapShape in Hi.
    apply andb_true_iff in Hi. destruct Hi as [Hi _].
    apply andb_true_iff in Hi. destruct Hi as [_ Hi].
    apply orb_true_iff in Hi. destruct Hi as [Hi | Hi]; apply Nat.eqb_eq in Hi; lia.
Qed.

Lemma arrayIndex_long (k : string) : (10 < String.length k)%nat -> arrayIndex k = None.
Proof.
  intros H. unfold arrayIndex. destruct k as [|c rest]; [reflexivity|].
  destruct (Nat.leb_spec (String.length (String c rest)) 10) as [Hle|_]; [lia|].
  now rewrite andb_false_r.
Qed.

(** X13. On the manager with [ethers] and [keccak256], after any sequence of
    calls [exportWhitelist] changes nothing and its [users] object lists
    exactly the records of the whitelist, in insertion order, beside the
    current root and the time stamp: no key of the whitelist is an array
    index, which [Object.fromEntries] would move to the front, and none
    occurs twice. *)
Theorem export_lists_the_whitelist (calls : list Call) (now : string) :
  let this := execute (lib := node_modules) calls in
  exportWhitelist now this
  = (Return (mkData (Some (whitelistedUsers this)) (merkleRoot this) now), this).
Proof.
  intros this. unfold exportWhitelist, bind, get, ret, Map_entries. cbn [fst snd].
  rewrite Object_fromEntries_same; [reflexivity| |].
  - apply execute_NoDup.
  - pose proof (execute_canonicalKeys (lib := node_modules) calls) as Hk.
    unfold canonicalKeys in Hk. fold this in Hk.
    eapply Forall_impl; [|exact Hk]. intros k (a & Ha & ->).
    apply arrayIndex_long. rewrite toLowerCase_length.
    apply isAddress_length in Ha. lia.
Qed.

(** *** An address without its prefix *)

Lemma hexDigit_not_x (c : ascii) :
  isHexDigit c = true -> Ascii.eqb (lowerChar c) "x" = false.
Proof.
  destruct c as [[] [] [] [] [] [] [] []]; vm_compute; intros H;
    first [reflexivity | discriminate H].
Qed.

Lemma hex40_head (d : string) :
  Ethers.isHex40 d = true ->
  exists c0 c1 rest, d = String c0 (String c1 rest) /\ isHexDigit c1 = true.
Proof.
  intros H. pose proof (isHex40_length d H) as Hlen.
  unfold Ethers.isHex40 in H. apply andb_true_iff in H. destruct H as [_ H].
  destruct d as [|c0 [|c1 rest]]; try discriminate.
  exists c0, c1, rest. split; [reflexivity|].
  cbn [forallb_string] in H.
  apply andb_true_iff in H. destruct H as [_ H].
  apply andb_true_iff in H. now destruct H as [H _].
Qed.

Lemma lowerChar_of_x (c : ascii) : c = "x"%char -> Ascii.eqb (lowerChar c) "x" = true.
Proof. intros ->. reflexivity. Qed.

Lemma unprefixed_isAddress (d : string) :
  Ethers.isHex40 d = true -> Ethers.mixedCase d = false -> Ethers.isAddress d = true.
Proof.
  intros Hd Hm. destruct (hex40_head d Hd) as (c0 & c1 & rest & E & H1).
  pose proof (hexDigit_not_x c1 H1) as Hx.
  assert (Hne : forall digits, d <> String "0" (String "x" digits)).
  { intros digits C. rewrite E in C. injection C as _ C _.
    rewrite (lowerChar_of_x c1 C) in Hx. discriminate. }
  unfold Ethers.isAddress.
  destruct (isHexAddressShape_cases d) as [Es | (digits & C & _)];
    [|now elim (Hne digits)].
  rewrite Es, Hd.
  assert (Hsub : (substring 0 2 d =? "0x")%string = false).
  { apply String.eqb_neq. rewrite E. cbn [substring]. intros C.
    injection C as _ C. rewrite (lowerChar_of_x c1 C) in Hx. discriminate. }
  rewrite Hsub.
  change (Ethers.mixedCase ("0x" ++ d)%string) with (Ethers.mixedCase d).
  now rewrite Hm.
Qed.

Lemma unprefixed_leaf (d : string) (v : jsval) :
  Ethers.isHex40 d = true ->
  leafOf (lib := node_modules) (toLowerCase d, v)
  = Throw (LibraryError "invalid arrayify value").
Proof.
  intros Hd. destruct (hex40_head d Hd) as (c0 & c1 & rest & E & H1).
  pose proof (hexDigit_not_x c1 H1) as Hx.
  assert (Hhex : Ethers.isHexString (toLowerCase d) = false).
  { destruct (Ethers.isHexString (toLowerCase d)) eqn:Hh; [|reflexivity].
    apply isHexString_shape in Hh. destruct Hh as (digits & Hk & _).
    rewrite E in Hk. cbn [toLowerCase] in Hk. injection Hk as _ C _.
    rewrite C in Hx. discriminate. }
  unfold leafOf. cbn [fst snd solidityPack node_modules].
  unfold Ethers.solidityPack, Ethers.arrayify. now rewrite Hhex.
Qed.

Lemma Map_has_entry (k : string) (m : Map) :
  Map_has k m = true -> exists v, In (k, v) m.
Proof.
  induction m as [|[k' v'] m IH]; simpl; [discriminate|].
  destruct (String.eqb_spec k' k) as [->|Hne].
  - intros _. exists v'. now left.
  - simpl. intros H. destruct (IH H) as [v Hv]. exists v. now right.
Qed.

(** X14. On the manager with [ethers] and [keccak256], a string of 40
    hexadecimal digits without the [0x] prefix (not in mixed case) is
    accepted by [isAddress], but the leaf of its record cannot be computed:
    [solidityPack] throws on the unprefixed key.  So [addToWhitelist] of such
    an address with an amount that passes the guard throws after it has
    stored the record, the tree and the root stay as they were, and as long
    as the record is in the whitelist every rebuild throws and leaves the
    tree and the root stale. *)
Theorem unprefixed_address_blocks_rebuilds (d : string) :
  Ethers.isHex40 d = true -> Ethers.mixedCase d = false ->
  isAddress (Libraries := node_modules) d = true /\
  (forall this v,
     truthy v = true -> v <> JString "0" ->
     let out := addToWhitelist (lib := node_modules) d v this in
     (exists e, fst out = Throw e) /\
     whitelistedUsers (snd out) = Map_set (toLowerCase d) v (whitelistedUsers this) /\
     merkleTree (snd out) = merkleTree this /\
     merkleRoot (snd out) = merkleRoot this) /\
  (forall this,
     Map_has (toLowerCase d) (whitelistedUsers this) = true ->
     let out := generateMerkleTree (lib := node_modules) this in
     (exists e, fst out = Throw e) /\
     whitelistedUsers (snd out) = whitelistedUsers this /\
     merkleTree (snd out) = merkleTree this /\
     merkleRoot (snd out) = merkleRoot this).
Proof.
  intros Hd Hm.
  pose proof (unprefixed_isAddress d Hd Hm) as Hvalid.
  assert (Hgen : forall this,
             Map_has (toLowerCase d) (whitelistedUsers this) = true ->
             exists e,
               generateMerkleTree (lib := node_modules) this
               = (Throw e, mkManager (whitelistedUsers this) (merkleTree this)
                                     (merkleRoot this) (S (rebuilds this)))).
  { intros this Hin. destruct (Map_has_entry _ _ Hin) as [v Hv].
    rewrite generateMerkleTree_nonempty
      by (intros C; rewrite C in Hv; contradiction).
    destruct (proj2 (mapC_throws_iff (leafOf (lib := node_modules)) (whitelistedUsers this)))
      as [e He].
    { exists (toLowerCase d, v), (LibraryError "invalid arrayify value").
      split; [exact Hv|]. now apply unprefixed_leaf. }
    exists e. now rewrite He. }
  split; [exact Hvalid|]. split.
  - intros this v Hv Hz out.
    assert (Hout : exists e n,
               out = (Throw e, mkManager (Map_set (toLowerCase d) v (whitelistedUsers this))
                                         (merkleTree this) (merkleRoot this) n)).
    { subst out. unfold addToWhitelist.
      change (isAddress d) with (Ethers.isAddress d). rewrite Hvalid, Hv.
      assert (Hs : strictEqStr v "0" = false).
      { destruct v as [|s]; [reflexivity|]. unfold strictEqStr.
        apply String.eqb_neq. intros C. apply Hz. now rewrite C. }
      rewrite Hs. cbn [negb orb].
      unfold bind at 1. unfold get at 1. cbn [fst snd].
      unfold bind at 1. unfold set_whitelistedUsers at 1. cbn [fst snd].
      unfold bind at 1. unfold lift at 1.
      destruct (formatEther v) as [eth|e]; cbn [fst snd].
      - unfold bind at 1.
        match goal with |- context [generateMerkleTree ?s] =>
          destruct (Hgen s) as [e He]; [|rewrite He] end.
        { cbn [whitelistedUsers]. rewrite Map_has_set. now rewrite String.eqb_refl. }
        cbn [whitelistedUsers merkleTree merkleRoot rebuilds].
        now exists e, (S (rebuilds this)).
      - now exists e, (rebuilds this). }
    destruct Hout as (e & n & ->). cbn [fst snd whitelistedUsers merkleTree merkleRoot].
    split; [now exists e|]. now repeat split.
  - intros this Hin out. subst out. destruct (Hgen this Hin) as [e He]. rewrite He.
    cbn [fst snd whitelistedUsers merkleTree merkleRoot].
    split; [now exists e|]. now repeat split.
Qed.

(* ================================================================== *)
(** ** The three readers of one record *)

Section Readers.

Context {lib : Libraries}.

Lemma execute_guard (calls : list Call) :
  existsb isImport calls = false ->
  Forall passesAmountGuard (whitelistedUsers (execute calls)).
Proof.
  unfold execute.
  assert (G : forall this,
             existsb isImport calls = false ->
             Forall passesAmountGuard (whitelistedUsers this) ->
             Forall passesAmountGuard (whitelistedUsers (fold_left step calls this))).
  { induction calls as [|c calls IH]; intros this Hc H; simpl; [assumption|].
    simpl in Hc. apply orb_false_iff in Hc. destruct Hc as [Hc Hcs].
    apply IH; [assumption|]. now apply step_guard. }
  intros Hc. apply G; [assumption|constructor].
Qed.

Lemma guarded_member_truthy (k : string) (w : Map) :
  Forall passesAmountGuard w -> Map_has k w = true -> truthy (Map_get k w) = true.
Proof.
  induction w as [|[k' v'] w IH]; simpl; [discriminate|].
  intros H. inversion H as [|? ? [Hv _] Hw]; subst.
  destruct (k' =? k)%string; simpl; [intros _; exact Hv|now apply IH].
Qed.

Lemma truthy_member (k : string) (w : Map) :
  truthy (Map_get k w) = true -> Map_has k w = true.
Proof.
  induction w as [|[k' v'] w IH]; simpl; [discriminate|].
  destruct (k' =? k)%string; simpl; [reflexivity|exact IH].
Qed.

Lemma getMerkleProof_invalid (a : string) (this : MerkleManager) :
  isAddress a = false ->
  getMerkleProof a this = (Throw (Error "Invalid address format"), this).
Proof. intros H. unfold getMerkleProof. now rewrite H. Qed.

Lemma getMerkleProof_not_member (a : string) (this : MerkleManager) :
  isAddress a = true ->
  truthy (Map_get (toLowerCase a) (whitelistedUsers this)) = false ->
  getMerkleProof a this = (Throw (Error "User not whitelisted"), this).
Proof.
  intros H Ht. unfold getMerkleProof. rewrite H. cbn [negb].
  unfold bind, get. cbn [fst snd]. now rewrite Ht.
Qed.

(** X15. [isWhitelisted] asks whether the key is in the Map, while
    [getUserAmount] and [getMerkleProof] ask whether the stored amount is
    truthy.  After any sequence of calls without [importWhitelist] the
    first two agree: [isWhitelisted] returns [true] exactly when
    [getUserAmount] returns an amount, and [getMerkleProof] throws
    'Invalid address format' or 'User not whitelisted' whenever
    [isWhitelisted] returns [false].  On a record whose stored amount is
    falsy (an import can store the empty string) they disagree:
    [isWhitelisted] returns [true], [getUserAmount] returns [null] and
    [getMerkleProof] throws 'User not whitelisted'. *)
Theorem readers_agree_without_import (calls : list Call) (a : string) :
  (existsb isImport calls = false ->
   let this := execute calls in
   (fst (isWhitelisted a this) = Return true <->
    exists v, fst (getUserAmount a this) = Return (Some v)) /\
   (fst (isWhitelisted a this) = Return false ->
    fst (getMerkleProof a this) = Throw (Error "Invalid address format") \/
    fst (getMerkleProof a this) = Throw (Error "User not whitelisted"))) /\
  (forall that,
     isAddress a = true ->
     Map_has (toLowerCase a) (whitelistedUsers that) = true ->
     truthy (Map_get (toLowerCase a) (whitelistedUsers that)) = false ->
     isWhitelisted a that = (Return true, that) /\
     getUserAmount a that = (Return None, that) /\
     getMerkleProof a that = (Throw (Error "User not whitelisted"), that)).
Proof.
  split.
  - intros Hc this. pose proof (execute_guard calls Hc) as Hg. fold this in Hg.
    rewrite isWhitelisted_eq, getUserAmount_eq.
    destruct (isAddress a) eqn:Ha; cbn [andb].
    + destruct (truthy (Map_get (toLowerCase a) (whitelistedUsers this))) eqn:Ht.
      * rewrite (truthy_member _ _ Ht). split; [|discriminate].
        split; [|reflexivity]. intros _. eexists. reflexivity.
      * destruct (Map_has (toLowerCase a) (whitelistedUsers this)) eqn:Hh.
        { rewrite (guarded_member_truthy _ _ Hg Hh) in Ht. discriminate. }
        split.
        -- split; [discriminate|]. intros [v Hv]. discriminate.
        -- intros _. right. now rewrite getMerkleProof_not_member.
    + split.
      * split; [discriminate|]. intros [v Hv]. discriminate.
      * intros _. left. now rewrite getMerkleProof_invalid.
  - intros that Hvalid Hh Ht.
    rewrite (getMerkleProof_not_member a that Hvalid Ht).
    unfold isWhitelisted, getUserAmount.
    rewrite Hvalid. cbn [negb]. unfold bind, get, ret. cbn [fst snd].
    now rewrite Hh, Ht.
Qed.

End Readers.

(* ================================================================== *)
(** ** The further properties at the sample data *)

Lemma member_proof_verifies_witness :
  current abc /\
  isAddress bob = true /\
  truthy (Map_get (toLowerCase bob) (whitelistedUsers abc)) = true /\
  exists r, getMerkleProof bob abc = (Return r, abc) /\ isValid r = true.
Proof.
  assert (H1 : current abc) by (vm_compute; reflexivity).
  assert (H2 : isAddress bob = true) by (vm_compute; reflexivity).
  assert (H3 : truthy (Map_get (toLowerCase bob) (whitelistedUsers abc)) = true)
    by (vm_compute; reflexivity).
  split; [exact H1|]. split; [exact H2|]. split; [exact H3|].
  destruct (member_proof_verifies abc bob H1 H2 H3) as (r & Hr & Hv & _).
  exists r. exact (conj Hr Hv).
Defined.

Lemma returning_mutation_leaves_current_witness :
  let r := mkAdd bob (JString "2000") (merkleRoot onlyBob) in
  addToWhitelist bob (JString "2000") constructor = (Return r, onlyBob) /\
  current onlyBob /\
  add_merkleRoot r = merkleRoot onlyBob.
Proof.
  intros r.
  assert (E : addToWhitelist bob (JString "2000") constructor = (Return r, onlyBob))
    by (vm_compute; reflexivity).
  split; [exact E|].
  exact (proj1 (returning_mutation_leaves_current constructor onlyBob)
               bob (JString "2000") r E).
Defined.

Lemma throwing_call_keeps_tree_and_root_witness :
  let e := LibraryError "invalid BigNumber string" in
  fst (addToWhitelist alice (JString "abc") onlyBob) = Throw e /\
  merkleTree (snd (addToWhitelist alice (JString "abc") onlyBob)) = merkleTree onlyBob /\
  merkleRoot (snd (addToWhitelist alice (JString "abc") onlyBob)) = merkleRoot onlyBob.
Proof.
  intros e.
  assert (E : fst (addToWhitelist alice (JString "abc") onlyBob) = Throw e)
    by (vm_compute; reflexivity).
  split; [exact E|].
  exact (proj1 (throwing_call_keeps_tree_and_root onlyBob e) alice (JString "abc") E).
Defined.

Lemma removed_member_is_gone_witness :
  let calls := [CallAdd alice (JString "1000"); CallAdd bob (JString "2000");
                CallAdd carol (JString "500")] in
  let this' := snd (removeFromWhitelist bob (execute (lib := node_modules) calls)) in
  isAddress bob = true /\
  fst (isWhitelisted bob this') = Return false /\
  fst (getMerkleProof bob this') = Throw (Error "User not whitelisted").
Proof.
  intros calls this'.
  assert (H : isAddress bob = true) by (vm_compute; reflexivity).
  split; [exact H|].
  destruct (removed_member_is_gone calls bob H) as (H1 & _ & H3 & _).
  exact (conj H1 H3).
Defined.

Lemma added_member_is_found_witness :
  let this' := snd (addToWhitelist alice (JString "1000") onlyBob) in
  isAddress alice = true /\
  truthy (JString "1000") = true /\
  JString "1000" <> JString "0" /\
  fst (isWhitelisted alice this') = Return true /\
  fst (getUserAmount alice this') = Return (Some (JString "1000")).
Proof.
  intros this'.
  assert (H1 : isAddress alice = true) by (vm_compute; reflexivity).
  assert (H2 : truthy (JString "1000") = true) by reflexivity.
  assert (H3 : JString "1000" <> JString "0") by discriminate.
  split; [exact H1|]. split; [exact H2|]. split; [exact H3|].
  exact (proj1 (added_member_is_found onlyBob alice (JString "1000") H1 H2 H3)
               alice H1 eq_refl).
Defined.

Lemma batch_is_sequence_of_adds_witness :
  let us := [mkUser alice (JString "1000"); mkUser bob (JString "2000")] in
  let one_by_one :=
    fold_left step (map (fun u => CallAdd (address u) (amount u)) us) constructor in
  let batch := snd (batchAddToWhitelist us constructor) in
  current batch /\ current one_by_one /\
  merkleTree batch = merkleTree one_by_one /\ merkleRoot batch = merkleRoot one_by_one.
Proof.
  intros us one_by_one batch.
  assert (H1 : current batch) by (vm_compute; reflexivity).
  assert (H2 : current one_by_one) by (vm_compute; reflexivity).
  split; [exact H1|]. split; [exact H2|].
  exact (proj2 (batch_is_sequence_of_adds us constructor) H1 H2).
Defined.

Lemma import_replaces_whitelist_witness :
  let us := [("0xaaaaaaaaaaaaaaaaaaaaaaaaaaaaaaaaaaaaaaaa", JString "7");
             ("not an address", JString "9")] in
  let d := mkData (Some us) None "2024-01-01T00:00:00.000Z" in
  let none := mkData None None "2024-01-01T00:00:00.000Z" in
  users none = None /\
  importWhitelist none onlyBob = (Throw (Error "Invalid whitelist data"), onlyBob) /\
  users d = Some us /\
  isAddress bob = true /\
  fst (isWhitelisted bob (snd (importWhitelist d onlyBob)))
  = Return (existsb (fun e => isAddress (fst e)
                              && (toLowerCase (fst e) =? toLowerCase bob)%string) us).
Proof.
  intros us d none.
  assert (H : isAddress bob = true) by (vm_compute; reflexivity).
  split; [reflexivity|].
  split; [exact (proj1 (import_replaces_whitelist onlyBob none) eq_refl)|].
  split; [reflexivity|]. split; [exact H|].
  exact (proj2 (import_replaces_whitelist onlyBob d) us bob eq_refl H).
Defined.

Lemma tree_and_root_go_together_witness :
  let calls := [CallAdd alice (JString "1000"); CallAdd bob (JString "2000");
                CallAdd carol (JString "500")] in
  exists tree,
    merkleTree (execute (lib := node_modules) calls) = Some tree /\
    merkleRoot (execute (lib := node_modules) calls) = Some (MerkleTree.getHexRoot tree).
Proof.
  intros calls.
  destruct (merkleTree (execute (lib := node_modules) calls)) as [tree|] eqn:E.
  - exists tree. split; [reflexivity|].
    exact (proj1 (tree_and_root_go_together calls) tree E).
  - exfalso. vm_compute in E. discriminate E.
Defined.

Lemma proof_length_is_logarithmic_witness :
  current abc /\
  exists r,
    fst (getMerkleProof bob abc) = Return r /\
    (2 ^ List.length (proof r) < 2 * Map_size (whitelistedUsers abc))%nat.
Proof.
  assert (H : current abc) by (vm_compute; reflexivity).
  split; [exact H|].
  destruct (fst (getMerkleProof bob abc)) as [r|e] eqn:E.
  - exists r. split; [reflexivity|].
    exact (proof_length_is_logarithmic abc bob r H E).
  - exfalso. vm_compute in E. discriminate E.
Defined.

Lemma all_users_lists_the_whitelist_witness :
  exists l,
    fst (getAllWhitelistedUsers abc) = Return l /\
    map (fun i => (info_address i, info_amount i)) l = whitelistedUsers abc.
Proof.
  destruct (fst (getAllWhitelistedUsers abc)) as [l|e] eqn:E.
  - exists l. split; [reflexivity|].
    exact (proj1 (proj1 (proj2 (all_users_lists_the_whitelist abc)) l E)).
  - exfalso. vm_compute in E. discriminate E.
Defined.

Lemma unprefixed_address_blocks_rebuilds_witness :
  let d := "aaaaaaaaaaaaaaaaaaaaaaaaaaaaaaaaaaaaaaaa" in
  Ethers.isHex40 d = true /\ Ethers.mixedCase d = false /\
  isAddress d = true /\
  (exists e, fst (addToWhitelist d (JString "5") onlyBob) = Throw e) /\
  merkleRoot (snd (addToWhitelist d (JString "5") onlyBob)) = merkleRoot onlyBob.
Proof.
  intros d.
  assert (H1 : Ethers.isHex40 d = true) by (vm_compute; reflexivity).
  assert (H2 : Ethers.mixedCase d = false) by (vm_compute; reflexivity).
  assert (H3 : JString "5" <> JString "0") by discriminate.
  split; [exact H1|]. split; [exact H2|].
  destruct (unprefixed_address_blocks_rebuilds d H1 H2) as (Hv & Hadd & _).
  split; [exact Hv|].
  destruct (Hadd onlyBob (JString "5") eq_refl H3) as (He & _ & _ & Hr).
  exact (conj He Hr).
Defined.

Lemma readers_agree_without_import_witness :
  let calls := [CallAdd alice (JString "1000"); CallAdd bob (JString "2000");
                CallRemove alice] in
  let that := execute (lib := node_modules)
                [CallImport (mkData (Some [("0xaaaaaaaaaaaaaaaaaaaaaaaaaaaaaaaaaaaaaaaa",
                                            JString "")])
                                    None "2024-01-01T00:00:00.000Z")] in
  existsb isImport calls = false /\
  (fst (isWhitelisted bob (execute (lib := node_modules) calls)) = Return true <->
   exists v, fst (getUserAmount bob (execute (lib := node_modules) calls))
             = Return (Some v)) /\
  isAddress alice = true /\
  Map_has (toLowerCase alice) (whitelistedUsers that) = true /\
  truthy (Map_get (toLowerCase alice) (whitelistedUsers that)) = false /\
  isWhitelisted alice that = (Return true, that) /\
  getMerkleProof alice that = (Throw (Error "User not whitelisted"), that).
Proof.
  intros calls that.
  assert (H0 : existsb isImport calls = false) by reflexivity.
  assert (H1 : isAddress alice = true) by (vm_compute; reflexivity).
  assert (H2 : Map_has (toLowerCase alice) (whitelistedUsers that) = true)
    by (vm_compute; reflexivity).
  assert (H3 : truthy (Map_get (toLowerCase alice) (whitelistedUsers that)) = false)
    by (vm_compute; reflexivity).
  split; [exact H0|].
  split; [exact (proj1 (proj1 (readers_agree_without_import calls bob) H0))|].
  split; [exact H1|]. split; [exact H2|]. split; [exact H3|].
  destruct (proj2 (readers_agree_without_import calls alice) that H1 H2 H3)
    as (Hw & _ & Hp).
  exact (conj Hw Hp).
Defined.

(* ================================================================== *)
(** ** C10: the keys of the whitelist *)

Lemma hex40_bytes (d : string) :
  Ethers.isHex40 d = true ->
  exists addr, List.length addr = 20%nat /\ toLowerCase d = hexOfBytes addr.
Proof.
  intros H. pose proof (isHex40_length d H) as Hlen.
  unfold Ethers.isHex40 in H. apply andb_true_iff in H. destruct H as [_ Hdig].
  destruct (hex_round_trip (toLowerCase d)) as [R L].
  - now apply toLowerCase_hex.
  - now rewrite toLowerCase_length, Hlen.
  - rewrite toLowerCase_length, Hlen in L.
    exists (bytesOfHex (toLowerCase d)). split; [lia|now symmetry].
Qed.

Lemma icap_key (a : string) :
  Ethers.isIcapShape a = true ->
  (String.length (toLowerCase a) = 34%nat \/ String.length (toLowerCase a) = 35%nat) /\
  substring 0 2 (toLowerCase a) = "xe"%string.
Proof.
  unfold Ethers.isIcapShape. intros H.
  apply andb_true_iff in H. destruct H as [H _].
  apply andb_true_iff in H. destruct H as [H Hlen].
  apply andb_true_iff in H. destruct H as [Hxe _].
  split.
  - rewrite toLowerCase_length. apply orb_true_iff in Hlen.
    destruct Hlen as [E | E]; apply Nat.eqb_eq in E; auto.
  - apply String.eqb_eq in Hxe.
    destruct a as [|c0 [|c1 rest]]; try discriminate Hxe.
    cbn [substring] in Hxe. injection Hxe as -> -> _.
    cbn [toLowerCase substring]. now destruct (toLowerCase rest).
Qed.

Lemma accepted_key_shape (a : string) :
  Ethers.isAddress a = true ->
  (exists addr, List.length addr = 20%nat /\
                (toLowerCase a = ("0x" ++ hexOfBytes addr)%string
                 \/ toLowerCase a = hexOfBytes addr)) \/
  ((String.length (toLowerCase a) = 34%nat \/ String.length (toLowerCase a) = 35%nat) /\
   substring 0 2 (toLowerCase a) = "xe"%string).
Proof.
  unfold Ethers.isAddress.
  destruct (Ethers.isHexAddressShape a) eqn:Hs.
  - intros _. left.
    destruct (isHexAddressShape_cases a) as [E | (digits & -> & E)]; rewrite E in Hs.
    + destruct (hex40_bytes a Hs) as (addr & Hlen & Hk). exists addr. auto.
    + destruct (hex40_bytes digits Hs) as (addr & Hlen & Hk). exists addr.
      split; [exact Hlen|]. left.
      change (toLowerCase (String "0" (String "x" digits)))
        with (String "0" (String "x" (toLowerCase digits))).
      now rewrite Hk.
  - destruct (Ethers.isIcapShape a) eqn:Hi; [|discriminate]. intros _.
    right. now apply icap_key.
Qed.

(** C10 (as amended). On the manager with [ethers], after every sequence of
    calls on a fresh manager no key of the whitelist occurs twice, and every
    key is lowercase and is the lowercase form of a string that [isAddress]
    accepted: the lowercase hexadecimal spelling of 20 bytes, with or
    without the [0x] prefix, or a lowercased ICAP address ([xe] and 32 or 33
    more characters).  Every insertion path checks [isAddress] and
    lowercases before [set]; none brings the address to one canonical
    spelling. *)
Theorem keys_are_canonical (calls : list Call) :
  let this := execute (lib := node_modules) calls in
  NoDup (Map_keys (whitelistedUsers this)) /\
  forall k,
    In k (Map_keys (whitelistedUsers this)) ->
    toLowerCase k = k /\
    (exists a, isAddress a = true /\ k = toLowerCase a) /\
    ((exists addr, List.length addr = 20%nat /\
                   (k = ("0x" ++ hexOfBytes addr)%string \/ k = hexOfBytes addr)) \/
     ((String.length k = 34%nat \/ String.length k = 35%nat) /\
      substring 0 2 k = "xe"%string)).
Proof.
  intros this. split; [apply execute_NoDup|].
  intros k Hin.
  pose proof (execute_canonicalKeys (lib := node_modules) calls) as Hall.
  unfold canonicalKeys in Hall. rewrite Forall_forall in Hall.
  destruct (Hall k Hin) as (a & Ha & ->).
  split; [apply toLowerCase_idempotent|].
  split; [now exists a|].
  now apply accepted_key_shape.
Qed.

(** C10, counterexample. One 20-byte address, spelled with and without the
    [0x] prefix, is accepted both times and stored under two keys: the keys
    are lowercase, but not the canonical form of the address. *)
Lemma one_address_under_two_keys :
  let prefixed := "0xaaaaaaaaaaaaaaaaaaaaaaaaaaaaaaaaaaaaaaaa"%string in
  let bare := "aaaaaaaaaaaaaaaaaaaaaaaaaaaaaaaaaaaaaaaa"%string in
  let addr := repeat xaa 20 in
  isAddress prefixed = true /\ isAddress bare = true /\
  prefixed = ("0x" ++ hexOfBytes addr)%string /\ bare = hexOfBytes addr /\
  Map_keys (whitelistedUsers
              (run [CallAdd prefixed (JString "1000"); CallAdd bare (JString "2000")]))
  = [prefixed; bare] /\
  Map_keys (whitelistedUsers
              (run [CallImport (mkData (Some [(prefixed, JString "1000");
                                              (bare, JString "2000")])
                                       None "2024-01-01T00:00:00.000Z")]))
  = [prefixed; bare].
Proof.
  intros prefixed bare addr.
  split; [vm_compute; reflexivity|]. split; [vm_compute; reflexivity|].
  split; [vm_compute; reflexivity|]. split; [vm_compute; reflexivity|].
  split; vm_compute; reflexivity.
Qed.

(* ================================================================== *)
(** ** C2: leaves and nodes of the stored tree *)

Section StoredTree.

Context {lib : Libraries}.

(** A layer of more than one node has a layer above it. *)
Lemma createHashes_above (hashFn : bytes -> bytes) (fuel : nat) (nodes : list bytes)
      (i : nat) (lower : list bytes) :
  (List.length nodes <= fuel)%nat ->
  nth_error (nodes :: MerkleTree.createHashes hashFn fuel nodes) i = Some lower ->
  (2 <= List.length lower)%nat ->
  exists upper,
    nth_error (nodes :: MerkleTree.createHashes hashFn fuel nodes) (S i) = Some upper.
Proof.
  revert nodes i. induction fuel as [|fuel IH]; intros nodes i Hlen Hl Htwo.
  - destruct i as [|i]; cbn in Hl.
    + injection Hl as <-. lia.
    + now destruct i.
  - cbn [MerkleTree.createHashes] in *.
    destruct (Nat.leb_spec (List.length nodes) 1) as [Hle|Hgt].
    + destruct i as [|i]; cbn in Hl.
      * injection Hl as <-. lia.
      * now destruct i.
    + destruct i as [|i].
      * eexists. reflexivity.
      * cbn [nth_error] in Hl |- *.
        apply IH; [|exact Hl|exact Htwo].
        rewrite nextLayer_length.
        pose proof (Nat.div2_odd (S (List.length nodes))) as Hd.
        destruct (Nat.odd (S (List.length nodes))); simpl Nat.b2n in Hd; lia.
Qed.

(** On a manager whose tree was built from the leaves of the present
    whitelist, [getMerkleProof] for a member returns, and its leaf is the one
    the tree holds at the member's position. *)
Lemma member_leaf_in_tree (this : MerkleManager) (a : string) (lvs : list bytes)
      (root : string) :
  mapC leafOf (whitelistedUsers this) = Return lvs ->
  merkleTree this = Some (MerkleTree.new keccak256 lvs) ->
  merkleRoot this = Some root ->
  isAddress a = true ->
  truthy (Map_get (toLowerCase a) (whitelistedUsers this)) = true ->
  exists r i lf,
    getMerkleProof a this = (Return r, this) /\
    nth_error (whitelistedUsers this) i
      = Some (toLowerCase a, Map_get (toLowerCase a) (whitelistedUsers this)) /\
    nth_error lvs i = Some lf /\
    leaf r = ("0x" ++ hexOfBytes lf)%string.
Proof.
  intros Hm Htree Hroot Ha Ht.
  destruct (Map_get_nth _ _ Ht) as [i Hi].
  destruct (mapC_nth _ _ _ _ _ Hm Hi) as (lf & Hlf & Hnth).
  unfold getMerkleProof. rewrite Ha. cbn [negb].
  unfold bind, get, lift, ret. cbn [fst snd].
  rewrite Ht, Htree. cbn [negb]. rewrite Hlf, Hroot.
  eexists. exists i, lf. split; [reflexivity|]. cbn [leaf]. auto.
Qed.

End StoredTree.

(** C2 (as amended). On the manager with [ethers] and [keccak256], in every
    state reached by calls whose tree and root are current (a rebuild over
    the present whitelist would return and change neither) and whose
    whitelist is not empty, there is a stored tree and: (1) its leaves are
    one per record, in insertion order, the leaf of a record being Keccak-256
    of the 20 bytes its key spells followed by the amount as 32 big-endian
    bytes (a negative amount above [-2^256] in two's complement); (2) the
    first layer is the leaves, every layer of more than one node has a layer
    above it of half as many nodes (rounded up), each node of which is the
    hash of the sorted pair of its two children, an odd last node being
    carried up unchanged, and the last layer is the root alone, which
    [merkleRoot] spells; (3) [getMerkleProof] for a member returns, and the
    leaf it reports is the leaf the stored tree holds at the member's
    position. *)
Theorem leaf_and_node_hashes (calls : list Call) :
  let this := execute (lib := node_modules) calls in
  current this -> whitelistedUsers this <> [] ->
  exists tree root,
    merkleTree this = Some tree /\
    merkleRoot this = Some ("0x" ++ hexOfBytes root)%string /\
    List.length (MerkleTree.leaves tree) = List.length (whitelistedUsers this) /\
    (forall i k v,
       nth_error (whitelistedUsers this) i = Some (k, v) ->
       exists addr w z,
         List.length addr = 20%nat /\ k = ("0x" ++ hexOfBytes addr)%string /\
         Ethers.BigNumber_from v = Return z /\
         List.length w = 32%nat /\
         ((0 <= z)%Z -> Z.of_N (Ethers.bigEndianValue w) = z) /\
         ((- 2 ^ 256 < z)%Z -> Z.of_N (Ethers.bigEndianValue w) = (z mod 2 ^ 256)%Z) /\
         nth_error (MerkleTree.leaves tree) i = Some (Keccak.keccak256 (addr ++ w))) /\
    nth_error (MerkleTree.layers tree) 0 = Some (MerkleTree.leaves tree) /\
    last (MerkleTree.layers tree) [] = [root] /\
    (forall i lower,
       nth_error (MerkleTree.layers tree) i = Some lower ->
       (2 <= List.length lower)%nat ->
       exists upper,
         nth_error (MerkleTree.layers tree) (S i) = Some upper /\
         List.length upper = Nat.div2 (S (List.length lower)) /\
         forall j l,
           nth_error lower (2 * j) = Some l ->
           match nth_error lower (2 * j + 1) with
           | Some r =>
               exists lo hi,
                 nth_error upper j = Some (Keccak.keccak256 (lo ++ hi)) /\
                 Buffer_compare lo hi <> Gt /\
                 ((lo = l /\ hi = r) \/ (lo = r /\ hi = l))
           | None => nth_error upper j = Some l
           end) /\
    (forall a,
       isAddress a = true ->
       truthy (Map_get (toLowerCase a) (whitelistedUsers this)) = true ->
       exists r i lf,
         getMerkleProof a this = (Return r, this) /\
         nth_error (whitelistedUsers this) i
           = Some (toLowerCase a, Map_get (toLowerCase a) (whitelistedUsers this)) /\
         nth_error (MerkleTree.leaves tree) i = Some lf /\
         leaf r = ("0x" ++ hexOfBytes lf)%string).
Proof.
  intros this Hcur Hne.
  destruct (current_nonempty this Hcur Hne) as (lvs & Hm & Htree & Hroot).
  pose proof (mapC_length _ _ _ Hm) as Hlen.
  assert (Hlvs : lvs <> []).
  { intros C. rewrite C in Hlen. destruct (whitelistedUsers this); [now apply Hne|discriminate]. }
  destruct (new_tree_layers keccak256 lvs Hlvs) as (H0 & Hn & root & Hl & Hx).
  exists (MerkleTree.new keccak256 lvs), root.
  split; [exact Htree|]. split; [now rewrite Hroot, Hx|]. split; [exact Hlen|].
  split; [|split; [exact H0|split; [exact Hl|split]]].
  - intros i k v Hi.
    destruct (mapC_nth _ _ _ _ _ Hm Hi) as (lf & Hy & Hnth).
    unfold leafOf in Hy. cbn [fst snd solidityPack node_modules] in Hy.
    unfold Ethers.solidityPack in Hy.
    destruct (Ethers.arrayify k) as [addr|] eqn:Ha; [|discriminate].
    destruct (Ethers.BigNumber_from v) as [z|] eqn:Hz; [|discriminate].
    destruct (Ethers.zeroPad32 (Ethers.toTwos256 z)) as [w|] eqn:Hw; [|discriminate].
    injection Hy as <-.
    assert (Hk : canonicalKey k).
    { pose proof (execute_canonicalKeys (lib := node_modules) calls) as Hall.
      unfold canonicalKeys in Hall. rewrite Forall_forall in Hall. apply Hall.
      apply nth_error_In in Hi. now apply (in_map fst) in Hi. }
    destruct Hk as (a & Hvalid & ->).
    destruct (canonical_key_bytes a addr Hvalid Ha) as [Hal Hkey].
    destruct (packed_amount z w Hw) as (Hwl & Hmod & Hpos).
    exists addr, w, z.
    split; [exact Hal|]. split; [exact Hkey|]. split; [reflexivity|].
    split; [exact Hwl|]. split; [exact Hpos|]. split; [intros _; exact Hmod|].
    exact Hnth.
  - intros i lower Hi Htwo.
    destruct (createHashes_above keccak256 (List.length lvs) lvs i lower (le_n _) Hi Htwo)
      as [upper Hu].
    exists upper. split; [exact Hu|]. split.
    + rewrite (createHashes_adjacent _ _ _ _ _ _ Hi Hu). apply nextLayer_length.
    + intros j l Hj. exact (Hn i lower upper j l Hi Hu Hj).
  - intros a Ha Ht.
    exact (member_leaf_in_tree this a lvs _ Hm Htree Hroot Ha Ht).
Qed.

(** C2, counterexample. After a backup with an unreadable amount was
    imported over a one-record whitelist, the whitelist is the backup's but
    the tree is the old one: [getMerkleProof] for the member returns the leaf
    of the record as it now is, which is not a leaf of the stored tree, and
    the second record of the whitelist has no leaf hash at all. *)
Lemma proof_leaf_is_not_in_the_stored_tree :
  exists r tree lf,
    getMerkleProof alice afterBadImport = (Return r, afterBadImport) /\
    proof_amount r = JString "7" /\
    leaf r = ("0x" ++ hexOfBytes lf)%string /\
    merkleTree afterBadImport = Some tree /\
    ~ In lf (MerkleTree.leaves tree) /\
    In ("0xbbbbbbbbbbbbbbbbbbbbbbbbbbbbbbbbbbbbbbbb"%string, JString "abc")
       (whitelistedUsers afterBadImport) /\
    leafOf ("0xbbbbbbbbbbbbbbbbbbbbbbbbbbbbbbbbbbbbbbbb"%string, JString "abc")
    = Throw (LibraryError "invalid BigNumber string").
Proof.
  pose (key := bytesOfHex "aaaaaaaaaaaaaaaaaaaaaaaaaaaaaaaaaaaaaaaa").
  pose (lf := Keccak.keccak256 (key ++ Ethers.bigEndian 32 7)).
  pose (old := Keccak.keccak256 (key ++ Ethers.bigEndian 32 5)).
  exists (mkProof alice (JString "7") [] (merkleRoot afterBadImport)
                  ("0x" ++ hexOfBytes lf)%string false),
         (MerkleTree.new Keccak.keccak256 [old]), lf.
  split; [vm_compute; reflexivity|]. split; [reflexivity|]. split; [reflexivity|].
  split; [vm_compute; reflexivity|]. split; [|split].
  - vm_compute. intros [C | []]. discriminate C.
  - vm_compute. right. left. reflexivity.
  - vm_compute. reflexivity.
Qed.


Lemma leaf_and_node_hashes_witness :
  let calls := [CallAdd alice (JString "1000"); CallAdd bob (JString "2000");
                CallAdd carol (JString "500")] in
  let this := execute (lib := node_modules) calls in
  let k := "0xbbbbbbbbbbbbbbbbbbbbbbbbbbbbbbbbbbbbbbbb"%string in
  current this /\ whitelistedUsers this <> [] /\
  exists tree root l0 l1 upper lo hi r,
    merkleTree this = Some tree /\
    merkleRoot this = Some ("0x" ++ hexOfBytes root)%string /\
    nth_error (MerkleTree.leaves tree) 0 = Some l0 /\
    nth_error (MerkleTree.leaves tree) 1 = Some l1 /\
    (exists addr w,
       List.length addr = 20%nat /\ k = ("0x" ++ hexOfBytes addr)%string /\
       List.length w = 32%nat /\ Z.of_N (Ethers.bigEndianValue w) = 2000%Z /\
       l1 = Keccak.keccak256 (addr ++ w)) /\
    nth_error (MerkleTree.layers tree) 1 = Some upper /\
    List.length upper = 2%nat /\
    nth_error upper 0 = Some (Keccak.keccak256 (lo ++ hi)) /\
    ((lo = l0 /\ hi = l1) \/ (lo = l1 /\ hi = l0)) /\
    getMerkleProof bob this = (Return r, this) /\
    leaf r = ("0x" ++ hexOfBytes l1)%string.
Proof.
  intros calls this k.
  assert (Hcur : current this) by (vm_compute; reflexivity).
  assert (E : whitelistedUsers this
              = [("0xaaaaaaaaaaaaaaaaaaaaaaaaaaaaaaaaaaaaaaaa"%string, JString "1000");
                 (k, JString "2000");
                 ("0xcccccccccccccccccccccccccccccccccccccccc"%string, JString "500")])
    by (vm_compute; reflexivity).
  assert (Hne : whitelistedUsers this <> []) by (rewrite E; discriminate).
  split; [exact Hcur|]. split; [exact Hne|].
  destruct (leaf_and_node_hashes calls Hcur Hne)
    as (tree & root & Ht & Hr & Hlen & Hrec & H0 & _ & Hlay & Hproof).
  fold this in Ht, Hr, Hlen, Hrec, Hproof.
  assert (N0 : nth_error (whitelistedUsers this) 0
               = Some ("0xaaaaaaaaaaaaaaaaaaaaaaaaaaaaaaaaaaaaaaaa"%string, JString "1000"))
    by (rewrite E; reflexivity).
  assert (N1 : nth_error (whitelistedUsers this) 1 = Some (k, JString "2000"))
    by (rewrite E; reflexivity).
  destruct (Hrec 0%nat _ _ N0) as (addr0 & w0 & z0 & _ & _ & _ & _ & _ & _ & L0).
  destruct (Hrec 1%nat _ _ N1) as (addr & w & z & Ha & Hk & Hz & Hw & Hpos & _ & L1).
  assert (Ez : Ethers.BigNumber_from (JString "2000") = Return 2000%Z)
    by (vm_compute; reflexivity).
  rewrite Ez in Hz. injection Hz as Hz. rewrite <- Hz in Hpos.
  assert (P : (0 <= 2000)%Z) by discriminate.
  assert (Htwo : (2 <= List.length (MerkleTree.leaves tree))%nat).
  { rewrite Hlen, E. apply le_S, le_n. }
  destruct (Hlay 0%nat _ H0 Htwo) as (upper & Hu & Hul & Hpair).
  pose proof (Hpair 0%nat _ L0) as Hp.
  change (2 * 0 + 1)%nat with 1%nat in Hp. rewrite L1 in Hp.
  destruct Hp as (lo & hi & Hup & _ & Hor).
  rewrite Hlen, E in Hul.
  assert (Hb : isAddress bob = true) by (vm_compute; reflexivity).
  assert (Hg : Map_get (toLowerCase bob) (whitelistedUsers this) = JString "2000")
    by (vm_compute; reflexivity).
  assert (Eb : toLowerCase bob = k) by (vm_compute; reflexivity).
  assert (Htr : truthy (Map_get (toLowerCase bob) (whitelistedUsers this)) = true)
    by (rewrite Hg; reflexivity).
  destruct (Hproof bob Hb Htr) as (r & i & lf & Hp1 & Hp2 & Hp3 & Hp4).
  rewrite Hg, Eb, E in Hp2.
  assert (Ei : i = 1%nat).
  { destruct i as [|[|[|i]]]; [discriminate Hp2|reflexivity|discriminate Hp2|].
    destruct i; discriminate Hp2. }
  subst i. rewrite L1 in Hp3. injection Hp3 as Hp3. rewrite <- Hp3 in Hp4.
  exists tree, root, (Keccak.keccak256 (addr0 ++ w0)), (Keccak.keccak256 (addr ++ w)),
         upper, lo, hi, r.
  split; [exact Ht|]. split; [exact Hr|]. split; [exact L0|]. split; [exact L1|].
  split.
  { exists addr, w. split; [exact Ha|]. split; [exact Hk|]. split; [exact Hw|].
    split; [exact (Hpos P)|reflexivity]. }
  split; [exact Hu|]. split; [exact Hul|]. split; [exact Hup|].
  split; [exact Hor|]. split; [exact Hp1|exact Hp4].
Defined.
